(** * Zuul executor server: a shallow embedding of [zuul/executor/server.py]

    The definitions follow the source file:

    - [Posix]: the functions of [os] and [os.path] the executor calls, on
      a file system of directories, files and symbolic links;
    - [JobDirPlaybook], [JobDir]: the job directory;
    - [RepoSync]: [UpdateTask], [DeduplicateQueue] and the update loop of
      [ExecutorServer];
    - [Branches]: [AnsibleJob.checkoutBranch];
    - [Phases]: [runAnsible], [runAnsiblePlaybook] and [runPlaybooks];
    - [Staging]: [findPlaybook], [_blockPluginDirs], the preparation of
      playbooks and roles;
    - [Execute]: [_execute] from the preparation on, and the [try] of
      [execute];
    - [Inventory]: [getHostList] and [make_inventory_dict];
    - [Updates]: the repository updates a job asks for and waits on;
    - [Control]: the command loop, [stop] and the registry of jobs;
    - [SshAgent]: the agent of a job;
    - [Lifecycle]: [AnsibleJob.execute] with its [finally].

    The properties follow, one module of facts for each of these.

    Python values keep their shape: [None] is [option]'s [None], a raised
    exception is the left summand of a result, the four [RESULT_*]
    constants are the integers of the source. What the executor does not
    own (the merger, the connection registry, the subprocess, the clock)
    is a variable of the section that uses it. *)

From Stdlib Require Import ZArith Ascii.
From stdpp Require Import gmap strings list pretty.

Open Scope Z_scope.
Open Scope nat_scope.

(** ** Exceptions

    [ExecutorError] is the executor's own, non-transient error; every other
    exception the code can meet is an [Exception]. *)

Inductive exn : Type :=
  | ExecutorError (msg : string)
  | Exception (msg : string).

Global Instance exn_eq_dec : EqDecision exn.
Proof. solve_decision. Defined.

(** ** Code that raises

    A computation over a state [S] returns a value or raises, and keeps
    the state it reached either way: Python does not roll back what was
    done before a [raise]. *)

Definition M (S A : Type) : Type := S → (exn + A) * S.

Definition ret {S A} (a : A) : M S A := λ s, (inr a, s).
Definition raise {S A} (e : exn) : M S A := λ s, (inl e, s).
Definition bind {S A B} (m : M S A) (k : A → M S B) : M S B :=
  λ s, match m s with
       | (inr a, s') => k a s'
       | (inl e, s') => (inl e, s')
       end.
Definition gets {S A} (f : S → A) : M S A := λ s, (inr (f s), s).
Definition modify {S} (f : S → S) : M S unit := λ s, (inr tt, f s).

Declare Scope py_scope.
Delimit Scope py_scope with py.
Notation "x <- m ;; k" := (bind m (λ x, k))
  (at level 100, m at next level, right associativity) : py_scope.
Notation "m ;; k" := (bind m (λ _, k))
  (at level 100, right associativity) : py_scope.

(** [for x in l: body x], without [break]. *)
Fixpoint for_each {S A} (l : list A) (body : A → M S unit) : M S unit :=
  match l with
  | [] => ret tt
  | x :: rest => (body x ;; for_each rest body)%py
  end.

(** Truthiness of a Python value that is [None] or a string. *)
Definition truthy (x : option string) : bool :=
  match x with
  | Some s => negb (bool_decide (s = ""))
  | None => false
  end.

(** [str(x)] for the same values. *)
Definition py_str (x : option string) : string := default "None" x.

(** * The operating system, as the executor uses it

    [os.path] on POSIX and a file system of directories, regular files and
    symbolic links. Canonical absolute paths name the nodes; the root
    directory always exists. *)

Module Posix.

Definition sep : ascii := "/"%char.

(** [s.startswith(p)] and [s.endswith(p)]. *)
Definition startswith (s p : string) : bool := String.prefix p s.
Definition endswith (s p : string) : bool :=
  String.prefix (String.rev p) (String.rev s).

(** [s.split('/')]. *)
Fixpoint split_go (cur s : string) : list string :=
  match s with
  | EmptyString => [String.rev cur]
  | String c s' =>
      if bool_decide (c = sep) then String.rev cur :: split_go "" s'
      else split_go (String c cur) s'
  end.
Definition split_sep (s : string) : list string := split_go "" s.

(** ['/'.join(l)]. *)
Fixpoint join_sep (l : list string) : string :=
  match l with
  | [] => ""
  | [x] => x
  | x :: rest => x +:+ "/" +:+ join_sep rest
  end.

Definition isabs (s : string) : bool := startswith s "/".

(** [posixpath.join(a, *p)]. *)
Definition join2 (path b : string) : string :=
  if startswith b "/" then b
  else if bool_decide (path = "") || endswith path "/" then path +:+ b
  else path +:+ "/" +:+ b.
Definition join (a : string) (p : list string) : string := fold_left join2 p a.

(** [posixpath.normpath]. *)
Definition norm_step (initial_slashes : nat) (new_comps : list string)
    (comp : string) : list string :=
  if bool_decide (comp = "") || bool_decide (comp = ".") then new_comps
  else if negb (bool_decide (comp = ".."))
          || (bool_decide (initial_slashes = 0) && bool_decide (new_comps = []))
          || bool_decide (last new_comps = Some "..")
       then new_comps ++ [comp]
       else removelast new_comps.

Definition normpath (path : string) : string :=
  if bool_decide (path = "") then "."
  else
    let initial_slashes :=
      if startswith path "/" then
        if startswith path "//" && negb (startswith path "///") then 2 else 1
      else 0 in
    let comps := fold_left (norm_step initial_slashes) (split_sep path) [] in
    let path' := match initial_slashes with
                 | 0 => join_sep comps
                 | 1 => "/" +:+ join_sep comps
                 | _ => "//" +:+ join_sep comps
                 end in
    if bool_decide (path' = "") then "." else path'.

(** [s.rstrip('/')]. *)
Fixpoint lstrip_sep (s : string) : string :=
  match s with
  | String c s' => if bool_decide (c = sep) then lstrip_sep s' else s
  | EmptyString => ""
  end.
Definition rstrip_sep (s : string) : string :=
  String.rev (lstrip_sep (String.rev s)).

(** [posixpath.dirname]. *)
Definition dirname (p : string) : string :=
  match split_sep p with
  | [] | [_] => ""
  | comps =>
      let head := join_sep (removelast comps) +:+ "/" in
      if bool_decide (lstrip_sep head = "") then head else rstrip_sep head
  end.

(** ** The file system *)

Inductive node : Type :=
  | File (content : list string)
  | Dir
  | Symlink (target : string).

Global Instance node_eq_dec : EqDecision node.
Proof. solve_decision. Defined.

Record FS : Type := mkFS {
  cwd : string;
  nodes : gmap string node
}.

(** The canonical name of the node reached by the components [comps]. *)
Definition render (comps : list string) : string := "/" +:+ join_sep comps.

Definition node_at (fs : FS) (comps : list string) : option node :=
  match comps with
  | [] => Some Dir
  | _ => nodes fs !! render comps
  end.

Definition MAXSYMLINKS : nat := 40.

(** Path resolution, component by component, from the resolved directory
    [path] through the remaining components [rest]. With [strict] it is
    what the kernel does for [stat]: every component must exist and every
    component but the last must be a directory. Without, it is
    [posixpath.realpath], which resolves what exists and keeps the rest.
    At most [MAXSYMLINKS] links are followed. *)
Fixpoint resolve (fs : FS) (strict : bool) (links : nat)
    (path rest : list string) {struct links} : option (list string) :=
  (fix go (path rest : list string) {struct rest} : option (list string) :=
     match rest with
     | [] => Some path
     | name :: rest' =>
         if bool_decide (name = "") || bool_decide (name = ".") then go path rest'
         else if bool_decide (name = "..") then go (removelast path) rest'
         else
           match node_at fs (path ++ [name]) with
           | Some (Symlink target) =>
               match links with
               | O => if strict then None else Some (path ++ name :: rest')
               | S links' =>
                   resolve fs strict links'
                     (if isabs target then [] else path)
                     (split_sep target ++ rest')
               end
           | Some Dir => go (path ++ [name]) rest'
           | Some (File _) =>
               if strict && negb (bool_decide (rest' = [])) then None
               else go (path ++ [name]) rest'
           | None => if strict then None else go (path ++ [name]) rest'
           end
     end) path rest.

(** The components of [p] made absolute ([os.getcwd()] is canonical). *)
Definition absolute (fs : FS) (p : string) : list string :=
  split_sep (if isabs p then p else join2 (cwd fs) p).

Definition abspath (fs : FS) (p : string) : string :=
  normpath (if isabs p then p else join2 (cwd fs) p).

Definition realpath (fs : FS) (p : string) : string :=
  match resolve fs false MAXSYMLINKS [] (absolute fs p) with
  | Some comps => render comps
  | None => abspath fs p
  end.

(** [os.stat]: follows every link. *)
Definition stat (fs : FS) (p : string) : option node :=
  comps ← resolve fs true MAXSYMLINKS [] (absolute fs p);
  node_at fs comps.

(** [os.lstat]: the last component is not followed. *)
Definition lstat (fs : FS) (p : string) : option node :=
  let comps := absolute fs p in
  match last comps with
  | Some name =>
      if bool_decide (name = "") || bool_decide (name = ".")
         || bool_decide (name = "..")
      then stat fs p
      else
        parent ← resolve fs true MAXSYMLINKS [] (removelast comps);
        match node_at fs parent with
        | Some Dir => node_at fs (parent ++ [name])
        | _ => None
        end
  | None => stat fs p
  end.

Definition exists_ (fs : FS) (p : string) : bool := bool_decide (is_Some (stat fs p)).
Definition isdir (fs : FS) (p : string) : bool := bool_decide (stat fs p = Some Dir).
Definition lexists (fs : FS) (p : string) : bool := bool_decide (is_Some (lstat fs p)).

(** The components of a canonical name. *)
Definition key_comps (k : string) : option (list string) :=
  match split_sep k with
  | "" :: cs => Some cs
  | _ => None
  end.

(** The name of [k] when it is an entry of the directory [d]. *)
Definition entry_of (d : list string) (k : string) : option string :=
  cs ← key_comps k;
  name ← last cs;
  if bool_decide (removelast cs = d) && negb (bool_decide (name = ""))
  then Some name else None.

(** [os.listdir]. *)
Definition listdir (fs : FS) (p : string) : exn + list string :=
  match resolve fs true MAXSYMLINKS [] (absolute fs p) with
  | Some d =>
      match node_at fs d with
      | Some Dir => inr (omap (λ kv, entry_of d kv.1) (map_to_list (nodes fs)))
      | Some _ => inl (Exception "NotADirectoryError")
      | None => inl (Exception "FileNotFoundError")
      end
  | None => inl (Exception "FileNotFoundError")
  end.

Definition set_node (comps : list string) (n : node) (fs : FS) : FS :=
  {| cwd := cwd fs; nodes := <[ render comps := n ]> (nodes fs) |}.

(** The components of [p] that name something: [s.split('/')] without
    the empty ones and the dots. *)
Definition names (comps : list string) : list string :=
  filter (λ c, c ≠ "" ∧ c ≠ ".") comps.

(** The place a new node named by [p] goes to: its resolved parent, which
    must be a directory, and its name. *)
Definition new_place (fs : FS) (p : string) : exn + list string :=
  let comps := names (absolute fs p) in
  match last comps with
  | None => inl (Exception "FileExistsError")
  | Some name =>
      if bool_decide (name = "..") then inl (Exception "FileExistsError")
      else
        match resolve fs true MAXSYMLINKS [] (removelast comps) with
        | Some parent =>
            match node_at fs parent with
            | Some Dir => inr (parent ++ [name])
            | Some _ => inl (Exception "NotADirectoryError")
            | None => inl (Exception "FileNotFoundError")
            end
        | None => inl (Exception "FileNotFoundError")
        end
  end.

(** [os.mkdir]. *)
Definition mkdir (p : string) : M FS unit := λ fs,
  if lexists fs p then (inl (Exception "FileExistsError"), fs)
  else match new_place fs p with
       | inr comps => (inr tt, set_node comps Dir fs)
       | inl e => (inl e, fs)
       end.

(** [os.makedirs]: the missing ancestors first, then the leaf, which must
    be new. [prefix] grows along the components of the path. *)
Fixpoint make_ancestors (prefix : string) (comps : list string) : M FS unit :=
  match comps with
  | [] | [_] => ret tt
  | c :: rest =>
      let prefix' := join2 prefix c in
      (λ fs, if exists_ fs prefix' then make_ancestors prefix' rest fs
             else (mkdir prefix' ;; make_ancestors prefix' rest)%py fs)
  end.

Definition makedirs (p : string) : M FS unit :=
  (make_ancestors (if isabs p then "/" else "") (names (split_sep p)) ;;
   mkdir p)%py.

(** [os.symlink(src, dst)]. *)
Definition symlink (src dst : string) : M FS unit := λ fs,
  if lexists fs dst then (inl (Exception "FileExistsError"), fs)
  else match new_place fs dst with
       | inr comps => (inr tt, set_node comps (Symlink src) fs)
       | inl e => (inl e, fs)
       end.

(** [open(p, 'w')] followed by the writes of [content]. *)
Definition write_file (p : string) (content : list string) : M FS unit := λ fs,
  match stat fs p with
  | Some Dir => (inl (Exception "IsADirectoryError"), fs)
  | Some _ =>
      match resolve fs true MAXSYMLINKS [] (absolute fs p) with
      | Some comps => (inr tt, set_node comps (File content) fs)
      | None => (inl (Exception "FileNotFoundError"), fs)
      end
  | None =>
      match new_place fs p with
      | inr comps => (inr tt, set_node comps (File content) fs)
      | inl e => (inl e, fs)
      end
  end.

End Posix.

(** * The job directory *)

Module JobDirPlaybook.

Record t : Type := mk {
  root : string;
  trusted : option bool;
  branch : option string;
  canonical_name_and_path : option string;
  path : option string;
  roles : list string;
  roles_path : list string;
  ansible_config : string;
  project_link : string
}.

Global Instance eq_dec : EqDecision t.
Proof. solve_decision. Defined.

(** [JobDirPlaybook.__init__]. *)
Definition init (root : string) : t :=
  {| root := root; trusted := None; branch := None;
     canonical_name_and_path := None; path := None;
     roles := []; roles_path := [];
     ansible_config := Posix.join root ["ansible.cfg"];
     project_link := Posix.join root ["project"] |}.

(** [addRole]: the new role root and the playbook with the root recorded. *)
Definition addRole (self : t) : M Posix.FS (string * t) :=
  (let count := length (roles self) in
   let root' := Posix.join (root self) ["role_" +:+ pretty count] in
   Posix.makedirs root' ;;
   ret (root',
        {| root := root self; trusted := trusted self; branch := branch self;
           canonical_name_and_path := canonical_name_and_path self;
           path := path self; roles := roles self ++ [root'];
           roles_path := roles_path self;
           ansible_config := ansible_config self;
           project_link := project_link self |}))%py.

(** Assignments to the fields of a playbook object. *)
Definition set_origin (trusted' : bool) (branch' : option string)
    (name_and_path : string) (self : t) : t :=
  {| root := root self; trusted := Some trusted'; branch := branch';
     canonical_name_and_path := Some name_and_path;
     path := path self; roles := roles self; roles_path := roles_path self;
     ansible_config := ansible_config self;
     project_link := project_link self |}.

Definition set_path (path' : option string) (self : t) : t :=
  {| root := root self; trusted := trusted self; branch := branch self;
     canonical_name_and_path := canonical_name_and_path self;
     path := path'; roles := roles self; roles_path := roles_path self;
     ansible_config := ansible_config self;
     project_link := project_link self |}.

Definition append_roles_path (role_path : string) (self : t) : t :=
  {| root := root self; trusted := trusted self; branch := branch self;
     canonical_name_and_path := canonical_name_and_path self;
     path := path self; roles := roles self;
     roles_path := roles_path self ++ [role_path];
     ansible_config := ansible_config self;
     project_link := project_link self |}.

End JobDirPlaybook.

Module JobDir.

(** [playbook] points at the chosen candidate: it is an index into
    [playbooks], since the chosen object is the one in that list. *)
Record t : Type := mk {
  keep : bool;
  root : string;
  work_root : string;
  src_root : string;
  log_root : string;
  ansible_root : string;
  trusted_root : string;
  result_data_file : string;
  known_hosts : string;
  inventory : string;
  secrets : string;
  has_secrets : bool;
  playbooks : list JobDirPlaybook.t;
  playbook : option nat;
  pre_playbooks : list JobDirPlaybook.t;
  post_playbooks : list JobDirPlaybook.t;
  job_output_file : string;
  trusted_projects : list string;
  trusted_project_index : gmap (string * option string) string
}.

(** [JobDir.__init__(root, keep, build_uuid)]; [gettempdir] is what
    [tempfile.gettempdir()] answers. *)
Definition init (gettempdir : string) (root : option string) (keep : bool)
    (build_uuid : string) : M Posix.FS t :=
  (let tmpdir := if truthy root then default "" root else gettempdir in
   let root := Posix.join tmpdir [build_uuid] in
   Posix.mkdir root ;;
   let work_root := Posix.join root ["work"] in
   Posix.makedirs work_root ;;
   let src_root := Posix.join work_root ["src"] in
   Posix.makedirs src_root ;;
   let log_root := Posix.join work_root ["logs"] in
   Posix.makedirs log_root ;;
   let ansible_root := Posix.join root ["ansible"] in
   Posix.makedirs ansible_root ;;
   let trusted_root := Posix.join root ["trusted"] in
   Posix.makedirs trusted_root ;;
   let ssh_dir := Posix.join work_root [".ssh"] in
   Posix.mkdir ssh_dir ;;
   let result_data_file := Posix.join work_root ["results.json"] in
   Posix.write_file result_data_file [] ;;
   ret {| keep := keep; root := root; work_root := work_root;
          src_root := src_root; log_root := log_root;
          ansible_root := ansible_root; trusted_root := trusted_root;
          result_data_file := result_data_file;
          known_hosts := Posix.join ssh_dir ["known_hosts"];
          inventory := Posix.join ansible_root ["inventory.yaml"];
          secrets := Posix.join ansible_root ["secrets.yaml"];
          has_secrets := false;
          playbooks := []; playbook := None;
          pre_playbooks := []; post_playbooks := [];
          job_output_file := Posix.join log_root ["job-output.txt"];
          trusted_projects := []; trusted_project_index := ∅ |})%py.

Definition set_playbooks (l : list JobDirPlaybook.t) (jd : t) : t :=
  {| keep := keep jd; root := root jd; work_root := work_root jd;
     src_root := src_root jd; log_root := log_root jd;
     ansible_root := ansible_root jd; trusted_root := trusted_root jd;
     result_data_file := result_data_file jd; known_hosts := known_hosts jd;
     inventory := inventory jd; secrets := secrets jd;
     has_secrets := has_secrets jd;
     playbooks := l; playbook := playbook jd;
     pre_playbooks := pre_playbooks jd; post_playbooks := post_playbooks jd;
     job_output_file := job_output_file jd;
     trusted_projects := trusted_projects jd;
     trusted_project_index := trusted_project_index jd |}.

Definition set_pre_playbooks (l : list JobDirPlaybook.t) (jd : t) : t :=
  {| keep := keep jd; root := root jd; work_root := work_root jd;
     src_root := src_root jd; log_root := log_root jd;
     ansible_root := ansible_root jd; trusted_root := trusted_root jd;
     result_data_file := result_data_file jd; known_hosts := known_hosts jd;
     inventory := inventory jd; secrets := secrets jd;
     has_secrets := has_secrets jd;
     playbooks := playbooks jd; playbook := playbook jd;
     pre_playbooks := l; post_playbooks := post_playbooks jd;
     job_output_file := job_output_file jd;
     trusted_projects := trusted_projects jd;
     trusted_project_index := trusted_project_index jd |}.

Definition set_post_playbooks (l : list JobDirPlaybook.t) (jd : t) : t :=
  {| keep := keep jd; root := root jd; work_root := work_root jd;
     src_root := src_root jd; log_root := log_root jd;
     ansible_root := ansible_root jd; trusted_root := trusted_root jd;
     result_data_file := result_data_file jd; known_hosts := known_hosts jd;
     inventory := inventory jd; secrets := secrets jd;
     has_secrets := has_secrets jd;
     playbooks := playbooks jd; playbook := playbook jd;
     pre_playbooks := pre_playbooks jd; post_playbooks := l;
     job_output_file := job_output_file jd;
     trusted_projects := trusted_projects jd;
     trusted_project_index := trusted_project_index jd |}.

Definition set_playbook (p : option nat) (jd : t) : t :=
  {| keep := keep jd; root := root jd; work_root := work_root jd;
     src_root := src_root jd; log_root := log_root jd;
     ansible_root := ansible_root jd; trusted_root := trusted_root jd;
     result_data_file := result_data_file jd; known_hosts := known_hosts jd;
     inventory := inventory jd; secrets := secrets jd;
     has_secrets := has_secrets jd;
     playbooks := playbooks jd; playbook := p;
     pre_playbooks := pre_playbooks jd; post_playbooks := post_playbooks jd;
     job_output_file := job_output_file jd;
     trusted_projects := trusted_projects jd;
     trusted_project_index := trusted_project_index jd |}.

Definition set_has_secrets (b : bool) (jd : t) : t :=
  {| keep := keep jd; root := root jd; work_root := work_root jd;
     src_root := src_root jd; log_root := log_root jd;
     ansible_root := ansible_root jd; trusted_root := trusted_root jd;
     result_data_file := result_data_file jd; known_hosts := known_hosts jd;
     inventory := inventory jd; secrets := secrets jd;
     has_secrets := b;
     playbooks := playbooks jd; playbook := playbook jd;
     pre_playbooks := pre_playbooks jd; post_playbooks := post_playbooks jd;
     job_output_file := job_output_file jd;
     trusted_projects := trusted_projects jd;
     trusted_project_index := trusted_project_index jd |}.

Definition add_trusted (root' : string) (key : string * option string)
    (jd : t) : t :=
  {| keep := keep jd; root := root jd; work_root := work_root jd;
     src_root := src_root jd; log_root := log_root jd;
     ansible_root := ansible_root jd; trusted_root := trusted_root jd;
     result_data_file := result_data_file jd; known_hosts := known_hosts jd;
     inventory := inventory jd; secrets := secrets jd;
     has_secrets := has_secrets jd;
     playbooks := playbooks jd; playbook := playbook jd;
     pre_playbooks := pre_playbooks jd; post_playbooks := post_playbooks jd;
     job_output_file := job_output_file jd;
     trusted_projects := trusted_projects jd ++ [root'];
     trusted_project_index := <[ key := root' ]> (trusted_project_index jd) |}.

(** The object [self.jobdir.playbook] points at. *)
Definition selected (jd : t) : option JobDirPlaybook.t :=
  i ← playbook jd; playbooks jd !! i.

End JobDir.

(** * The repository update coordinator *)

Module RepoSync.

(** [UpdateTask.__init__] allocates a [threading.Event]; the model names
    the event by a number, which is also the identity of the task object. *)
Record UpdateTask : Type := mkUpdateTask {
  event : nat;
  connection_name : string;
  project_name : string
}.

Global Instance UpdateTask_eq_dec : EqDecision UpdateTask.
Proof. solve_decision. Defined.

(** [UpdateTask.__eq__(self, other)]: [other] may be [None], which is
    falsy. *)
Definition UpdateTask_eq (self : UpdateTask) (other : option UpdateTask) : bool :=
  match other with
  | Some o =>
      bool_decide (connection_name o = connection_name self)
      && bool_decide (project_name o = project_name self)
  | None => false
  end.

(** [item == x] as Python evaluates it for the values the queue holds: a
    task on the left calls [__eq__]; [None] on the left falls back to the
    reflected [x.__eq__(None)], which is [False], and [None == None] holds. *)
Definition py_eq (item x : option UpdateTask) : bool :=
  match item with
  | Some t => UpdateTask_eq t x
  | None => match x with None => true | Some o => UpdateTask_eq o None end
  end.

(** [DeduplicateQueue]: the deque and the number of [condition.notify()]
    calls made so far. *)
Record DeduplicateQueue : Type := mkQueue {
  queue : list (option UpdateTask);
  notified : nat
}.

Definition DeduplicateQueue_init : DeduplicateQueue :=
  {| queue := []; notified := 0 |}.

Definition qsize (q : DeduplicateQueue) : nat := length (queue q).

(** The [for x in self.queue] scan of [put]: [ret] keeps the last match. *)
Definition scan (item : option UpdateTask) (l : list (option UpdateTask))
    (ret : option UpdateTask) : option UpdateTask :=
  fold_left (fun ret x => if py_eq item x then x else ret) l ret.

Definition put (item : option UpdateTask) (q : DeduplicateQueue)
    : option UpdateTask * DeduplicateQueue :=
  match scan item (queue q) None with
  | Some x => (Some x, q)
  | None => (item, {| queue := queue q ++ [item]; notified := S (notified q) |})
  end.

(** [get]: [None] when the deque is empty and the caller blocks in
    [condition.wait()]. *)
Definition get (q : DeduplicateQueue)
    : option (option UpdateTask * DeduplicateQueue) :=
  match queue q with
  | [] => None
  | x :: rest => Some (x, {| queue := rest; notified := notified q |})
  end.

(** The part of [ExecutorServer] the update thread touches. [events] holds
    the events that are set, [next_event] the next fresh event. *)
Record Server : Type := mkServer {
  update_queue : DeduplicateQueue;
  _running : bool;
  events : gset nat;
  next_event : nat;
  log : list string
}.

Definition setComplete (t : UpdateTask) (s : Server) : Server :=
  {| update_queue := update_queue s; _running := _running s;
     events := {[ event t ]} ∪ events s;
     next_event := next_event s; log := log s |}.

(** [UpdateTask.wait] returns exactly when the event is set. *)
Definition wait_returns (t : UpdateTask) (s : Server) : Prop :=
  event t ∈ events s.

Global Instance wait_returns_dec t s : Decision (wait_returns t s).
Proof. unfold wait_returns. apply _. Defined.

Definition with_queue (q : DeduplicateQueue) (s : Server) : Server :=
  {| update_queue := q; _running := _running s; events := events s;
     next_event := next_event s; log := log s |}.

Definition add_log (msg : string) (s : Server) : Server :=
  {| update_queue := update_queue s; _running := _running s;
     events := events s; next_event := next_event s;
     log := log s ++ [msg] |}.

(** [ExecutorServer.update]: a new task, then [put]. *)
Definition update (connection project : string) (s : Server)
    : option UpdateTask * Server :=
  let task := {| event := next_event s; connection_name := connection;
                 project_name := project |} in
  let s1 := {| update_queue := update_queue s; _running := _running s;
               events := events s; next_event := S (next_event s);
               log := log s |} in
  let '(ret, q) := put (Some task) (update_queue s1) in
  (ret, with_queue q s1).

(** [ExecutorServer.stop], as far as the update thread sees it. *)
Definition stop (s : Server) : Server :=
  let s1 := {| update_queue := update_queue s; _running := false;
               events := events s; next_event := next_event s;
               log := log s |} in
  with_queue (snd (put None (update_queue s1))) s1.

(** Two tasks have the same (connection name, project name) key. *)
Definition same_key (x y : UpdateTask) : Prop :=
  connection_name x = connection_name y ∧ project_name x = project_name y.

Section UpdateLoop.

(** The merge engine is an external collaborator: [updateRepo] acts on a
    world [W] of its own and either returns or raises. *)
Context {W : Type}.
Variable updateRepo : string → string → W → option exn * W.

(** One call of [_innerUpdateLoop]. The outer [None] is the blocked
    [get]; [inl e] is an exception leaving the function. *)
Definition _innerUpdateLoop (s : Server) (w : W)
    : option ((exn + unit) * Server * W) :=
  match get (update_queue s) with
  | None => None
  | Some (None, q) => Some (inr tt, with_queue q s, w)
  | Some (Some task, q) =>
      let s1 := add_log "Updating repo" (with_queue q s) in
      match updateRepo (connection_name task) (project_name task) w with
      | (Some e, w') => Some (inl e, s1, w')
      | (None, w') =>
          let s2 := add_log "Finished updating repo" s1 in
          Some (inr tt, setComplete task s2, w')
      end
  end.

Inductive loop_end : Type := Stopped | Blocked | OutOfFuel.

(** [_updateLoop]: [while self._running], with the bare [except] that
    logs and goes on. *)
Fixpoint _updateLoop (fuel : nat) (s : Server) (w : W)
    : loop_end * Server * W :=
  match fuel with
  | O => (OutOfFuel, s, w)
  | S fuel' =>
      if _running s then
        match _innerUpdateLoop s w with
        | None => (Blocked, s, w)
        | Some (inr _, s', w') => _updateLoop fuel' s' w'
        | Some (inl _, s', w') =>
            _updateLoop fuel' (add_log "Exception in update thread:" s') w'
        end
      else (Stopped, s, w)
  end.

End UpdateLoop.

(** No two pending tasks of the deque have the same key. *)
Definition distinct_keys (l : list (option UpdateTask)) : Prop :=
  ∀ i j x y, l !! i = Some (Some x) → l !! j = Some (Some y) →
             same_key x y → i = j.

(** What the producers and the consumer do to the queue; a [get] on the
    empty deque blocks and leaves it as it is. *)
Inductive op : Type := Put (item : option UpdateTask) | Get.

Definition apply_op (q : DeduplicateQueue) (o : op) : DeduplicateQueue :=
  match o with
  | Put item => (put item q).2
  | Get => match get q with Some (_, q') => q' | None => q end
  end.

(** The events of the tasks pending in a deque. *)
Definition pending_events (l : list (option UpdateTask)) : gset nat :=
  list_to_set (omap (fmap event) l).

End RepoSync.

(** * Branch selection *)

Module Branches.

(** What the executor sees of a repository: its branches and the local
    branch that is checked out. *)
Record Repo : Type := mkRepo {
  getBranches : list string;
  head : option string
}.

Definition checkoutLocalBranch (b : string) (repo : Repo) : Repo :=
  {| getBranches := getBranches repo; head := Some b |}.

(** [x in branches] for [x] that is [None] or a string: the branch it
    names when the test holds. *)
Definition among (x : option string) (branches : list string) : option string :=
  match x with
  | Some b => if bool_decide (b ∈ branches) then Some b else None
  | None => None
  end.

(** [AnsibleJob.checkoutBranch]. The result carries the [log.info] line. *)
Definition checkoutBranch (repo : Repo) (project_name : string)
    (zuul_branch job_branch project_override_branch
       project_default_branch : option string)
    : exn + (Repo * string) :=
  let branches := getBranches repo in
  match among project_override_branch branches with
  | Some b =>
      inr (checkoutLocalBranch b repo,
           "Checking out " +:+ project_name +:+ " project override branch " +:+ b)
  | None =>
  match among job_branch branches with
  | Some b =>
      inr (checkoutLocalBranch b repo,
           "Checking out " +:+ project_name +:+ " job branch " +:+ b)
  | None =>
  match (if truthy zuul_branch then among zuul_branch branches else None) with
  | Some b =>
      inr (checkoutLocalBranch b repo,
           "Checking out " +:+ project_name +:+ " zuul branch " +:+ b)
  | None =>
  match among project_default_branch branches with
  | Some b =>
      inr (checkoutLocalBranch b repo,
           "Checking out " +:+ project_name +:+ " project default branch " +:+ b)
  | None =>
      inl (ExecutorError ("Project " +:+ project_name +:+
                          " does not have the default branch " +:+
                          py_str project_default_branch))
  end end end end.

(** The priority order the four candidates are looked at in. *)
Definition candidates (zuul_branch job_branch project_override_branch
    project_default_branch : option string) : list (option string) :=
  [project_override_branch; job_branch; zuul_branch; project_default_branch].

(** The first candidate, in the given order, that names an existing
    branch. *)
Fixpoint first_existing (cands : list (option string)) (branches : list string)
    : option string :=
  match cands with
  | [] => None
  | c :: rest =>
      match among c branches with
      | Some b => Some b
      | None => first_existing rest branches
      end
  end.

End Branches.

(** * Running playbooks *)

Module Phases.

Definition RESULT_NORMAL : Z := 1.
Definition RESULT_TIMED_OUT : Z := 2.
Definition RESULT_UNREACHABLE : Z := 3.
Definition RESULT_ABORTED : Z := 4.

Definition RESULT_MAP (r : Z) : option string :=
  if bool_decide (r = RESULT_NORMAL) then Some "RESULT_NORMAL"
  else if bool_decide (r = RESULT_TIMED_OUT) then Some "RESULT_TIMED_OUT"
  else if bool_decide (r = RESULT_UNREACHABLE) then Some "RESULT_UNREACHABLE"
  else if bool_decide (r = RESULT_ABORTED) then Some "RESULT_ABORTED"
  else None.

Definition BUFFER_LINES_FOR_SYNTAX : nat := 200.

(** The arguments of one [runAnsible] call. An element of [cmd] is [None]
    when the playbook has no path. *)
Record Invocation : Type := mkInvocation {
  cmd : list (option string);
  timeout : option Z;
  config_file : string;
  inv_trusted : option bool
}.

(** What a launched subprocess does: the lines it prints, the status
    [proc.wait()] returns, and [watchdog.timed_out] as it reads after the
    wait ([None] while the watchdog thread has not yet noticed the stop). *)
Record Proc : Type := mkProc {
  stdout : list string;
  returncode : Z;
  timed_out : option bool
}.

(** One finished [runAnsiblePlaybook] call. *)
Record Event : Type := mkEvent {
  ev_playbook : JobDirPlaybook.t;
  ev_success : option bool;
  ev_phase : option string;
  ev_index : option nat;
  ev_result : Z * option Z
}.

(** [if timeout:] for a timeout that is [None] or a number. *)
Definition timeout_set (t : option Z) : bool :=
  match t with
  | Some z => negb (bool_decide (z = 0%Z))
  | None => false
  end.

(** Truthiness of [watchdog.timed_out], which is [None], [True] or
    [False]. *)
Definition flag_set (b : option bool) : bool := default false b.

Section Run.

(** The surroundings of the job: [is_aborted] reads [self.aborted], which
    [stop] sets from another thread; [popen] launches the subprocess and
    runs it to its end; [now] reads the clock. *)
Context {W : Type}.
Variable is_aborted : W → bool.
Variable popen : Invocation → W → Proc * W.
Variable now : W → string * W.

(** [executor_server.verbose] and [self.jobdir]. *)
Variable verbose : bool.
Variable jobdir : JobDir.t.

Record Run : Type := mkRun {
  world : W;
  launched : list Invocation;
  calls : list Event;
  job_output : list string
}.

Definition write_job_output (text : string) : M Run unit := λ st,
  let '(stamp, w) := now (world st) in
  (inr tt, {| world := w; launched := launched st; calls := calls st;
              job_output := job_output st ++ [stamp +:+ " | " +:+ text] |}).

(** The subprocess is launched and runs until its output ends. *)
Definition launch (inv : Invocation) : M Run Proc := λ st,
  let '(proc, w) := popen inv (world st) in
  (inr proc, {| world := w; launched := launched st ++ [inv];
                calls := calls st; job_output := job_output st |}).

(** [AnsibleJob.runAnsible]. The [TypeError] is [shlex.quote] of a
    [None] in the debug line that precedes [popen]. *)
Definition runAnsible (cmd : list (option string)) (timeout : option Z)
    (config_file : string) (trusted : option bool)
    : M Run (Z * option Z) :=
  (aborted <- gets (λ st, is_aborted (world st)) ;;
   if aborted : bool then ret (RESULT_ABORTED, None)
   else if negb (forallb (λ c : option string, bool_decide (is_Some c)) cmd)
   then raise (Exception "TypeError")
   else
     proc <- launch {| cmd := cmd; timeout := timeout;
                       config_file := config_file;
                       inv_trusted := trusted |} ;;
     let syntax_buffer := take BUFFER_LINES_FOR_SYNTAX (stdout proc) in
     let ret_ := returncode proc in
     if timeout_set timeout && flag_set (timed_out proc)
     then ret (RESULT_TIMED_OUT, None)
     else if bool_decide (ret_ = 3%Z) then ret (RESULT_UNREACHABLE, None)
     else if bool_decide (ret_ = (-9)%Z) then ret (RESULT_ABORTED, None)
     else if bool_decide (ret_ = 4%Z) then
       write_job_output "ANSIBLE PARSE ERROR" ;;
       for_each syntax_buffer write_job_output ;;
       ret (RESULT_NORMAL, Some ret_)
     else ret (RESULT_NORMAL, Some ret_))%py.

Definition str_bool (b : bool) : string := if b then "True" else "False".

(** [AnsibleJob.runAnsiblePlaybook]; [playbook] is [None] when the caller
    passes [self.jobdir.playbook] and no playbook was chosen. *)
Definition runAnsiblePlaybook (playbook : option JobDirPlaybook.t)
    (timeout : option Z) (success : option bool) (phase : option string)
    (index : option nat) : M Run (Z * option Z) :=
  match playbook with
  | None => raise (Exception "AttributeError")
  | Some pb =>
      let verbose_ := if verbose then "-vvv" else "-v" in
      let cmd := [Some "ansible-playbook"; Some verbose_;
                  JobDirPlaybook.path pb] in
      let cmd := if JobDir.has_secrets jobdir
                 then cmd ++ [Some "-e"; Some ("@" +:+ JobDir.secrets jobdir)]
                 else cmd in
      let cmd := match success with
                 | Some b => cmd ++ [Some "-e"; Some ("success=" +:+ str_bool b)]
                 | None => cmd
                 end in
      let cmd := if truthy phase
                 then cmd ++ [Some "-e";
                              Some ("zuul_execution_phase=" +:+ py_str phase)]
                 else cmd in
      let cmd := match index with
                 | Some i =>
                     cmd ++ [Some "-e";
                             Some ("zuul_execution_phase_index=" +:+ pretty i)]
                 | None => cmd
                 end in
      (rc <- runAnsible cmd timeout (JobDirPlaybook.ansible_config pb)
               (JobDirPlaybook.trusted pb) ;;
       match RESULT_MAP (fst rc) with
       | None => raise (Exception "KeyError")
       | Some _ =>
           modify (λ st, {| world := world st; launched := launched st;
                            calls := calls st ++
                              [{| ev_playbook := pb; ev_success := success;
                                  ev_phase := phase; ev_index := index;
                                  ev_result := rc |}];
                            job_output := job_output st |}) ;;
           ret rc
       end)%py
  end.

(** A playbook failed: [status != RESULT_NORMAL or code != 0]. *)
Definition failed (rc : Z * option Z) : bool :=
  negb (bool_decide (fst rc = RESULT_NORMAL))
  || negb (bool_decide (snd rc = Some 0%Z)).

(** The pre loop of [runPlaybooks], from [index] on: [pre_failed]. *)
Fixpoint run_pre (timeout : option Z) (index : nat)
    (pbs : list JobDirPlaybook.t) : M Run bool :=
  match pbs with
  | [] => ret false
  | playbook :: rest =>
      (rc <- runAnsiblePlaybook (Some playbook) timeout None
               (Some "pre") (Some index) ;;
       if failed rc then ret true
       else run_pre timeout (S index) rest)%py
  end.

(** The post loop, from [index] on, with the [result] so far. *)
Fixpoint run_post (timeout : option Z) (success pre_failed : bool)
    (index : nat) (pbs : list JobDirPlaybook.t) (result : option string)
    : M Run (option string) :=
  match pbs with
  | [] => ret result
  | playbook :: rest =>
      (rc <- runAnsiblePlaybook (Some playbook) timeout (Some success)
               (Some "post") (Some index) ;;
       let result := if failed rc && negb pre_failed
                     then Some "POST_FAILURE" else result in
       run_post timeout success pre_failed (S index) rest result)%py
  end.

(** [AnsibleJob.runPlaybooks]; [timeout] is [args['timeout']]. *)
Definition runPlaybooks (timeout : option Z) : M Run (option string) :=
  (let result : option string := None in
   pre_failed <- run_pre timeout 0 (JobDir.pre_playbooks jobdir) ;;
   if pre_failed : bool then
     run_post timeout false pre_failed 0 (JobDir.post_playbooks jobdir) result
   else
     rc <- runAnsiblePlaybook (JobDir.selected jobdir) timeout None
             (Some "run") None ;;
     let '(job_status, job_code) := rc in
     if bool_decide (job_status = RESULT_TIMED_OUT) then ret (Some "TIMED_OUT")
     else if bool_decide (job_status = RESULT_ABORTED) then ret (Some "ABORTED")
     else if negb (bool_decide (job_status = RESULT_NORMAL)) then ret result
     else
       let success := bool_decide (job_code = Some 0%Z) in
       let result := if success then Some "SUCCESS" else Some "FAILURE" in
       run_post timeout success pre_failed 0
         (JobDir.post_playbooks jobdir) result)%py.

(** The lines [texts] as they reach the job output file, each with the
    clock reading of its write. *)
Fixpoint stamped (texts : list string) (w : W) : list string * W :=
  match texts with
  | [] => ([], w)
  | text :: rest =>
      let '(stamp, w1) := now w in
      let '(out, w2) := stamped rest w1 in
      ((stamp +:+ " | " +:+ text) :: out, w2)
  end.

(** The invocation [runAnsible] launches and the subprocess it gets. *)
Definition invocation (cmd : list (option string)) (timeout : option Z)
    (config_file : string) (trusted : option bool) : Invocation :=
  {| cmd := cmd; timeout := timeout; config_file := config_file;
     inv_trusted := trusted |}.

End Run.

(** A playbook object whose path was resolved. *)
Definition prepared (pb : JobDirPlaybook.t) : Prop :=
  is_Some (JobDirPlaybook.path pb).

(** The events of a pre phase that ran the playbooks [pbs], from [index]
    on, with the results [rcs], and of a post phase. *)
Fixpoint pre_events (index : nat) (pbs : list JobDirPlaybook.t)
    (rcs : list (Z * option Z)) : list Event :=
  match pbs, rcs with
  | pb :: pbs', rc :: rcs' =>
      mkEvent pb None (Some "pre") (Some index) rc :: pre_events (S index) pbs' rcs'
  | _, _ => []
  end.

Fixpoint post_events (success : bool) (index : nat)
    (pbs : list JobDirPlaybook.t) (rcs : list (Z * option Z)) : list Event :=
  match pbs, rcs with
  | pb :: pbs', rc :: rcs' =>
      mkEvent pb (Some success) (Some "post") (Some index) rc
        :: post_events success (S index) pbs' rcs'
  | _, _ => []
  end.

Definition run_event (pb : JobDirPlaybook.t) (rc : Z * option Z) : Event :=
  mkEvent pb None (Some "run") None rc.

(** A job directory as [preparePlaybooks] leaves it: every pre and post
    playbook has its path, and a playbook with a path is chosen. *)
Definition ready (jd : JobDir.t) : Prop :=
  Forall prepared (JobDir.pre_playbooks jd)
  ∧ Forall prepared (JobDir.post_playbooks jd)
  ∧ ∃ pb, JobDir.selected jd = Some pb ∧ prepared pb.

(** The state [runPlaybooks] starts in: nothing launched, nothing
    recorded, an empty job output file. *)
Definition start {W : Type} (w : W) : Run :=
  {| world := w; launched := []; calls := []; job_output := [] |}.

End Phases.

(** * Preparing playbooks and roles *)

Module Staging.

(** The job arguments ([json.loads(self.job.arguments)]) the preparation
    reads. *)
Record Role : Type := mkRole {
  role_type : string;
  role_connection : string;
  role_project : string;
  target_name : string
}.

Record Playbook : Type := mkPlaybook {
  connection : string;
  project : string;
  path : string;
  trusted : bool;
  branch : option string;
  roles : list Role
}.

Record Item : Type := mkItem {
  item_connection : string;
  item_project : string
}.

Record Args : Type := mkArgs {
  pre_playbooks : list Playbook;
  playbooks : list Playbook;
  post_playbooks : list Playbook;
  items : list Item;
  timeout : option Z;
  vars : gmap string string;
  secrets : gmap string string
}.

(** What [source.getProject] answers. *)
Record Project : Type := mkProject {
  canonical_name : string;
  canonical_hostname : string;
  name : string;
  connection_name : string
}.

(** A playbook object of the job directory, by the list it is in. *)
Inductive ref : Type :=
  | Pre (i : nat)
  | Run (i : nat)
  | Post (i : nat).

(** The job: its directory object and the file system. *)
Record Job : Type := mkJob {
  jobdir : JobDir.t;
  fs : Posix.FS
}.

Definition on_fs {A} (m : M Posix.FS A) : M Job A := λ j,
  let '(r, fs') := m (fs j) in (r, {| jobdir := jobdir j; fs := fs' |}).

Definition on_jobdir (f : JobDir.t → JobDir.t) : M Job unit :=
  modify (λ j, {| jobdir := f (jobdir j); fs := fs j |}).

Definition lift_exn {S A} (r : exn + A) : M S A :=
  match r with inr a => ret a | inl e => raise e end.

Definition lookup_ref (r : ref) (jd : JobDir.t) : option JobDirPlaybook.t :=
  match r with
  | Pre i => JobDir.pre_playbooks jd !! i
  | Run i => JobDir.playbooks jd !! i
  | Post i => JobDir.post_playbooks jd !! i
  end.

Definition set_ref (r : ref) (pb : JobDirPlaybook.t) (jd : JobDir.t) : JobDir.t :=
  match r with
  | Pre i => JobDir.set_pre_playbooks (<[i := pb]> (JobDir.pre_playbooks jd)) jd
  | Run i => JobDir.set_playbooks (<[i := pb]> (JobDir.playbooks jd)) jd
  | Post i => JobDir.set_post_playbooks (<[i := pb]> (JobDir.post_playbooks jd)) jd
  end.

Definition get_pb (r : ref) : M Job JobDirPlaybook.t := λ j,
  match lookup_ref r (jobdir j) with
  | Some pb => (inr pb, j)
  | None => (inl (Exception "IndexError"), j)
  end.

Definition set_pb (r : ref) (pb : JobDirPlaybook.t) : M Job unit :=
  on_jobdir (set_ref r pb).

(** [obj.field = value] on the playbook object [r] names. *)
Definition update_pb (r : ref) (f : JobDirPlaybook.t → JobDirPlaybook.t)
    : M Job unit :=
  (pb <- get_pb r ;; set_pb r (f pb))%py.

(** [JobDir.addPrePlaybook], [addPlaybook] and [addPostPlaybook]: the
    index of the new object in its list. *)
Definition addPrePlaybook : M Job nat :=
  (jd <- gets jobdir ;;
   let count := length (JobDir.pre_playbooks jd) in
   let root := Posix.join (JobDir.ansible_root jd) ["pre_playbook_" +:+ pretty count] in
   on_fs (Posix.makedirs root) ;;
   on_jobdir (λ jd, JobDir.set_pre_playbooks
                      (JobDir.pre_playbooks jd ++ [JobDirPlaybook.init root]) jd) ;;
   ret count)%py.

Definition addPostPlaybook : M Job nat :=
  (jd <- gets jobdir ;;
   let count := length (JobDir.post_playbooks jd) in
   let root := Posix.join (JobDir.ansible_root jd) ["post_playbook_" +:+ pretty count] in
   on_fs (Posix.makedirs root) ;;
   on_jobdir (λ jd, JobDir.set_post_playbooks
                      (JobDir.post_playbooks jd ++ [JobDirPlaybook.init root]) jd) ;;
   ret count)%py.

Definition addPlaybook : M Job nat :=
  (jd <- gets jobdir ;;
   let count := length (JobDir.playbooks jd) in
   let root := Posix.join (JobDir.ansible_root jd) ["playbook_" +:+ pretty count] in
   on_fs (Posix.makedirs root) ;;
   on_jobdir (λ jd, JobDir.set_playbooks
                      (JobDir.playbooks jd ++ [JobDirPlaybook.init root]) jd) ;;
   ret count)%py.

(** [JobDir.addTrustedProject]. *)
Definition addTrustedProject (canonical_name : string) (branch : option string)
    : M Job string :=
  (jd <- gets jobdir ;;
   let count := length (JobDir.trusted_projects jd) in
   let root := Posix.join (JobDir.trusted_root jd) ["project_" +:+ pretty count] in
   on_fs (Posix.makedirs root) ;;
   on_jobdir (JobDir.add_trusted root (canonical_name, branch)) ;;
   ret root)%py.

(** [JobDir.getTrustedProject]. *)
Definition getTrustedProject (canonical_name : string) (branch : option string)
    : M Job (option string) :=
  gets (λ j, JobDir.trusted_project_index (jobdir j) !! (canonical_name, branch)).

(** [AnsibleJob._blockPluginDirs]: [os.path.isdir(entry)] is asked of the
    bare name [os.listdir] gave. *)
Definition _blockPluginDirs (path : string) : M Job unit :=
  (entries <- (λ j, lift_exn (Posix.listdir (fs j) path) j) ;;
   for_each entries (λ entry,
     is_dir <- gets (λ j, Posix.isdir (fs j) entry) ;;
     if is_dir && Posix.endswith entry "_plugins"
     then raise (ExecutorError
                   ("Ansible plugin dir " +:+ entry +:+
                    " found adjacent to playbook " +:+ path +:+
                    " in non-trusted repo."))
     else ret tt))%py.

(** The [for ext in ...] loop of [findPlaybook]. *)
Fixpoint findPlaybook_exts (exts : list string) (path : string)
    (required trusted : bool) : M Job (option string) :=
  match exts with
  | [] =>
      if required then raise (ExecutorError ("Unable to find playbook " +:+ path))
      else ret None
  | ext :: rest =>
      let fn := path +:+ ext in
      (found <- gets (λ j, Posix.exists_ (fs j) fn) ;;
       if found : bool then
         (if negb trusted then
            playbook_dir <- gets (λ j, Posix.dirname (Posix.abspath (fs j) fn)) ;;
            _blockPluginDirs playbook_dir
          else ret tt) ;;
         ret (Some fn)
       else findPlaybook_exts rest path required trusted)%py
  end.

(** [AnsibleJob.findPlaybook]. *)
Definition findPlaybook (path : string) (required trusted : bool)
    : M Job (option string) :=
  findPlaybook_exts [".yaml"; ".yml"] path required trusted.

(** [AnsibleJob.findRole]; [trusted] is [jobdir_playbook.trusted]. *)
Definition findRole (path : string) (trusted : option bool)
    : M Job (option string) :=
  (let d := Posix.join path ["tasks"] in
   is_dir <- gets (λ j, Posix.isdir (fs j) d) ;;
   if is_dir : bool then
     (if negb (default false trusted) then _blockPluginDirs path else ret tt) ;;
     ret None
   else
     let d := Posix.join path ["roles"] in
     is_dir <- gets (λ j, Posix.isdir (fs j) d) ;;
     if is_dir : bool then
       (if negb (default false trusted) then
          entries <- (λ j, lift_exn (Posix.listdir (fs j) d) j) ;;
          for_each entries (λ entry,
            sub <- gets (λ j, Posix.isdir (fs j) (Posix.join d [entry])) ;;
            if sub : bool then _blockPluginDirs (Posix.join d [entry])
            else ret tt)
        else ret tt) ;;
       ret (Some d)
     else raise (ExecutorError ("Unable to find role in " +:+ path)))%py.

(** The first item of [args['items']] for the given connection and
    project: the [for i in args['items'] ... break] scans. *)
Definition in_items (items : list Item) (connection project : string) : bool :=
  existsb (λ i, bool_decide (item_connection i = connection)
                && bool_decide (item_project i = project)) items.

Section Prepare.

(** The collaborators: the connection registry and the merger, which
    checks a branch of a project out under a root. *)
Variable getProject : string → string → Project.
Variable merger_checkoutBranch :
  string → string → string → option string → M Posix.FS unit.

(** The plugin directories of [ExecutorServer]. *)
Variable library_dir action_dir callback_dir lookup_dir : string.

(** [AnsibleJob.checkoutTrustedProject]. *)
Definition checkoutTrustedProject (project : Project) (branch : option string)
    : M Job string :=
  (found <- getTrustedProject (canonical_name project) branch ;;
   root <- (if truthy found then ret (default "" found)
            else
              root <- addTrustedProject (canonical_name project) branch ;;
              on_fs (merger_checkoutBranch root (connection_name project)
                       (name project) branch) ;;
              ret root) ;;
   ret (Posix.join root [canonical_hostname project; name project]))%py.

(** [AnsibleJob.prepareZuulRole]. *)
Definition prepareZuulRole (jobdir_playbook : ref) (role : Role)
    (args : Args) (root : string) : M Job unit :=
  (let project := getProject (role_connection role) (role_project role) in
   let name_ := target_name role in
   pb <- get_pb jobdir_playbook ;;
   src_root <- gets (λ j, JobDir.src_root (jobdir j)) ;;
   let path : option string :=
     if negb (default false (JobDirPlaybook.trusted pb))
        && in_items (items args) (role_connection role) (role_project role)
     then Some (Posix.join src_root [canonical_hostname project; name project])
     else None in
   path <- (if truthy path then ret (default "" path)
            else checkoutTrustedProject project (Some "master")) ;;
   let link := Posix.join root [name_] in
   link <- gets (λ j, Posix.realpath (fs j) link) ;;
   real_root <- gets (λ j, Posix.realpath (fs j) root) ;;
   if negb (Posix.startswith link real_root)
   then raise (ExecutorError "Invalid role name %s")
   else
     on_fs (Posix.symlink path link) ;;
     role_path <- findRole link (JobDirPlaybook.trusted pb) ;;
     let role_path := default root role_path in
     update_pb jobdir_playbook (JobDirPlaybook.append_roles_path role_path))%py.

(** [AnsibleJob.prepareRole]. *)
Definition prepareRole (jobdir_playbook : ref) (role : Role) (args : Args)
    : M Job unit :=
  (if bool_decide (role_type role = "zuul") then
     pb <- get_pb jobdir_playbook ;;
     rp <- on_fs (JobDirPlaybook.addRole pb) ;;
     set_pb jobdir_playbook (snd rp) ;;
     prepareZuulRole jobdir_playbook role args (fst rp)
   else ret tt)%py.

(** [AnsibleJob.writeAnsibleConfig]. *)
Definition writeAnsibleConfig (jobdir_playbook : ref) : M Job unit :=
  (pb <- get_pb jobdir_playbook ;;
   jd <- gets jobdir ;;
   let trusted := default false (JobDirPlaybook.trusted pb) in
   on_fs (Posix.write_file (JobDirPlaybook.ansible_config pb)
     (["[defaults]";
       "hostfile = " +:+ JobDir.inventory jd;
       "local_tmp = " +:+ JobDir.root jd +:+ "/.ansible/local_tmp";
       "remote_tmp = " +:+ JobDir.root jd +:+ "/.ansible/remote_tmp";
       "retry_files_enabled = False";
       "gathering = explicit";
       "library = " +:+ library_dir;
       "command_warnings = False";
       "callback_plugins = " +:+ callback_dir;
       "stdout_callback = zuul_stream";
       "callback_whitelist = zuul_json";
       "timeout = 30"]
      ++ (if negb trusted
          then ["action_plugins = " +:+ action_dir;
                "lookup_plugins = " +:+ lookup_dir]
          else [])
      ++ (match JobDirPlaybook.roles_path pb with
          | [] => []
          | rp => ["roles_path = " +:+ String.concat ":" rp]
          end)
      ++ ["display_args_to_stdout = " +:+ Phases.str_bool (negb trusted);
          "[ssh_connection]";
          "pipelining = True";
          "ssh_args = -o ControlMaster=auto -o ControlPersist=60s " +:+
            "-o UserKnownHostsFile=" +:+ JobDir.known_hosts jd])))%py.

(** The part of [preparePlaybook] that finds where the playbook's
    repository is and appends the requested sub-path. *)
Definition playbook_location (playbook : Playbook) (args : Args)
    : M Job string :=
  (let proj := getProject (connection playbook) (project playbook) in
   src_root <- gets (λ j, JobDir.src_root (jobdir j)) ;;
   let found : option string :=
     if negb (trusted playbook)
        && in_items (items args) (connection playbook) (project playbook)
     then Some (Posix.join src_root
                  [canonical_hostname proj; name proj; path playbook])
     else None in
   if truthy found then ret (default "" found)
   else
     root <- checkoutTrustedProject proj (branch playbook) ;;
     ret (Posix.join root [path playbook]))%py.

(** [AnsibleJob.preparePlaybook], in its three steps. First the origin
    of the playbook is recorded and the place to look for it is found. *)
Definition locate (jobdir_playbook : ref) (playbook : Playbook) (args : Args)
    : M Job string :=
  (let proj := getProject (connection playbook) (project playbook) in
   update_pb jobdir_playbook
     (JobDirPlaybook.set_origin (trusted playbook) (branch playbook)
        (Posix.join (canonical_name proj) [path playbook])) ;;
   playbook_location playbook args)%py.

(** Last, the path found is recorded and, when there is one, the roles
    are prepared and the configuration is written. *)
Definition stage (jobdir_playbook : ref) (playbook : Playbook) (args : Args)
    (found : option string) : M Job unit :=
  (update_pb jobdir_playbook (JobDirPlaybook.set_path found) ;;
   if negb (truthy found) then ret tt
   else
     for_each (roles playbook) (λ role, prepareRole jobdir_playbook role args) ;;
     writeAnsibleConfig jobdir_playbook)%py.

Definition preparePlaybook (jobdir_playbook : ref) (playbook : Playbook)
    (args : Args) (required : bool) : M Job unit :=
  (path_ <- locate jobdir_playbook playbook args ;;
   found <- findPlaybook path_ required (trusted playbook) ;;
   stage jobdir_playbook playbook args found)%py.

(** The candidate loop of [preparePlaybooks], with its [break]. *)
Fixpoint prepare_candidates (cands : list Playbook) (args : Args)
    : M Job unit :=
  match cands with
  | [] => ret tt
  | playbook :: rest =>
      (i <- addPlaybook ;;
       preparePlaybook (Run i) playbook args false ;;
       pb <- get_pb (Run i) ;;
       if bool_decide (is_Some (JobDirPlaybook.path pb))
       then on_jobdir (JobDir.set_playbook (Some i))
       else prepare_candidates rest args)%py
  end.

(** The loops over the pre and the post playbooks. *)
Definition prepare_pre (args : Args) : M Job unit :=
  for_each (pre_playbooks args) (λ playbook,
    i <- addPrePlaybook ;;
    preparePlaybook (Pre i) playbook args true)%py.

Definition prepare_post (args : Args) : M Job unit :=
  for_each (post_playbooks args) (λ playbook,
    i <- addPostPlaybook ;;
    preparePlaybook (Post i) playbook args true)%py.

(** [AnsibleJob.preparePlaybooks]. *)
Definition preparePlaybooks (args : Args) : M Job unit :=
  (prepare_pre args ;;
   prepare_candidates (playbooks args) args ;;
   chosen <- gets (λ j, JobDir.playbook (jobdir j)) ;;
   (if bool_decide (chosen = None)
    then raise (ExecutorError "No valid playbook found") else ret tt) ;;
   prepare_post args)%py.

(** One round of the candidate loop, as the loop sees it: a slot is
    added, the candidate is prepared, and the path left in the slot says
    whether the candidate resolved. *)
Definition attempt (playbook : Playbook) (args : Args)
    : M Job (nat * option string) :=
  (i <- addPlaybook ;;
   preparePlaybook (Run i) playbook args false ;;
   pb <- get_pb (Run i) ;;
   ret (i, JobDirPlaybook.path pb))%py.

(** The state in which the file of a candidate is looked for, and the
    place it is looked for at. *)
Definition seek (playbook : Playbook) (args : Args) : M Job (nat * string) :=
  (i <- addPlaybook ;;
   path_ <- locate (Run i) playbook args ;;
   ret (i, path_))%py.

(** The same for a pre playbook, and one round of the pre loop. *)
Definition seek_pre (playbook : Playbook) (args : Args) : M Job (nat * string) :=
  (i <- addPrePlaybook ;;
   path_ <- locate (Pre i) playbook args ;;
   ret (i, path_))%py.

Definition pre_round (args : Args) (playbook : Playbook) : M Job unit :=
  (i <- addPrePlaybook ;;
   preparePlaybook (Pre i) playbook args true)%py.

(** Each of the candidates was tried, in order, and none resolved. *)
Inductive misses (args : Args) : list Playbook → Job → Job → Prop :=
  | misses_nil j : misses args [] j j
  | misses_cons c cs i j j1 j2 :
      attempt c args j = (inr (i, None), j1) →
      misses args cs j1 j2 →
      misses args (c :: cs) j j2.

End Prepare.

(** ** Invariants of the preparation *)

(** [m] takes states that satisfy [P] to results and states that satisfy
    [Q], when it returns. *)
Definition hoare {A} (P : Job → Prop) (m : M Job A) (Q : A → Job → Prop) : Prop :=
  ∀ j a j', P j → m j = (inr a, j') → Q a j'.

(** [m] reads the state and leaves it as it is. *)
Definition readonly {A} (m : M Job A) : Prop :=
  ∀ j r j', m j = (r, j') → j' = j.

(** The playbook object [r] names has the path [p]. *)
Definition slot_path (r : ref) (p : option string) (j : Job) : Prop :=
  ∃ pb, lookup_ref r (jobdir j) = Some pb ∧ JobDirPlaybook.path pb = p.

(** [P] does not look at the file system, at the trusted projects, or at
    the fields of the object [r] other than its path. *)
Record frame (r : ref) (P : Job → Prop) : Prop := mkFrame {
  frame_fs : ∀ j fs', P j → P (mkJob (jobdir j) fs');
  frame_trusted : ∀ j root key,
    P j → P (mkJob (JobDir.add_trusted root key (jobdir j)) (fs j));
  frame_set : ∀ j pb pb',
    P j → lookup_ref r (jobdir j) = Some pb →
    JobDirPlaybook.path pb' = JobDirPlaybook.path pb →
    P (mkJob (set_ref r pb' (jobdir j)) (fs j))
}.

(** [P] does not look at the object [r] at all. *)
Record free (r : ref) (P : Job → Prop) : Prop := mkFree {
  free_fs : ∀ j fs', P j → P (mkJob (jobdir j) fs');
  free_trusted : ∀ j root key,
    P j → P (mkJob (JobDir.add_trusted root key (jobdir j)) (fs j));
  free_set : ∀ j pb', P j → P (mkJob (set_ref r pb' (jobdir j)) (fs j))
}.

(** The job after [self.jobdir.playbook = jobdir_playbook] for the
    object at index [i]. *)
Definition choose (i : nat) (j : Job) : Job :=
  mkJob (JobDir.set_playbook (Some i) (jobdir j)) (fs j).

(** The numbers of playbook objects of each kind, and the index of the
    chosen one. *)
Definition shape (n_pre n_run n_post : nat) (chosen : option nat) (j : Job)
    : Prop :=
  length (JobDir.pre_playbooks (jobdir j)) = n_pre
  ∧ length (JobDir.playbooks (jobdir j)) = n_run
  ∧ length (JobDir.post_playbooks (jobdir j)) = n_post
  ∧ JobDir.playbook (jobdir j) = chosen.

(** The playbook lists as [JobDir.__init__] leaves them. *)
Definition fresh (jd : JobDir.t) : Prop :=
  JobDir.pre_playbooks jd = [] ∧ JobDir.playbooks jd = []
  ∧ JobDir.post_playbooks jd = [] ∧ JobDir.playbook jd = None.

End Staging.

(** * The job, from the preparation of its playbooks to its result *)

Module Execute.

Definition DEFAULT_FINGER_PORT : nat := 79.

(** What the job sends back over the work queue. [WorkError] is the
    [result='ERROR'] document with its [error_detail]. *)
Inductive Message : Type :=
  | WorkData (worker_name worker_hostname : string) (worker_log_port : nat)
      (url : string)
  | WorkStatus (numerator denominator : nat)
  | WorkComplete (result : option string) (data : list string)
  | WorkError (error_detail : string)
  | WorkException.

(** The messages that end a job: the result, the [ERROR] result and the
    report of an exception. *)
Definition terminal (m : Message) : bool :=
  match m with
  | WorkComplete _ _ | WorkError _ | WorkException => true
  | WorkData _ _ _ _ | WorkStatus _ _ => false
  end.

(** [try: m except e: h e]. *)
Definition try_except {S A} (m : M S A) (h : exn → M S A) : M S A := λ s,
  match m s with
  | (inl e, s') => h e s'
  | r => r
  end.

Section Job.

Context {W : Type}.
Variable is_aborted : W → bool.
Variable popen : Phases.Invocation → W → Phases.Proc * W.
Variable now : W → string * W.
Variable getProject : string → string → Staging.Project.
Variable merger_checkoutBranch :
  string → string → string → option string → M Posix.FS unit.
Variable library_dir action_dir callback_dir lookup_dir : string.

(** [executor_server.verbose], [hostname] and [log_streaming_port], and
    [job.unique]. *)
Variable verbose : bool.
Variable hostname : string.
Variable log_streaming_port : nat.
Variable unique : string.

(** The texts [yaml.safe_dump] gives for the inventory and the secrets,
    and the host key lines of the nodes. *)
Variable dump_inventory : Staging.Args → JobDir.t → list string.
Variable host_keys : Staging.Args → list string.
Variable dump_secrets : Staging.Args → list string.

Record AnsibleJob : Type := mkAnsibleJob {
  job : Staging.Job;
  run : @Phases.Run W;
  sent : list Message
}.

Definition on_job {A} (m : M Staging.Job A) : M AnsibleJob A := λ a,
  let '(r, j') := m (job a) in
  (r, {| job := j'; run := run a; sent := sent a |}).

Definition on_run {A} (m : M (@Phases.Run W) A) : M AnsibleJob A := λ a,
  let '(r, st') := m (run a) in
  (r, {| job := job a; run := st'; sent := sent a |}).

Definition send (m : Message) : M AnsibleJob unit :=
  modify (λ a, {| job := job a; run := run a; sent := sent a ++ [m] |}).

(** [AnsibleJob.prepareAnsibleFiles]. *)
Definition prepareAnsibleFiles (args : Staging.Args) : M Staging.Job unit :=
  (if bool_decide (is_Some (Staging.vars args !! "zuul"))
   then raise (Exception "Defining vars named 'zuul' is not allowed")
   else
     jd <- gets Staging.jobdir ;;
     Staging.on_fs (Posix.write_file (JobDir.inventory jd)
                      (dump_inventory args jd)) ;;
     Staging.on_fs (Posix.write_file (JobDir.known_hosts jd) (host_keys args)) ;;
     if bool_decide (Staging.secrets args = ∅) then ret tt
     else if bool_decide (is_Some (Staging.secrets args !! "zuul"))
     then raise (Exception "Defining secrets named 'zuul' is not allowed")
     else
       Staging.on_fs (Posix.write_file (JobDir.secrets jd) (dump_secrets args)) ;;
       Staging.on_jobdir (JobDir.set_has_secrets true))%py.

(** [AnsibleJob.getResultData]: the text of the result file, or nothing
    when it cannot be read. *)
Definition getResultData : M Staging.Job (list string) :=
  gets (λ j, match Posix.stat (Staging.fs j)
                     (JobDir.result_data_file (Staging.jobdir j)) with
             | Some (Posix.File content) => content
             | _ => []
             end).

(** [AnsibleJob._execute] from [self.preparePlaybooks(args)] on. What
    comes before (repository updates, the merge, the branch checkouts)
    launches no playbook and leaves the playbook lists of the job
    directory as [JobDir.__init__] made them. *)
Definition _execute (args : Staging.Args) : M AnsibleJob unit :=
  (on_job (Staging.preparePlaybooks getProject merger_checkoutBranch
             library_dir action_dir callback_dir lookup_dir args) ;;
   on_job (prepareAnsibleFiles args) ;;
   send (WorkData hostname hostname log_streaming_port
           (if bool_decide (log_streaming_port ≠ DEFAULT_FINGER_PORT)
            then "finger://" +:+ hostname +:+ ":" +:+ pretty log_streaming_port
                 +:+ "/" +:+ unique
            else "finger://" +:+ hostname +:+ "/" +:+ unique)) ;;
   send (WorkStatus 0 100) ;;
   jd <- gets (λ a, Staging.jobdir (job a)) ;;
   result <- on_run (Phases.runPlaybooks is_aborted popen now verbose jd
                       (Staging.timeout args)) ;;
   data <- on_job getResultData ;;
   send (WorkComplete result data))%py.

(** The [try] statement of [AnsibleJob.execute] around [_execute]:
    [ExecutorError] becomes the [ERROR] result, any other exception is
    reported as such. *)
Definition execute (args : Staging.Args) : M AnsibleJob unit :=
  try_except (_execute args)
    (λ e, match e with
          | ExecutorError detail => send (WorkError detail)
          | Exception _ => send WorkException
          end).

(** The job when [_execute] reaches the preparation of the playbooks. *)
Definition initial (j : Staging.Job) (w : W) : AnsibleJob :=
  {| job := j; run := Phases.start w; sent := [] |}.

End Job.

End Execute.

(** * The inventory *)

Module Inventory.

(** A node of [args['nodes']]. What the code reads with [node.get] is
    [None] when the key is missing; a port that is given is a number. *)
Record Node : Type := mkNode {
  node_name : string;
  interface_ip : option string;
  ssh_port : option Z;
  az : option string;
  provider : option string;
  region : option string;
  node_host_keys : option (list string)
}.

(** The [host_vars] of a host, with its [nodepool] dictionary. *)
Record HostVars : Type := mkHostVars {
  ansible_host : option string;
  ansible_user : string;
  ansible_port : Z;
  nodepool_az : option string;
  nodepool_provider : option string;
  nodepool_region : option string
}.

Record Host : Type := mkHost {
  name : string;
  host_vars : HostVars;
  host_keys : list string
}.

(** One line of [known_hosts]: ["[%s]:%s %s" % (ip, port, key)] or
    ["%s %s" % (ip, key)]. *)
Definition host_key_line (ip : option string) (port : Z) (key : string)
    : string :=
  if negb (bool_decide (port = 22%Z))
  then "[" +:+ py_str ip +:+ "]:" +:+ pretty port +:+ " " +:+ key
  else py_str ip +:+ " " +:+ key.

(** The body of the loop of [getHostList]; iterating over the [None]
    that [node.get('host_keys')] gives for a node without keys is a
    [TypeError]. *)
Definition host_of (default_username : string) (node : Node) : exn + Host :=
  let ip := interface_ip node in
  let port := default 22%Z (ssh_port node) in
  let host_vars :=
    {| ansible_host := ip; ansible_user := default_username;
       ansible_port := port; nodepool_az := az node;
       nodepool_provider := provider node;
       nodepool_region := region node |} in
  match node_host_keys node with
  | None => inl (Exception "TypeError")
  | Some keys =>
      let host_keys :=
        fold_left (λ host_keys key, host_keys ++ [host_key_line ip port key])
          keys [] in
      inr {| name := node_name node; host_vars := host_vars;
             host_keys := host_keys |}
  end.

(** [AnsibleJob.getHostList]: the loop, with [hosts] as it grows. *)
Fixpoint getHostList_from (default_username : string) (nodes : list Node)
    (hosts : list Host) : exn + list Host :=
  match nodes with
  | [] => inr hosts
  | node :: rest =>
      match host_of default_username node with
      | inr host => getHostList_from default_username rest (hosts ++ [host])
      | inl e => inl e
      end
  end.

Definition getHostList (default_username : string) (nodes : list Node)
    : exn + list Host :=
  getHostList_from default_username nodes [].

(** A group of [args['groups']]. *)
Record Group : Type := mkGroup {
  group_name : string;
  group_nodes : list string
}.

(** An entry of the inventory: its [hosts], each with its variables
    ([None] in a group), and its [vars], when it has the key. *)
Record Entry (V : Type) : Type := mkEntry {
  hosts : gmap string (option HostVars);
  vars : option V
}.
Arguments mkEntry {V} _ _.
Arguments hosts {V} _.
Arguments vars {V} _.

(** [make_inventory_dict(nodes, groups, all_vars)]. *)
Definition make_inventory_dict {V : Type} (nodes : list Host)
    (groups : list Group) (all_vars : V) : gmap string (Entry V) :=
  let hosts : gmap string HostVars :=
    fold_left (λ hosts node, <[name node := host_vars node]> hosts) nodes ∅ in
  let inventory : gmap string (Entry V) :=
    {[ "all" := {| hosts := Some <$> hosts; vars := Some all_vars |} ]} in
  fold_left
    (λ inventory group,
       let group_hosts : gmap string (option HostVars) :=
         fold_left (λ group_hosts node_name, <[node_name := None]> group_hosts)
           (group_nodes group) ∅ in
       <[group_name group := {| hosts := group_hosts; vars := None |}]> inventory)
    groups inventory.

(** The last node of the list with the given name, and the last group. *)
Definition last_named (n : string) (nodes : list Host) : option Host :=
  last (filter (λ h, name h = n) nodes).

Definition last_group (g : string) (groups : list Group) : option Group :=
  last (filter (λ gr, group_name gr = g) groups).

End Inventory.

(** * The repository updates of a job *)

Module Updates.

(** The repositories of the playbooks and of their roles, as [_execute]
    lists them: each playbook, then its roles. *)
Definition repos (args : Staging.Args) : list (string * string) :=
  fold_left
    (λ repos playbook,
       (repos ++ [(Staging.connection playbook, Staging.project playbook)])
       ++ map (λ role, (Staging.role_connection role, Staging.role_project role))
            (Staging.roles playbook))
    (Staging.pre_playbooks args ++ Staging.playbooks args
     ++ Staging.post_playbooks args) [].

(** What the submission has so far: the tasks to wait for, the keys
    submitted, and the server. *)
Record Submission : Type := mkSubmission {
  tasks : list (option RepoSync.UpdateTask);
  projects : gset (string * string);
  server : RepoSync.Server
}.

(** The loop over [args['projects']], given as (connection, name)
    pairs: every one of them is submitted. *)
Definition submit_projects (projects_arg : list (string * string))
    (st : Submission) : Submission :=
  fold_left
    (λ st project,
       let '(task, s) := RepoSync.update project.1 project.2 (server st) in
       {| tasks := tasks st ++ [task];
          projects := {[ project ]} ∪ projects st;
          server := s |})
    projects_arg st.

(** The loop over the repositories of the playbooks and roles: a key is
    submitted unless it was. *)
Definition submit_repos (repos : list (string * string)) (st : Submission)
    : Submission :=
  fold_left
    (λ st key,
       if bool_decide (key ∈ projects st) then st
       else
         let '(task, s) := RepoSync.update key.1 key.2 (server st) in
         {| tasks := tasks st ++ [task];
            projects := {[ key ]} ∪ projects st;
            server := s |})
    repos st.

(** The submissions of [AnsibleJob._execute], up to the waits. *)
Definition submit_updates (projects_arg : list (string * string))
    (args : Staging.Args) (s : RepoSync.Server) : Submission :=
  submit_repos (repos args)
    (submit_projects projects_arg
       {| tasks := []; projects := ∅; server := s |}).

(** [for task in tasks: task.wait()] returns. *)
Definition waits_return (tasks : list (option RepoSync.UpdateTask))
    (s : RepoSync.Server) : Prop :=
  ∀ task, Some task ∈ tasks → RepoSync.wait_returns task s.

(** What the two loops keep: every key submitted has a task to wait
    for, and every task to wait for is pending. *)
Definition covered (s0 : RepoSync.Server) (st : Submission) : Prop :=
  (∀ key, key ∈ projects st →
     ∃ t, Some t ∈ tasks st
          ∧ RepoSync.connection_name t = key.1
          ∧ RepoSync.project_name t = key.2)
  ∧ (∀ x, x ∈ tasks st →
       ∃ t, x = Some t ∧ Some t ∈ RepoSync.queue (RepoSync.update_queue (server st)))
  ∧ RepoSync.queue (RepoSync.update_queue s0) `prefix_of` RepoSync.queue (RepoSync.update_queue (server st))
  ∧ RepoSync._running (server st) = RepoSync._running s0
  ∧ RepoSync.events (server st) = RepoSync.events s0.

End Updates.

(** * The server: commands and the registry of jobs *)

Module Control.

(** An [AnsibleJob] as the server sees it: its abort flag and the
    subprocess it runs at the moment, by its process group. *)
Record Worker : Type := mkWorker {
  aborted : bool;
  proc : option nat
}.

(** What a request of the work queue is answered with. *)
Inductive Reply : Type := WorkComplete | WorkFail | WorkException.

(** [ExecutorServer]: the part the update thread uses ([base]), the
    flags, the registry [job_workers], the process groups that were sent
    [SIGKILL], and the answers given, each with the [unique] of its
    request. *)
Record Server : Type := mkServer {
  base : RepoSync.Server;
  _command_running : bool;
  verbose : bool;
  keep_jobdir : bool;
  job_workers : gmap string Worker;
  killed : gset nat;
  replies : list (string * Reply);
  log : list string
}.

Definition add_log (msg : string) (s : Server) : Server :=
  {| base := base s; _command_running := _command_running s;
     verbose := verbose s; keep_jobdir := keep_jobdir s;
     job_workers := job_workers s; killed := killed s;
     replies := replies s; log := log s ++ [msg] |}.

Definition reply (unique : string) (r : Reply) (s : Server) : Server :=
  {| base := base s; _command_running := _command_running s;
     verbose := verbose s; keep_jobdir := keep_jobdir s;
     job_workers := job_workers s; killed := killed s;
     replies := replies s ++ [(unique, r)]; log := log s |}.

Definition set_job_workers (m : gmap string Worker) (s : Server) : Server :=
  {| base := base s; _command_running := _command_running s;
     verbose := verbose s; keep_jobdir := keep_jobdir s;
     job_workers := m; killed := killed s;
     replies := replies s; log := log s |}.

(** [AnsibleJob.abortRunningProc]: the process group of the subprocess,
    when there is one, is sent [SIGKILL]. *)
Definition abortRunningProc (w : Worker) (s : Server) : Server :=
  match proc w with
  | None => s
  | Some pgid =>
      {| base := base s; _command_running := _command_running s;
         verbose := verbose s; keep_jobdir := keep_jobdir s;
         job_workers := job_workers s; killed := {[ pgid ]} ∪ killed s;
         replies := replies s; log := log s |}
  end.

(** [AnsibleJob.stop] on the worker registered as [unique]: the flag is
    set on the object, then the subprocess is killed; the [join] that
    follows only waits. *)
Definition worker_stop (unique : string) (w : Worker) (s : Server) : Server :=
  abortRunningProc w
    (set_job_workers (<[unique := {| aborted := true; proc := proc w |}]>
                        (job_workers s)) s).

(** [ExecutorServer.stop]. *)
Definition stop (s : Server) : Server :=
  let s1 :=
    {| base := RepoSync.stop (base s); _command_running := false;
       verbose := verbose s; keep_jobdir := keep_jobdir s;
       job_workers := job_workers s; killed := killed s;
       replies := replies s; log := log s |} in
  fold_left (λ s kv, worker_stop kv.1 kv.2 s) (map_to_list (job_workers s1)) s1.

Definition verboseOn (s : Server) : Server :=
  {| base := base s; _command_running := _command_running s;
     verbose := true; keep_jobdir := keep_jobdir s;
     job_workers := job_workers s; killed := killed s;
     replies := replies s; log := log s |}.

Definition verboseOff (s : Server) : Server :=
  {| base := base s; _command_running := _command_running s;
     verbose := false; keep_jobdir := keep_jobdir s;
     job_workers := job_workers s; killed := killed s;
     replies := replies s; log := log s |}.

Definition keep (s : Server) : Server :=
  {| base := base s; _command_running := _command_running s;
     verbose := verbose s; keep_jobdir := true;
     job_workers := job_workers s; killed := killed s;
     replies := replies s; log := log s |}.

Definition nokeep (s : Server) : Server :=
  {| base := base s; _command_running := _command_running s;
     verbose := verbose s; keep_jobdir := false;
     job_workers := job_workers s; killed := killed s;
     replies := replies s; log := log s |}.

(** [pause], [unpause] and [graceful] do nothing. *)
Definition pause (s : Server) : Server := s.
Definition unpause (s : Server) : Server := s.
Definition graceful (s : Server) : Server := s.

(** [self.command_map]. *)
Definition command_map : gmap string (Server → Server) :=
  list_to_map
    [("stop", stop); ("pause", pause); ("unpause", unpause);
     ("graceful", graceful); ("verbose", verboseOn); ("unverbose", verboseOff);
     ("keep", keep); ("nokeep", nokeep)].

(** The body of the loop of [runCommand] for the command received. *)
Definition handle_command (command : string) (s : Server) : Server :=
  if bool_decide (command ≠ "_stop") then
    match command_map !! command with
    | Some f => f s
    | None => add_log "Exception while processing command" s
    end
  else s.

(** [ExecutorServer.runCommand] on the commands the socket gives, in
    order; with none left, [get] blocks. *)
Fixpoint runCommand (commands : list string) (s : Server)
    : RepoSync.loop_end * Server :=
  if _command_running s then
    match commands with
    | [] => (RepoSync.Blocked, s)
    | command :: rest => runCommand rest (handle_command command s)
    end
  else (RepoSync.Stopped, s).

(** A flag after the commands: what the last of the two commands that
    set it says, or what it was. *)
Definition toggled (on off : string) (commands : list string) (flag : bool)
    : bool :=
  match last (filter (λ c, c = on ∨ c = off) commands) with
  | Some c => bool_decide (c = on)
  | None => flag
  end.

(** A request of the executor queue: its name, its [unique], and its
    arguments, [None] when they are not a JSON object. *)
Record Request : Type := mkRequest {
  name : string;
  unique : string;
  arguments : option (gmap string string)
}.

(** [ExecutorServer.executeJob]: a new [AnsibleJob] is registered and
    started. *)
Definition executeJob (job : Request) (s : Server) : Server :=
  set_job_workers
    (<[unique job := {| aborted := false; proc := None |}]> (job_workers s)) s.

(** [ExecutorServer.finishJob]. *)
Definition finishJob (unique : string) : M Server unit := λ s,
  match job_workers s !! unique with
  | Some _ => (inr tt, set_job_workers (delete unique (job_workers s)) s)
  | None => (inl (Exception "KeyError"), s)
  end.

(** [ExecutorServer.stopJob], with its [finally]. *)
Definition stopJob (job : Request) : M Server unit := λ s,
  let '(r, s1) :=
    match arguments job with
    | None => (inl (Exception "JSONDecodeError"), s)
    | Some args =>
        match args !! "uuid" with
        | None => (inl (Exception "KeyError"), s)
        | Some uuid =>
            match job_workers s !! uuid with
            | None => (inr tt, s)
            | Some job_worker => (inr tt, worker_stop uuid job_worker s)
            end
        end
    end in
  (r, reply (unique job) WorkComplete s1).

(** One request in [run_executor], with the [except] around it. *)
Definition handle_request (job : Request) (s : Server) : Server :=
  let '(r, s1) :=
    if bool_decide (name job = "executor:execute")
    then (inr tt, executeJob job s)
    else if Posix.startswith (name job) "executor:stop"
    then stopJob job s
    else (inr tt, reply (unique job) WorkFail s) in
  match r with
  | inr _ => s1
  | inl _ => reply (unique job) WorkException s1
  end.

End Control.

(** * The SSH agent of a job *)

Module SshAgent.

Definition newline : ascii := "010"%char.

(** [s.split(c)] for a separator [c] of one character. *)
Fixpoint split (c : ascii) (s : string) : list string :=
  match s with
  | EmptyString => [""]
  | String a s' =>
      if bool_decide (a = c) then "" :: split c s'
      else match split c s' with
           | x :: rest => String a x :: rest
           | [] => [String a ""]
           end
  end.

(** [c in s]. *)
Fixpoint contains (c : ascii) (s : string) : bool :=
  match s with
  | EmptyString => false
  | String a s' => bool_decide (a = c) || contains c s'
  end.

(** [SshAgent]: [self.env] and [self.ssh_agent]. *)
Record t : Type := mk {
  env : gmap string string;
  ssh_agent : option unit
}.

(** [SshAgent.__init__]. *)
Definition init : t := {| env := ∅; ssh_agent := None |}.

Section Agent.

(** The surroundings: [ssh-agent] run to its end, with what it printed;
    [os.kill(pid, SIGTERM)], which tells whether it raised [OSError];
    [int(s)], [None] for a [ValueError]; [ssh-add] with an environment
    and a key, which tells whether it failed; [os.environ] and
    [os.path.expanduser]. *)
Context {W : Type}.
Variable run_ssh_agent : W → string * W.
Variable kill : Z → W → bool * W.
Variable int_ : string → option Z.
Variable ssh_add : gmap string string → string → W → bool * W.
Variable environ : gmap string string.
Variable expanduser : string → string.

(** The agent of a job, the surroundings and the processes that were
    sent [SIGTERM]. *)
Record State : Type := mkState {
  agent : t;
  world : W;
  signalled : list Z
}.

(** The body of the loop of [start]: [(key, value) = line.split('=')]
    needs two parts. *)
Definition parse_line (line : string) : M State unit := λ st,
  if contains "=" line then
    let line := hd "" (split ";" line) in
    match split "=" line with
    | [key; value] =>
        (inr tt, {| agent := {| env := <[key := value]> (env (agent st));
                                ssh_agent := ssh_agent (agent st) |};
                    world := world st; signalled := signalled st |})
    | _ => (inl (Exception "ValueError"), st)
    end
  else (inr tt, st).

(** [SshAgent.start]. *)
Definition start : M State unit := λ st,
  if bool_decide (is_Some (ssh_agent (agent st))) then (inr tt, st)
  else
    let '(output, w) := run_ssh_agent (world st) in
    for_each (split newline output) parse_line
      {| agent := agent st; world := w; signalled := signalled st |}.

(** [SshAgent.stop]. *)
Definition stop : M State unit := λ st,
  match env (agent st) !! "SSH_AGENT_PID" with
  | Some pid =>
      match int_ pid with
      | Some n =>
          let '(_, w) := kill n (world st) in
          (inr tt, {| agent := {| env := ∅; ssh_agent := ssh_agent (agent st) |};
                      world := w; signalled := signalled st ++ [n] |})
      | None => (inl (Exception "ValueError"), st)
      end
  | None => (inr tt, st)
  end.

(** [SshAgent.add]: the bindings of the agent go over [os.environ]. *)
Definition add (key_path : string) : M State unit := λ st,
  let env_ := env (agent st) ∪ environ in
  let '(failed, w) := ssh_add env_ (expanduser key_path) (world st) in
  let st' := {| agent := agent st; world := w; signalled := signalled st |} in
  if failed : bool then (inl (Exception "CalledProcessError"), st')
  else (inr tt, st').

End Agent.

(** A string without the characters the parser of [start] looks for. *)
Definition clean (s : string) : Prop :=
  contains "=" s = false ∧ contains ";" s = false
  ∧ contains newline s = false.

(** What [ssh-agent] prints for a variable, and its output as a
    whole: a line for each variable, then text without [=]. *)
Definition agent_line (key value : string) : string :=
  key +:+ String "=" (value +:+ String ";" (" export " +:+ key +:+ ";")).

Fixpoint agent_output (bindings : list (string * string)) (trailer : string)
    : string :=
  match bindings with
  | [] => trailer
  | (key, value) :: rest =>
      agent_line key value +:+ String newline (agent_output rest trailer)
  end.

End SshAgent.

(** * The thread of a job *)

Module Lifecycle.

(** [try: m finally: f]: [f] runs either way, and what [m] raised is
    raised again when [f] is through. *)
Definition try_finally {S A} (m : M S A) (f : M S unit) : M S A := λ s,
  let '(r, s1) := m s in
  match f s1 with
  | (inr _, s2) => (r, s2)
  | (inl e, s2) => (inl e, s2)
  end.

Section Thread.

(** The surroundings of the agent, [tempfile.gettempdir()],
    [shutil.rmtree], and of the server and the job [jobdir_root],
    [private_key_file] and [job.unique]. *)
Context {W : Type}.
Variable run_ssh_agent : W → string * W.
Variable kill : Z → W → bool * W.
Variable int_ : string → option Z.
Variable ssh_add : gmap string string → string → W → bool * W.
Variable environ : gmap string string.
Variable expanduser : string → string.
Variable gettempdir : string.
Variable rmtree : string → M Posix.FS unit.
Variable jobdir_root : option string.
Variable private_key_file : string.
Variable unique : string.

(** [AnsibleJob] and what its thread reaches: the agent, [self.jobdir],
    [self.running], the file system, what was sent for the job, the
    server, and the exceptions that were only logged. *)
Record t : Type := mk {
  ssh_agent : @SshAgent.State W;
  jobdir : option JobDir.t;
  running : bool;
  fs : Posix.FS;
  sent : list Execute.Message;
  executor_server : Control.Server;
  log : list string
}.

(** [AnsibleJob._execute]. *)
Variable _execute : M t unit.

Definition on_agent {A} (m : M (@SshAgent.State W) A) : M t A := λ a,
  let '(r, s) := m (ssh_agent a) in
  (r, {| ssh_agent := s; jobdir := jobdir a; running := running a;
         fs := fs a; sent := sent a; executor_server := executor_server a;
         log := log a |}).

Definition on_fs {A} (m : M Posix.FS A) : M t A := λ a,
  let '(r, f) := m (fs a) in
  (r, {| ssh_agent := ssh_agent a; jobdir := jobdir a; running := running a;
         fs := f; sent := sent a; executor_server := executor_server a;
         log := log a |}).

Definition on_server {A} (m : M Control.Server A) : M t A := λ a,
  let '(r, s) := m (executor_server a) in
  (r, {| ssh_agent := ssh_agent a; jobdir := jobdir a; running := running a;
         fs := fs a; sent := sent a; executor_server := s; log := log a |}).

Definition set_jobdir (jd : JobDir.t) : M t unit :=
  modify (λ a, {| ssh_agent := ssh_agent a; jobdir := Some jd;
                  running := running a; fs := fs a; sent := sent a;
                  executor_server := executor_server a; log := log a |}).

Definition set_running (b : bool) : M t unit :=
  modify (λ a, {| ssh_agent := ssh_agent a; jobdir := jobdir a;
                  running := b; fs := fs a; sent := sent a;
                  executor_server := executor_server a; log := log a |}).

Definition send (m : Execute.Message) : M t unit :=
  modify (λ a, {| ssh_agent := ssh_agent a; jobdir := jobdir a;
                  running := running a; fs := fs a; sent := sent a ++ [m];
                  executor_server := executor_server a; log := log a |}).

(** [self.log.exception(msg)]. *)
Definition log_exception (msg : string) : M t unit :=
  modify (λ a, {| ssh_agent := ssh_agent a; jobdir := jobdir a;
                  running := running a; fs := fs a; sent := sent a;
                  executor_server := executor_server a;
                  log := log a ++ [msg] |}).

(** [JobDir.cleanup]. *)
Definition cleanup (jd : JobDir.t) : M Posix.FS unit :=
  if negb (JobDir.keep jd) then rmtree (JobDir.root jd) else ret tt.

(** [AnsibleJob.execute]. The [SshAgent] of a job is an object without
    [__bool__] or [__len__], so [if self.ssh_agent:] holds. *)
Definition execute : M t unit :=
  try_finally
    (Execute.try_except
       (on_agent (SshAgent.start run_ssh_agent) ;;
        on_agent (SshAgent.add ssh_add environ expanduser private_key_file) ;;
        keep_jobdir <- gets (λ a, Control.keep_jobdir (executor_server a)) ;;
        jd <- on_fs (JobDir.init gettempdir jobdir_root keep_jobdir unique) ;;
        set_jobdir jd ;;
        _execute)%py
       (λ e, match e with
             | ExecutorError detail => send (Execute.WorkError detail)
             | Exception _ => send Execute.WorkException
             end))
    (set_running false ;;
     jd <- gets jobdir ;;
     match jd with
     | Some jd =>
         Execute.try_except (on_fs (cleanup jd))
           (λ _, log_exception "Error cleaning up jobdir:")
     | None => ret tt
     end ;;
     Execute.try_except (on_agent (SshAgent.stop kill int_))
       (λ _, log_exception "Error stopping SSH agent:") ;;
     Execute.try_except (on_server (Control.finishJob unique))
       (λ _, log_exception "Error finalizing job thread:"))%py.

End Thread.

(** The variables of an agent that printed its socket and its process. *)
Definition agent_env (sock pid : string) : gmap string string :=
  <["SSH_AGENT_PID" := pid]> (<["SSH_AUTH_SOCK" := sock]> ∅).

End Lifecycle.

(** * Examples *)

Module Examples.

Definition task_A : RepoSync.UpdateTask := RepoSync.mkUpdateTask 0 "gerrit" "org/project".
Definition task_A' : RepoSync.UpdateTask := RepoSync.mkUpdateTask 1 "gerrit" "org/project".
Definition task_B : RepoSync.UpdateTask := RepoSync.mkUpdateTask 2 "gerrit" "org/other".

(** A merge engine whose refresh of [org/project] fails. *)
Definition failing_updateRepo (connection project : string) (w : unit)
    : option exn * unit :=
  if bool_decide (project = "org/project")
  then (Some (Exception "git fetch failed"), w) else (None, w).

(** A merge engine whose refreshes all return. *)
Definition working_updateRepo (connection project : string) (w : unit)
    : option exn * unit := (None, w).

Definition server_AB : RepoSync.Server :=
  RepoSync.mkServer (RepoSync.mkQueue [Some task_A; Some task_B] 2) true ∅ 3 [].

(** A running server with nothing to update. *)
Definition server_idle : RepoSync.Server :=
  RepoSync.mkServer RepoSync.DeduplicateQueue_init true ∅ 0 [].

Definition repo_master_only : Branches.Repo := Branches.mkRepo ["master"] None.


(** A job directory with one pre playbook, a chosen main playbook and one
    post playbook, all resolved. *)
Definition example_playbook (root path : string) : JobDirPlaybook.t :=
  {| JobDirPlaybook.root := root;
     JobDirPlaybook.trusted := Some true;
     JobDirPlaybook.branch := Some "master";
     JobDirPlaybook.canonical_name_and_path := Some path;
     JobDirPlaybook.path := Some path;
     JobDirPlaybook.roles := [];
     JobDirPlaybook.roles_path := [];
     JobDirPlaybook.ansible_config := Posix.join root ["ansible.cfg"];
     JobDirPlaybook.project_link := Posix.join root ["project"] |}.

Definition playbook_A : JobDirPlaybook.t :=
  example_playbook "/tmp/uuid/ansible/pre_playbook_0" "/tmp/uuid/trusted/project_0/A.yaml".
Definition playbook_B : JobDirPlaybook.t :=
  example_playbook "/tmp/uuid/ansible/playbook_0" "/tmp/uuid/trusted/project_0/B.yaml".
Definition playbook_C : JobDirPlaybook.t :=
  example_playbook "/tmp/uuid/ansible/post_playbook_0" "/tmp/uuid/trusted/project_0/C.yaml".

Definition jobdir_ABC : JobDir.t :=
  {| JobDir.keep := false;
     JobDir.root := "/tmp/uuid";
     JobDir.work_root := "/tmp/uuid/work";
     JobDir.src_root := "/tmp/uuid/work/src";
     JobDir.log_root := "/tmp/uuid/work/logs";
     JobDir.ansible_root := "/tmp/uuid/ansible";
     JobDir.trusted_root := "/tmp/uuid/trusted";
     JobDir.result_data_file := "/tmp/uuid/work/results.json";
     JobDir.known_hosts := "/tmp/uuid/work/.ssh/known_hosts";
     JobDir.inventory := "/tmp/uuid/ansible/inventory.yaml";
     JobDir.secrets := "/tmp/uuid/ansible/secrets.yaml";
     JobDir.has_secrets := false;
     JobDir.playbooks := [playbook_B];
     JobDir.playbook := Some 0;
     JobDir.pre_playbooks := [playbook_A];
     JobDir.post_playbooks := [playbook_C];
     JobDir.job_output_file := "/tmp/uuid/work/logs/job-output.txt";
     JobDir.trusted_projects := ["/tmp/uuid/trusted/project_0"];
     JobDir.trusted_project_index :=
       {[ ("git.example.com/org/config", Some "master")
            := "/tmp/uuid/trusted/project_0" ]} |}.

(** Surroundings that follow a script: each launched subprocess behaves as
    the next entry says; nobody asks to stop; the clock stands still. *)
Definition script : Type := list Phases.Proc.
Definition exits (code : Z) : Phases.Proc := Phases.mkProc [] code None.
Definition scripted_popen (inv : Phases.Invocation) (w : script)
    : Phases.Proc * script := (hd (exits 0) w, tl w).
Definition never_aborted (w : script) : bool := false.
Definition always_aborted (w : script) : bool := true.
Definition still_clock (w : script) : string * script := ("2017-06-01 12:00:00", w).

Definition example_run (w : script) (timeout : option Z)
    : (exn + option string) * Phases.Run :=
  Phases.runPlaybooks never_aborted scripted_popen still_clock false jobdir_ABC
    timeout (Phases.start w).

(** A registry in which every project lives on [git.example.com], and a
    merger whose checkout of a project holds a playbook
    [playbooks/run.yaml] and the [tasks] directory of a bare role. *)
Definition example_getProject (connection name : string) : Staging.Project :=
  {| Staging.canonical_name := "git.example.com/" +:+ name;
     Staging.canonical_hostname := "git.example.com";
     Staging.name := name;
     Staging.connection_name := connection |}.

Definition example_checkout (root connection name : string)
    (branch : option string) : M Posix.FS unit :=
  (let repo := Posix.join root ["git.example.com"; name] in
   Posix.makedirs (Posix.join repo ["playbooks"]) ;;
   Posix.write_file (Posix.join repo ["playbooks"; "run.yaml"]) ["- hosts: all"] ;;
   Posix.makedirs (Posix.join repo ["tasks"]))%py.

(** A machine with an empty [/tmp], the executor running in [/]. *)
Definition fs_tmp : Posix.FS := Posix.mkFS "/" {[ "/tmp" := Posix.Dir ]}.

(** The job [uuid] after [JobDir.__init__]. *)
Definition the_job : Staging.Job :=
  match JobDir.init "/tmp" None false "uuid" fs_tmp with
  | (inr jd, fs) => Staging.mkJob jd fs
  | (inl _, fs) => Staging.mkJob jobdir_ABC fs
  end.

Definition example_prepare (args : Staging.Args) : M Staging.Job unit :=
  Staging.preparePlaybooks example_getProject example_checkout
    "/var/lib/zuul/ansible/zuul/ansible/library"
    "/var/lib/zuul/ansible/zuul/ansible/action"
    "/var/lib/zuul/ansible/zuul/ansible/callback"
    "/var/lib/zuul/ansible/zuul/ansible/lookup" args.

(** A trusted main playbook [playbooks/run] of [org/config] with one
    role of [org/roles], linked under the name [target]. *)
Definition config_playbook (target : string) : Staging.Playbook :=
  Staging.mkPlaybook "gerrit" "org/config" "playbooks/run" true (Some "master")
    [Staging.mkRole "zuul" "gerrit" "org/roles" target].

Definition args_with_role (target : string) : Staging.Args :=
  Staging.mkArgs [] [config_playbook target] [] [] None ∅ ∅.

(** The change under test is in [org/project]; its merged checkout holds
    the playbook [playbooks/run.yaml] and, next to it, a directory
    [action_plugins]. *)
Definition playbooks_dir : string :=
  "/tmp/uuid/work/src/git.example.com/org/project/playbooks".

Definition job_with_plugins : Staging.Job :=
  Staging.mkJob (Staging.jobdir the_job)
    (snd ((Posix.makedirs (Posix.join playbooks_dir ["action_plugins"]) ;;
           Posix.write_file (Posix.join playbooks_dir ["run.yaml"])
             ["- hosts: all"])%py (Staging.fs the_job))).

(** The same job with the executor running in the playbook directory. *)
Definition job_with_plugins_in_cwd : Staging.Job :=
  Staging.mkJob (Staging.jobdir job_with_plugins)
    (Posix.mkFS playbooks_dir (Posix.nodes (Staging.fs job_with_plugins))).

Definition untrusted_playbook : Staging.Playbook :=
  Staging.mkPlaybook "gerrit" "org/project" "playbooks/run" false (Some "master") [].

Definition args_untrusted : Staging.Args :=
  Staging.mkArgs [] [untrusted_playbook] [] [Staging.mkItem "gerrit" "org/project"]
    None ∅ ∅.

(** Three candidates for the main playbook: [playbooks/missing] has no
    file, [playbooks/run] has one, and so has the third. *)
Definition candidate (sub_path : string) : Staging.Playbook :=
  Staging.mkPlaybook "gerrit" "org/config" sub_path true (Some "master") [].

Definition args_three : Staging.Args :=
  Staging.mkArgs []
    [candidate "playbooks/missing"; candidate "playbooks/run";
     candidate "playbooks/run"] [] [] None ∅ ∅.

(** A job whose pre playbook has no file. *)
Definition args_missing_pre : Staging.Args :=
  Staging.mkArgs [candidate "playbooks/missing"] [candidate "playbooks/run"]
    [] [] None ∅ ∅.

(** A job with a secret. *)
Definition args_secret : Staging.Args :=
  Staging.mkArgs [] [candidate "playbooks/run"] [] [] None ∅
    {[ "password" := "hunter2" ]}.

Definition example_attempt (playbook : Staging.Playbook) (args : Staging.Args)
    : M Staging.Job (nat * option string) :=
  Staging.attempt example_getProject example_checkout
    "/var/lib/zuul/ansible/zuul/ansible/library"
    "/var/lib/zuul/ansible/zuul/ansible/action"
    "/var/lib/zuul/ansible/zuul/ansible/callback"
    "/var/lib/zuul/ansible/zuul/ansible/lookup" playbook args.

Definition example_execute (args : Staging.Args)
    : M (@Execute.AnsibleJob script) unit :=
  Execute.execute never_aborted scripted_popen still_clock
    example_getProject example_checkout
    "/var/lib/zuul/ansible/zuul/ansible/library"
    "/var/lib/zuul/ansible/zuul/ansible/action"
    "/var/lib/zuul/ansible/zuul/ansible/callback"
    "/var/lib/zuul/ansible/zuul/ansible/lookup"
    false "executor01" 79 "uuid"
    (λ _ _, ["all:"]) (λ _, []) (λ _, []) args.

(** Two nodes, the second with its own SSH port, and a group. *)
Definition example_nodes : list Inventory.Node :=
  [Inventory.mkNode "controller" (Some "203.0.113.5") None None
     (Some "example-cloud") None (Some ["ssh-rsa AAAA"]);
   Inventory.mkNode "worker" (Some "203.0.113.6") (Some 2222%Z) None
     (Some "example-cloud") None (Some ["ssh-rsa BBBB"; "ssh-ed25519 CCCC"])].

Definition example_hosts : list Inventory.Host :=
  match Inventory.getHostList "zuul" example_nodes with
  | inr hosts => hosts
  | inl _ => []
  end.

Definition example_groups : list Inventory.Group :=
  [Inventory.mkGroup "workers" ["worker"]].

(** A server with two jobs, the first of which runs a subprocess, a
    request to stop the first and a request to run a third. *)
Definition server_two_jobs : Control.Server :=
  Control.mkServer server_idle true false false
    {[ "uuid-1" := Control.mkWorker false (Some 4242);
       "uuid-2" := Control.mkWorker false None ]} ∅ [] [].

Definition stop_request : Control.Request :=
  Control.mkRequest "executor:stop:executor01" "stop-1"
    (Some {[ "uuid" := "uuid-1" ]}).

Definition execute_request : Control.Request :=
  Control.mkRequest "executor:execute" "uuid-3" None.

(** What [ssh-agent] prints, a key that [ssh-add] refuses, and the
    thread of the job [uuid-1] about to start. *)
Definition ssh_agent_prints : string :=
  SshAgent.agent_output
    [("SSH_AUTH_SOCK", "/tmp/ssh-k3XbQ/agent.4241"); ("SSH_AGENT_PID", "4242")]
    ("echo Agent pid 4242;" +:+ String SshAgent.newline "").

Definition example_run_ssh_agent (w : unit) : string * unit :=
  (ssh_agent_prints, w).

Definition example_kill (pid : Z) (w : unit) : bool * unit := (false, w).

Definition example_int (s : string) : option Z :=
  if bool_decide (s = "4242") then Some 4242%Z else None.

Definition ssh_add_refused (env : gmap string string) (key_path : string)
    (w : unit) : bool * unit := (true, w).

Definition rmtree_raises (path : string) : M Posix.FS unit :=
  raise (Exception "PermissionError").

Definition agent_fresh : @SshAgent.State unit :=
  SshAgent.mkState SshAgent.init tt [].

Definition thread_fresh : @Lifecycle.t unit :=
  Lifecycle.mk agent_fresh None true fs_tmp [] server_two_jobs [].

End Examples.

(** * Properties of the update coordinator *)

Module RepoSyncFacts.
Import RepoSync Examples.

Lemma py_eq_same_key (item x : UpdateTask) :
  py_eq (Some item) (Some x) = true ↔ same_key x item.
Proof.
  unfold py_eq, UpdateTask_eq, same_key.
  rewrite andb_true_iff, !bool_decide_eq_true. tauto.
Qed.

Lemma py_eq_task_None (item : UpdateTask) : py_eq (Some item) None = false.
Proof. reflexivity. Qed.

Lemma scan_cons (item y : option UpdateTask) l r :
  scan item (y :: l) r = scan item l (if py_eq item y then y else r).
Proof. reflexivity. Qed.

(** The scan keeps what it had when nothing in the list matches. *)
Lemma scan_no_match (item : UpdateTask) l r :
  (∀ x, Some x ∈ l → ¬ same_key x item) → scan (Some item) l r = r.
Proof.
  revert r. induction l as [|y l IH]; intros r Hno; [done|].
  rewrite scan_cons.
  destruct y as [y|].
  - destruct (py_eq (Some item) (Some y)) eqn:E.
    + apply py_eq_same_key in E. exfalso. apply (Hno y); [left | done].
    + apply IH. intros x Hx. apply Hno. by right.
  - rewrite py_eq_task_None. apply IH. intros x Hx. apply Hno. by right.
Qed.

(** What the scan returns is what it had or a matching task of the list. *)
Lemma scan_result (item : UpdateTask) l r :
  scan (Some item) l r = r
  ∨ ∃ x, scan (Some item) l r = Some x ∧ Some x ∈ l ∧ same_key x item.
Proof.
  revert r. induction l as [|y l IH]; intros r; [by left|].
  rewrite scan_cons.
  destruct (py_eq (Some item) y) eqn:E.
  - destruct y as [y|]; [|done].
    apply py_eq_same_key in E.
    destruct (IH (Some y)) as [-> | (x & -> & Hx & Hk)].
    + right. exists y. split; [done|]. split; [left | done].
    + right. exists x. split; [done|]. split; [by right | done].
  - destruct (IH r) as [-> | (x & -> & Hx & Hk)]; [by left|].
    right. exists x. split; [done|]. split; [by right | done].
Qed.

(** With a match in the list the scan returns a matching task of it. *)
Lemma scan_match (item : UpdateTask) l r :
  (∃ x, Some x ∈ l ∧ same_key x item) →
  ∃ x, scan (Some item) l r = Some x ∧ Some x ∈ l ∧ same_key x item.
Proof.
  revert r. induction l as [|y l IH]; intros r (x & Hx & Hk).
  { by apply elem_of_nil in Hx. }
  rewrite scan_cons.
  apply elem_of_cons in Hx as [<- | Hx].
  - assert (py_eq (Some item) (Some x) = true) as -> by by apply py_eq_same_key.
    destruct (scan_result item l (Some x)) as [-> | (z & -> & Hz & Hzk)].
    + exists x. split; [done|]. split; [left | done].
    + exists z. split; [done|]. split; [by right | done].
  - destruct (IH (if py_eq (Some item) y then y else r)) as (z & -> & Hz & Hzk).
    { by exists x. }
    exists z. split; [done|]. split; [by right | done].
Qed.

(** The scan looks at the key of the item only. *)
Lemma scan_key (a b : UpdateTask) l r :
  same_key a b → scan (Some a) l r = scan (Some b) l r.
Proof.
  intros [Hc Hp]. revert r. induction l as [|y l IH]; intros r; [done|].
  rewrite !scan_cons.
  assert (py_eq (Some a) y = py_eq (Some b) y) as ->; [|apply IH].
  destruct y as [y|]; [|done]. unfold py_eq, UpdateTask_eq. by rewrite Hc, Hp.
Qed.

Lemma scan_app (item : option UpdateTask) l1 l2 r :
  scan item (l1 ++ l2) r = scan item l2 (scan item l1 r).
Proof. unfold scan. apply fold_left_app. Qed.

(** The [None] that asks the loop to stop is always appended: what the
    scan finds for it is [None] again. *)
Lemma scan_None l : scan None l None = None.
Proof.
  induction l as [|x l IH]; [done|]. rewrite scan_cons.
  destruct x as [x|]; simpl; apply IH.
Qed.

Lemma put_None (q : DeduplicateQueue) :
  put None q = (None, {| queue := queue q ++ [None]; notified := S (notified q) |}).
Proof. unfold put. by rewrite scan_None. Qed.

(** Two submissions of one key in a row return the same task object. *)
Lemma update_twice connection project (s : Server) :
  let '(t1, s1) := update connection project s in
  let '(t2, s2) := update connection project s1 in
  t1 = t2 ∧ is_Some t1 ∧ update_queue s2 = update_queue s1.
Proof.
  unfold update, put. simpl.
  set (a := {| event := next_event s; connection_name := connection;
               project_name := project |}).
  set (b := {| event := S (next_event s); connection_name := connection;
               project_name := project |}).
  assert (same_key b a) as Hk by done.
  destruct (scan (Some a) (queue (update_queue s)) None) as [x|] eqn:E; simpl.
  - rewrite (scan_key b a), E by done. simpl. eauto.
  - rewrite (scan_key b a), scan_app, E by done.
    rewrite scan_cons.
    assert (py_eq (Some a) (Some a) = true) as ->.
    { apply py_eq_same_key. done. }
    simpl. eauto.
Qed.

(** C5. Submitting a task whose (connection name, project name) key is
    the key of a task pending in the queue returns that enqueued task
    object and leaves the queue as it was (same size, no new signal);
    otherwise the new task is appended and one waiting consumer is
    notified. Requesters that submit one key in a row therefore hold one
    task object, and its single completion releases every one of them. *)
Theorem put_deduplicates :
  (∀ (item : UpdateTask) (q : DeduplicateQueue),
     (∃ x, Some x ∈ queue q ∧ same_key x item) →
     ∃ x, put (Some item) q = (Some x, q)
          ∧ Some x ∈ queue q ∧ same_key x item
          ∧ qsize (put (Some item) q).2 = qsize q)
  ∧ (∀ (item : UpdateTask) (q : DeduplicateQueue),
       (∀ x, Some x ∈ queue q → ¬ same_key x item) →
       put (Some item) q =
         (Some item, {| queue := queue q ++ [Some item];
                        notified := S (notified q) |}))
  ∧ (∀ connection project (s : Server),
       ∃ t s1 s2,
         update connection project s = (Some t, s1)
         ∧ update connection project s1 = (Some t, s2)
         ∧ update_queue s2 = update_queue s1
         ∧ ∀ s', wait_returns t (setComplete t s')).
Proof.
  split; [|split].
  - intros item q Hex.
    destruct (scan_match item (queue q) None Hex) as (x & Hs & Hx & Hk).
    exists x. unfold put. rewrite Hs. done.
  - intros item q Hno. unfold put.
    by rewrite (scan_no_match item (queue q) None Hno).
  - intros connection project s.
    pose proof (update_twice connection project s) as H.
    destruct (update connection project s) as [t1 s1] eqn:E1.
    destruct (update connection project s1) as [t2 s2] eqn:E2.
    destruct H as (<- & [t ->] & Hq).
    exists t, s1, s2. split; [done|]. split; [done|]. split; [done|].
    intros s'. unfold wait_returns, setComplete. simpl. set_solver.
Qed.

Lemma put_deduplicates_witness :
  put (Some task_A') (mkQueue [Some task_A] 1) = (Some task_A, mkQueue [Some task_A] 1)
  ∧ put (Some task_B) (mkQueue [Some task_A] 1)
    = (Some task_B, mkQueue [Some task_A; Some task_B] 2).
Proof.
  split.
  - destruct (proj1 put_deduplicates task_A' (mkQueue [Some task_A] 1))
      as (x & Hput & Hx & _).
    + exists task_A. split; [left | done].
    + apply list_elem_of_singleton in Hx. injection Hx as ->. exact Hput.
  - apply (proj1 (proj2 put_deduplicates) task_B (mkQueue [Some task_A] 1)).
    intros x Hx [_ Hp]. apply list_elem_of_singleton in Hx.
    injection Hx as ->. discriminate Hp.
Defined.

Section Loop.
Context {W : Type}.
Variable updateRepo : string → string → W → option exn * W.

(** When the refresh raises, the iteration ends without setting the
    task's event: the set of completed events is the one before. *)
Lemma innerUpdateLoop_raise (s : Server) (w w' : W) task rest e :
  queue (update_queue s) = Some task :: rest →
  updateRepo (connection_name task) (project_name task) w = (Some e, w') →
  ∃ s', _innerUpdateLoop updateRepo s w = Some (inl e, s', w')
        ∧ events s' = events s
        ∧ queue (update_queue s') = rest
        ∧ _running s' = _running s.
Proof.
  intros Hq Hup. unfold _innerUpdateLoop, get. rewrite Hq, Hup.
  eexists. split; [done|]. done.
Qed.

(** When the refresh returns, the task's event is set. *)
Lemma innerUpdateLoop_return (s : Server) (w w' : W) task rest :
  queue (update_queue s) = Some task :: rest →
  updateRepo (connection_name task) (project_name task) w = (None, w') →
  ∃ s', _innerUpdateLoop updateRepo s w = Some (inr tt, s', w')
        ∧ wait_returns task s'
        ∧ queue (update_queue s') = rest.
Proof.
  intros Hq Hup. unfold _innerUpdateLoop, get. rewrite Hq, Hup.
  eexists. split; [done|]. split; [|done].
  unfold wait_returns. simpl. set_solver.
Qed.

(** The loop goes on after an exception: one more iteration is run on
    the state the failed one left. *)
Lemma updateLoop_continues (fuel : nat) (s : Server) (w w' : W) task rest e :
  _running s = true →
  queue (update_queue s) = Some task :: rest →
  updateRepo (connection_name task) (project_name task) w = (Some e, w') →
  ∃ s', _updateLoop updateRepo (S fuel) s w = _updateLoop updateRepo fuel s' w'
        ∧ events s' = events s
        ∧ queue (update_queue s') = rest.
Proof.
  intros Hr Hq Hup.
  destruct (innerUpdateLoop_raise s w w' task rest e Hq Hup)
    as (s1 & Hin & Hev & Hq1 & Hr1).
  exists (add_log "Exception in update thread:" s1).
  simpl. rewrite Hr, Hin. done.
Qed.
(** After [stop] the loop ends at its next test of [_running]. *)
Lemma updateLoop_stopped (fuel : nat) (s : Server) (w : W) :
  _updateLoop updateRepo (S fuel) (stop s) w = (Stopped, stop s, w).
Proof. reflexivity. Qed.

End Loop.

(** C4, on the code. With the tasks A and B queued and the refresh of A
    raising, the loop goes on to B and completes it, then blocks on the
    empty queue; the event of A is never set, so [wait] on A does not
    return. *)
Theorem updateLoop_failed_task_never_completes :
  ∃ s', _updateLoop failing_updateRepo 3 server_AB tt = (Blocked, s', tt)
        ∧ queue (update_queue s') = []
        ∧ wait_returns task_B s'
        ∧ ¬ wait_returns task_A s'.
Proof.
  eexists. split; [vm_compute; reflexivity|].
  split; [reflexivity|]. unfold wait_returns. simpl.
  split; [set_solver|]. vm_compute. set_solver.
Qed.

(** A scan that finds nothing: no pending task has the key. *)
Lemma scan_None_no_match (item : UpdateTask) l :
  scan (Some item) l None = None → ∀ x, Some x ∈ l → ¬ same_key x item.
Proof.
  intros Hs x Hx Hk.
  destruct (scan_match item l None) as (z & Hz & _); [by exists x|].
  congruence.
Qed.

Lemma distinct_keys_put (item : option UpdateTask) (q : DeduplicateQueue) :
  distinct_keys (queue q) → distinct_keys (queue (put item q).2).
Proof.
  intros Hd. unfold put.
  destruct (scan item (queue q) None) as [x|] eqn:Hs; [done|]. simpl.
  intros i j x y Hi Hj Hk.
  apply lookup_app_Some in Hi as [Hi | [Hli Hi]];
    apply lookup_app_Some in Hj as [Hj | [Hlj Hj]].
  - by apply (Hd i j x y).
  - apply list_lookup_singleton_Some in Hj as [_ ->].
    exfalso. apply (scan_None_no_match y (queue q) Hs x); [|done].
    by apply list_elem_of_lookup_2 in Hi.
  - apply list_lookup_singleton_Some in Hi as [_ ->].
    exfalso. apply (scan_None_no_match x (queue q) Hs y).
    + by apply list_elem_of_lookup_2 in Hj.
    + destruct Hk. by split.
  - apply list_lookup_singleton_Some in Hi as [Hi _].
    apply list_lookup_singleton_Some in Hj as [Hj _]. lia.
Qed.

Lemma distinct_keys_tail x l : distinct_keys (x :: l) → distinct_keys l.
Proof.
  intros Hd i j a b Hi Hj Hk.
  assert (S i = S j) by by apply (Hd (S i) (S j) a b). lia.
Qed.

(** X1. Whatever producers and the consumer do, starting from the empty
    deque, no two tasks pending in it have the same (connection name,
    project name) key. *)
Theorem queue_keys_stay_distinct (ops : list op) :
  distinct_keys (queue (foldl apply_op DeduplicateQueue_init ops)).
Proof.
  assert (∀ q, distinct_keys (queue q) →
               distinct_keys (queue (foldl apply_op q ops))) as H.
  { induction ops as [|o ops IH]; intros q Hq; [done|]. simpl. apply IH.
    destruct o as [item|]; simpl.
    - by apply distinct_keys_put.
    - unfold get. destruct (queue q) as [|x rest] eqn:E; simpl.
      + by rewrite E.
      + by apply (distinct_keys_tail x). }
  apply H. intros i j x y Hi. simpl in Hi. by rewrite lookup_nil in Hi.
Qed.

(** X2. A [put] never overtakes: the item the next [get] returns is the
    one that was at the head before the [put] (the new item itself when
    the deque was empty), what was behind the head stays in its order, and
    the deque grows by at most one item. *)
Theorem put_keeps_the_head (item : option UpdateTask) (q : DeduplicateQueue) :
  fst <$> get (put item q).2 = Some (default item (head (queue q)))
  ∧ (∀ x rest, queue q = x :: rest →
       ∃ rest', queue (put item q).2 = x :: rest' ∧ rest `prefix_of` rest'
                ∧ length rest' ≤ S (length rest)).
Proof.
  unfold put, get.
  destruct (scan item (queue q) None) as [x|] eqn:Hs; simpl.
  - split.
    + destruct (queue q) as [|y rest] eqn:E; [|done].
      by rewrite <- (app_nil_l []) in Hs.
    + intros y rest ->. exists rest. split; [done|]. split; [done|]. lia.
  - split.
    + by destruct (queue q).
    + intros y rest ->. exists (rest ++ [item]). split; [done|].
      split; [by apply prefix_app_r|]. rewrite length_app. simpl. lia.
Qed.

Section Drain.
Context {W : Type}.
Variable updateRepo : string → string → W → option exn * W.

Lemma updateLoop_drains (l : list (option UpdateTask)) :
  ∀ (fuel : nat) (s : Server) (w : W),
  queue (update_queue s) = l → _running s = true → length l < fuel →
  ∃ s' w', _updateLoop updateRepo fuel s w = (Blocked, s', w')
    ∧ queue (update_queue s') = []
    ∧ _running s' = true
    ∧ events s ⊆ events s'
    ∧ events s' ⊆ events s ∪ pending_events l
    ∧ ((∀ c p w0, (updateRepo c p w0).1 = None) →
       ∀ t, Some t ∈ l → wait_returns t s').
Proof.
  induction l as [|x l IH]; intros fuel s w Hq Hr Hf.
  - destruct fuel as [|fuel]; [simpl in Hf; lia|].
    exists s, w. simpl. rewrite Hr. unfold _innerUpdateLoop, get. rewrite Hq.
    split; [done|]. split; [done|]. split; [done|]. split; [done|].
    split; [set_solver|]. intros _ t Ht. by apply elem_of_nil in Ht.
  - destruct fuel as [|fuel]; [simpl in Hf; lia|]. simpl in Hf.
    simpl. rewrite Hr. unfold _innerUpdateLoop, get. rewrite Hq.
    destruct x as [task|].
    + destruct (updateRepo (connection_name task) (project_name task) w)
        as [[e|] w1] eqn:Hup.
      * match goal with |- context [_updateLoop _ fuel ?s1 ?w1] =>
          destruct (IH fuel s1 w1) as (s' & w' & Hl & Hq' & Hr' & Hsub & Hsup & Hall);
            [reflexivity | exact Hr | lia |] end.
        exists s', w'. split; [exact Hl|]. split; [done|]. split; [done|].
        split; [exact Hsub|]. split.
        { intros z Hz. apply Hsup in Hz. unfold pending_events in *. simpl.
          rewrite !elem_of_union in *. tauto. }
        intros Hno. specialize (Hno (connection_name task) (project_name task) w).
        rewrite Hup in Hno. done.
      * match goal with |- context [_updateLoop _ fuel ?s1 ?w1] =>
          destruct (IH fuel s1 w1) as (s' & w' & Hl & Hq' & Hr' & Hsub & Hsup & Hall);
            [reflexivity | exact Hr | lia |] end.
        exists s', w'. split; [exact Hl|]. split; [done|]. split; [done|].
        simpl in Hsub, Hsup.
        split; [intros z Hz; apply Hsub; apply elem_of_union; by right|]. split.
        { intros z Hz. apply Hsup in Hz. unfold pending_events in *. simpl.
          rewrite !elem_of_union in *. tauto. }
        intros Hno t Ht. apply elem_of_cons in Ht as [[= ->] | Ht].
        -- unfold wait_returns. apply Hsub, elem_of_union. left.
           by apply elem_of_singleton.
        -- by apply Hall.
    + match goal with |- context [_updateLoop _ fuel ?s1 ?w1] =>
          destruct (IH fuel s1 w1) as (s' & w' & Hl & Hq' & Hr' & Hsub & Hsup & Hall);
            [reflexivity | exact Hr | lia |] end.
      exists s', w'. split; [exact Hl|]. split; [done|]. split; [done|].
      split; [exact Hsub|]. split; [exact Hsup|].
      intros Hno t Ht. apply elem_of_cons in Ht as [[=] | Ht]. by apply Hall.
Qed.

(** X3. When no refresh raises, the running update loop, given more
    iterations than there are pending items, completes every pending task:
    it blocks on the empty deque with the event of each of them set. *)
Theorem updateLoop_releases_every_waiter (fuel : nat) (s : Server) (w : W) :
  (∀ c p w0, (updateRepo c p w0).1 = None) →
  _running s = true →
  length (queue (update_queue s)) < fuel →
  ∃ s' w', _updateLoop updateRepo fuel s w = (Blocked, s', w')
    ∧ queue (update_queue s') = []
    ∧ ∀ t, Some t ∈ queue (update_queue s) → wait_returns t s'.
Proof.
  intros Hno Hr Hf.
  destruct (updateLoop_drains (queue (update_queue s)) fuel s w eq_refl Hr Hf)
    as (s' & w' & Hl & Hq & _ & _ & _ & Hall).
  exists s', w'. split; [exact Hl|]. split; [exact Hq|]. by apply Hall.
Qed.

(** X4. The update loop outlives the failures of the merge engine:
    whatever the refreshes do, the running loop empties the deque and
    blocks; no event that was set is reset, and the events it sets are
    events of tasks that were pending. *)
Theorem updateLoop_drains_despite_failures (fuel : nat) (s : Server) (w : W) :
  _running s = true →
  length (queue (update_queue s)) < fuel →
  ∃ s' w', _updateLoop updateRepo fuel s w = (Blocked, s', w')
    ∧ queue (update_queue s') = []
    ∧ events s ⊆ events s'
    ∧ events s' ⊆ events s ∪ pending_events (queue (update_queue s)).
Proof.
  intros Hr Hf.
  destruct (updateLoop_drains (queue (update_queue s)) fuel s w eq_refl Hr Hf)
    as (s' & w' & Hl & Hq & _ & Hsub & Hsup & _).
  by exists s', w'.
Qed.

End Drain.

Lemma updateLoop_releases_every_waiter_witness :
  ∃ s' w', _updateLoop working_updateRepo 3 server_AB tt = (Blocked, s', w')
    ∧ queue (update_queue s') = []
    ∧ ∀ t, Some t ∈ queue (update_queue server_AB) → wait_returns t s'.
Proof.
  apply (updateLoop_releases_every_waiter working_updateRepo 3 server_AB tt).
  - intros c p w0. reflexivity.
  - reflexivity.
  - simpl. lia.
Defined.

Lemma updateLoop_drains_despite_failures_witness :
  ∃ s' w', _updateLoop failing_updateRepo 3 server_AB tt = (Blocked, s', w')
    ∧ queue (update_queue s') = []
    ∧ events server_AB ⊆ events s'
    ∧ events s' ⊆ events server_AB ∪ pending_events (queue (update_queue server_AB)).
Proof.
  apply (updateLoop_drains_despite_failures failing_updateRepo 3 server_AB tt).
  - reflexivity.
  - simpl. lia.
Defined.

End RepoSyncFacts.

(** * Properties of branch selection *)

Module BranchesFacts.
Import Branches Examples.

(** [first_existing] returns the first candidate that names a branch. *)
Lemma first_existing_spec (cands : list (option string)) branches b :
  first_existing cands branches = Some b ↔
  ∃ i, cands !! i = Some (Some b) ∧ b ∈ branches
       ∧ ∀ j c, j < i → cands !! j = Some (Some c) → c ∉ branches.
Proof.
  revert b. induction cands as [|c cands IH]; intros b; simpl.
  { split; [done|]. intros (i & Hi & _). by rewrite lookup_nil in Hi. }
  unfold among at 1. destruct c as [c|].
  - case_bool_decide as Hc.
    + split.
      * intros [= <-]. exists 0. split; [done|]. split; [done|]. lia.
      * intros (i & Hi & Hb & Hlt). destruct i as [|i]; [by injection Hi as ->|].
        exfalso. by apply (Hlt 0 c); [lia|..].
    + rewrite IH. split.
      * intros (i & Hi & Hb & Hlt). exists (S i). split; [done|]. split; [done|].
        intros [|j] c' Hj Hc'; simpl in Hc'.
        -- by injection Hc' as <-.
        -- apply (Hlt j); [lia | done].
      * intros (i & Hi & Hb & Hlt). destruct i as [|i].
        { injection Hi as ->. done. }
        exists i. split; [done|]. split; [done|].
        intros j c' Hj Hc'. apply (Hlt (S j)); [lia | done].
  - rewrite IH. split.
    + intros (i & Hi & Hb & Hlt). exists (S i). split; [done|]. split; [done|].
      intros [|j] c' Hj Hc'; simpl in Hc'; [done|].
      apply (Hlt j); [lia | done].
    + intros (i & Hi & Hb & Hlt). destruct i as [|i]; [done|].
      exists i. split; [done|]. split; [done|].
      intros j c' Hj Hc'. apply (Hlt (S j)); [lia | done].
Qed.

Lemma among_truthy (x : option string) branches b :
  "" ∉ branches → among x branches = Some b → truthy x = true.
Proof.
  intros Hne. unfold among, truthy. destruct x as [s|]; [|done].
  case_bool_decide as Hs; [|done]. intros [= <-].
  case_bool_decide as He; [|done]. by subst.
Qed.

(** C9. In a repository (no branch has the empty name), [checkoutBranch]
    checks out the first branch that exists, looking at the project
    override branch, the job branch, the zuul branch and the project
    default branch in this order; if only the default branch exists it is
    the one checked out; if none of the four exists it raises
    [ExecutorError]. *)
Theorem checkoutBranch_priority (repo : Repo) (project_name : string)
    (zuul_branch job_branch project_override_branch
       project_default_branch : option string) :
  "" ∉ getBranches repo →
  match first_existing
          (candidates zuul_branch job_branch project_override_branch
             project_default_branch) (getBranches repo) with
  | Some b =>
      ∃ msg, checkoutBranch repo project_name zuul_branch job_branch
               project_override_branch project_default_branch
             = inr (checkoutLocalBranch b repo, msg)
  | None =>
      ∃ msg, checkoutBranch repo project_name zuul_branch job_branch
               project_override_branch project_default_branch
             = inl (ExecutorError msg)
  end
  ∧ (∀ b, among project_override_branch (getBranches repo) = None →
          among job_branch (getBranches repo) = None →
          among zuul_branch (getBranches repo) = None →
          project_default_branch = Some b → b ∈ getBranches repo →
          ∃ msg, checkoutBranch repo project_name zuul_branch job_branch
                   project_override_branch project_default_branch
                 = inr (checkoutLocalBranch b repo, msg)).
Proof.
  intros Hne. split.
  - unfold checkoutBranch, candidates. simpl.
    destruct (among project_override_branch _) as [b|]; [eauto|].
    destruct (among job_branch _) as [b|]; [eauto|].
    destruct (among zuul_branch _) as [b|] eqn:Hz.
    + rewrite (among_truthy _ _ _ Hne Hz). eauto.
    + destruct (truthy zuul_branch);
        destruct (among project_default_branch _); eauto.
  - intros b Ho Hj Hz -> Hb. unfold checkoutBranch. rewrite Ho, Hj, Hz.
    destruct (truthy zuul_branch); simpl; rewrite bool_decide_eq_true_2 by done;
      eauto.
Qed.

Lemma checkoutBranch_priority_witness :
  ∃ msg, checkoutBranch repo_master_only "org/project"
           (Some "feature") (Some "stable") None (Some "master")
         = inr (checkoutLocalBranch "master" repo_master_only, msg).
Proof.
  assert ("" ∉ getBranches repo_master_only) as Hne.
  { apply (bool_decide_unpack _). vm_compute. exact I. }
  apply (proj2 (checkoutBranch_priority repo_master_only "org/project"
                  (Some "feature") (Some "stable") None (Some "master") Hne)
           "master").
  - reflexivity.
  - reflexivity.
  - reflexivity.
  - reflexivity.
  - apply (bool_decide_unpack _). vm_compute. exact I.
Defined.

(** [among] names a branch only when it is the candidate and exists. *)
Lemma among_Some (x : option string) branches b :
  among x branches = Some b → x = Some b ∧ b ∈ branches.
Proof.
  unfold among. destruct x as [c|]; [|done].
  case_bool_decide; [|done]. by intros [= <-].
Qed.

(** X5. [checkoutBranch] never checks out a branch the repository does
    not have: when it returns, the branch checked out is one of the four
    candidates and a branch of the repository, whose branches are as
    before; when it raises, it is the [ExecutorError] naming the project
    and its default branch, and neither the override branch, the job
    branch nor the default branch exists. *)
Theorem checkoutBranch_existing_branch_only (repo : Repo) (project_name : string)
    (zuul_branch job_branch project_override_branch
       project_default_branch : option string) :
  match checkoutBranch repo project_name zuul_branch job_branch
          project_override_branch project_default_branch with
  | inr (repo', _) =>
      ∃ b, head repo' = Some b
           ∧ b ∈ getBranches repo
           ∧ Some b ∈ candidates zuul_branch job_branch
                        project_override_branch project_default_branch
           ∧ getBranches repo' = getBranches repo
  | inl e =>
      e = ExecutorError ("Project " +:+ project_name +:+
                         " does not have the default branch " +:+
                         py_str project_default_branch)
      ∧ among project_override_branch (getBranches repo) = None
      ∧ among job_branch (getBranches repo) = None
      ∧ among project_default_branch (getBranches repo) = None
  end.
Proof.
  unfold checkoutBranch, candidates.
  destruct (among project_override_branch _) as [b|] eqn:Ho.
  { apply among_Some in Ho as [-> Hb]. exists b. simpl.
    split; [done|]. split; [done|]. split; [|done]. set_solver. }
  destruct (among job_branch _) as [b|] eqn:Hj.
  { apply among_Some in Hj as [-> Hb]. exists b. simpl.
    split; [done|]. split; [done|]. split; [|done]. set_solver. }
  destruct (if truthy zuul_branch then among zuul_branch _ else None)
    as [b|] eqn:Hz.
  { destruct (truthy zuul_branch); [|done].
    apply among_Some in Hz as [-> Hb]. exists b. simpl.
    split; [done|]. split; [done|]. split; [|done]. set_solver. }
  destruct (among project_default_branch _) as [b|] eqn:Hd.
  { apply among_Some in Hd as [-> Hb]. exists b. simpl.
    split; [done|]. split; [done|]. split; [|done]. set_solver. }
  done.
Qed.

End BranchesFacts.

(** * Properties of the phases *)

Module PhasesFacts.
Import Phases Examples.

Lemma pre_events_nil index pbs : pre_events index pbs [] = [].
Proof. by destruct pbs. Qed.

Lemma post_events_nil success index pbs : post_events success index pbs [] = [].
Proof. by destruct pbs. Qed.

Lemma pre_events_phase index pbs rcs e :
  e ∈ pre_events index pbs rcs → ev_phase e = Some "pre".
Proof.
  revert index rcs. induction pbs as [|pb pbs IH]; intros index [|rc rcs] He;
    simpl in He; try by apply elem_of_nil in He.
  apply elem_of_cons in He as [-> | He]; [done | by eapply IH].
Qed.

Lemma post_events_phase success index pbs rcs e :
  e ∈ post_events success index pbs rcs →
  ev_phase e = Some "post" ∧ ev_success e = Some success.
Proof.
  revert index rcs. induction pbs as [|pb pbs IH]; intros index [|rc rcs] He;
    simpl in He; try by apply elem_of_nil in He.
  apply elem_of_cons in He as [-> | He]; [done | by eapply IH].
Qed.

(** Every result of a post phase that ran all its playbooks is the result
    of one of its events. *)
Lemma post_events_complete success index pbs rcs rc :
  length rcs ≤ length pbs → rc ∈ rcs →
  ∃ e, e ∈ post_events success index pbs rcs ∧ ev_result e = rc.
Proof.
  revert index rcs. induction pbs as [|pb pbs IH]; intros index [|rc' rcs] Hlen Hrc;
    simpl in *; try (by apply elem_of_nil in Hrc); try lia.
  apply elem_of_cons in Hrc as [-> | Hrc].
  - eexists. split; [left | done].
  - destruct (IH (S index) rcs ltac:(lia) Hrc) as (e & He & Hr).
    exists e. split; [by right | done].
Qed.

Lemma pre_events_result index pbs rcs e :
  e ∈ pre_events index pbs rcs → ev_result e ∈ rcs.
Proof.
  revert index rcs. induction pbs as [|pb pbs IH]; intros index [|rc rcs] He;
    simpl in He; try by apply elem_of_nil in He.
  apply elem_of_cons in He as [-> | He]; [left | right; by eapply IH].
Qed.

Lemma post_events_result success index pbs rcs e :
  e ∈ post_events success index pbs rcs → ev_result e ∈ rcs.
Proof.
  revert index rcs. induction pbs as [|pb pbs IH]; intros index [|rc rcs] He;
    simpl in He; try by apply elem_of_nil in He.
  apply elem_of_cons in He as [-> | He]; [left | right; by eapply IH].
Qed.

(** The [i]-th event is the one of the [i]-th playbook. *)
Lemma pre_events_lookup index pbs rcs i e :
  pre_events index pbs rcs !! i = Some e ↔
  ∃ pb rc, pbs !! i = Some pb ∧ rcs !! i = Some rc
           ∧ e = mkEvent pb None (Some "pre") (Some (index + i)) rc.
Proof.
  revert index rcs i. induction pbs as [|pb pbs IH]; intros index rcs i.
  { simpl. split; [done | by intros (? & ? & ? & _)]. }
  destruct rcs as [|rc rcs].
  { simpl. split; [done|]. intros (? & ? & _ & Hrc & _).
    by rewrite lookup_nil in Hrc. }
  destruct i as [|i]; simpl.
  - rewrite Nat.add_0_r. split.
    + intros [= <-]. eauto.
    + by intros (? & ? & [= <-] & [= <-] & ->).
  - rewrite IH. by replace (S index + i) with (index + S i) by lia.
Qed.

Lemma post_events_lookup success index pbs rcs i e :
  post_events success index pbs rcs !! i = Some e ↔
  ∃ pb rc, pbs !! i = Some pb ∧ rcs !! i = Some rc
           ∧ e = mkEvent pb (Some success) (Some "post") (Some (index + i)) rc.
Proof.
  revert index rcs i. induction pbs as [|pb pbs IH]; intros index rcs i.
  { simpl. split; [done | by intros (? & ? & ? & _)]. }
  destruct rcs as [|rc rcs].
  { simpl. split; [done|]. intros (? & ? & _ & Hrc & _).
    by rewrite lookup_nil in Hrc. }
  destruct i as [|i]; simpl.
  - rewrite Nat.add_0_r. split.
    + intros [= <-]. eauto.
    + by intros (? & ? & [= <-] & [= <-] & ->).
  - rewrite IH. by replace (S index + i) with (index + S i) by lia.
Qed.

Section Facts.

Context {W : Type}.
Variable is_aborted : W → bool.
Variable popen : Invocation → W → Proc * W.
Variable now : W → string * W.
Variable verbose : bool.
Variable jobdir : JobDir.t.

Abbreviation Run := (@Run W).
Abbreviation stamped := (stamped now).
Abbreviation runAnsible := (runAnsible is_aborted popen now).
Abbreviation runAnsiblePlaybook :=
  (runAnsiblePlaybook is_aborted popen now verbose jobdir).
Abbreviation run_pre := (run_pre is_aborted popen now verbose jobdir).
Abbreviation run_post := (run_post is_aborted popen now verbose jobdir).
Abbreviation runPlaybooks := (runPlaybooks is_aborted popen now verbose jobdir).

Lemma write_lines (texts : list string) (st : Run) :
  for_each texts (write_job_output now) st =
    (inr tt, {| world := (stamped texts (world st)).2;
                launched := launched st; calls := calls st;
                job_output := job_output st ++ (stamped texts (world st)).1 |}).
Proof.
  revert st. induction texts as [|text texts IH]; intros st; simpl.
  { unfold ret. rewrite app_nil_r. destruct st. reflexivity. }
  unfold bind, write_job_output.
  destruct (now (world st)) as [stamp w1]. rewrite IH. simpl.
  destruct (stamped texts w1) as [out w2]. simpl.
  by rewrite <- app_assoc.
Qed.

(** [runAnsible], case by case. *)
Lemma runAnsible_cases cmd timeout config_file trusted (st : Run) :
  let inv := invocation cmd timeout config_file trusted in
  let proc := (popen inv (world st)).1 in
  let w1 := (popen inv (world st)).2 in
  let st1 := {| world := w1; launched := launched st ++ [inv];
                calls := calls st; job_output := job_output st |} in
  runAnsible cmd timeout config_file trusted st =
    if is_aborted (world st) then (inr (RESULT_ABORTED, None), st)
    else if negb (forallb (λ c : option string, bool_decide (is_Some c)) cmd)
    then (inl (Exception "TypeError"), st)
    else if timeout_set timeout && flag_set (timed_out proc)
    then (inr (RESULT_TIMED_OUT, None), st1)
    else if bool_decide (returncode proc = 3%Z)
    then (inr (RESULT_UNREACHABLE, None), st1)
    else if bool_decide (returncode proc = (-9)%Z)
    then (inr (RESULT_ABORTED, None), st1)
    else if bool_decide (returncode proc = 4%Z)
    then (inr (RESULT_NORMAL, Some (returncode proc)),
          {| world := (stamped ("ANSIBLE PARSE ERROR"
                                  :: take BUFFER_LINES_FOR_SYNTAX (stdout proc)) w1).2;
             launched := launched st ++ [inv]; calls := calls st;
             job_output := job_output st ++
               (stamped ("ANSIBLE PARSE ERROR"
                           :: take BUFFER_LINES_FOR_SYNTAX (stdout proc)) w1).1 |})
    else (inr (RESULT_NORMAL, Some (returncode proc)), st1).
Proof.
  intros inv proc w1 st1. unfold Phases.runAnsible, bind, gets.
  destruct (is_aborted (world st)); [done|].
  destruct (negb (forallb _ cmd)); [done|].
  unfold launch. subst proc w1 st1 inv. unfold invocation.
  destruct (popen _ (world st)) as [proc w1]. simpl.
  destruct (timeout_set timeout && flag_set (timed_out proc)); [done|].
  destruct (bool_decide (returncode proc = 3%Z)); [done|].
  destruct (bool_decide (returncode proc = (-9)%Z)); [done|].
  destruct (bool_decide (returncode proc = 4%Z)); [|done].
  pose proof (write_lines ("ANSIBLE PARSE ERROR"
                :: take BUFFER_LINES_FOR_SYNTAX (stdout proc))
                {| world := w1;
                   launched := launched st ++
                     [{| cmd := cmd; timeout := timeout;
                         config_file := config_file; inv_trusted := trusted |}];
                   calls := calls st; job_output := job_output st |}) as Hw.
  simpl in Hw. unfold bind in Hw. simpl.
  destruct (write_job_output now "ANSIBLE PARSE ERROR" _) as [[e|[]] st2];
    [discriminate Hw|].
  rewrite Hw. done.
Qed.

Lemma forallb_is_Some (cmd : list (option string)) :
  forallb (λ c : option string, bool_decide (is_Some c)) cmd = true
  ↔ Forall is_Some cmd.
Proof.
  rewrite forallb_forall, Forall_forall.
  split; intros H c Hc.
  - apply list_elem_of_In in Hc. apply H in Hc. by apply bool_decide_eq_true in Hc.
  - apply bool_decide_eq_true. apply H. by apply list_elem_of_In.
Qed.

(** C10. [runAnsible] returns a pair whenever its command is a list of
    strings. What it returns has one of the four classifications, each a
    key of [RESULT_MAP]; the second component is [None] when the
    classification is not [RESULT_NORMAL]; when it is [RESULT_NORMAL]
    the subprocess was launched and the second component is its exit
    status as [proc.wait()] gave it, and exactly for the status 4 the
    heading line and the retained first [BUFFER_LINES_FOR_SYNTAX] output
    lines are appended to the job output file. *)
Theorem runAnsible_classification cmd timeout config_file trusted (st : Run) :
  (Forall is_Some cmd →
   ∃ rc st', runAnsible cmd timeout config_file trusted st = (inr rc, st'))
  ∧ ∀ status code st',
      runAnsible cmd timeout config_file trusted st = (inr (status, code), st') →
      status ∈ [RESULT_NORMAL; RESULT_TIMED_OUT; RESULT_UNREACHABLE; RESULT_ABORTED]
      ∧ is_Some (RESULT_MAP status)
      ∧ (status ≠ RESULT_NORMAL → code = None)
      ∧ (status = RESULT_NORMAL →
         let inv := invocation cmd timeout config_file trusted in
         let proc := (popen inv (world st)).1 in
         launched st' = launched st ++ [inv]
         ∧ code = Some (returncode proc)
         ∧ job_output st' = job_output st ++
             if bool_decide (returncode proc = 4%Z)
             then (stamped ("ANSIBLE PARSE ERROR"
                              :: take BUFFER_LINES_FOR_SYNTAX (stdout proc))
                     (popen inv (world st)).2).1
             else []).
Proof.
  rewrite runAnsible_cases. split.
  - intros Hcmd. apply forallb_is_Some in Hcmd. rewrite Hcmd. simpl.
    repeat match goal with |- context [if ?b then _ else _] => destruct b end;
      eauto.
  - intros status code st'.
    repeat match goal with |- context [if ?b then _ else _] =>
             destruct b eqn:? end;
      intros [= <- <- <-]; (split; [set_solver|]); (split; [by eexists|]);
      (split; [done|]); intros Hn; try discriminate Hn; simpl.
    + match goal with H : bool_decide (_ = 4%Z) = true |- _ =>
        cbv zeta; rewrite H end. done.
    + match goal with H : bool_decide (_ = 4%Z) = false |- _ =>
        cbv zeta; rewrite H end. by rewrite app_nil_r.
Qed.

(** On a command that is a list of strings [runAnsible] returns; the
    classification is a key of [RESULT_MAP], and the status is [None]
    unless it is [RESULT_NORMAL]. *)
Lemma runAnsible_returns cmd timeout config_file trusted (st : Run) :
  Forall is_Some cmd →
  ∃ status code st',
    runAnsible cmd timeout config_file trusted st = (inr (status, code), st')
    ∧ is_Some (RESULT_MAP status)
    ∧ (status ≠ RESULT_NORMAL → code = None).
Proof.
  intros Hcmd. apply forallb_is_Some in Hcmd.
  rewrite runAnsible_cases, Hcmd. simpl.
  repeat match goal with |- context [if ?b then _ else _] => destruct b end;
    eexists _, _, _; (split; [reflexivity|]); (split; [by eexists | done]).
Qed.

(** [runAnsible] leaves the record of finished calls alone. *)
Lemma runAnsible_calls cmd timeout config_file trusted (st : Run) r st' :
  runAnsible cmd timeout config_file trusted st = (r, st') →
  calls st' = calls st.
Proof.
  rewrite runAnsible_cases.
  repeat match goal with |- context [if ?b then _ else _] => destruct b end;
    by intros [= <- <-].
Qed.

(** A call of [runAnsiblePlaybook] on a prepared playbook returns and is
    recorded, with the arguments it was made with. *)
Lemma runAnsiblePlaybook_event pb timeout success phase index (st : Run) :
  prepared pb →
  ∃ rc st',
    runAnsiblePlaybook (Some pb) timeout success phase index st = (inr rc, st')
    ∧ calls st' = calls st ++ [mkEvent pb success phase index rc]
    ∧ (rc.1 ≠ RESULT_NORMAL → rc.2 = None).
Proof.
  intros [path Hpath]. unfold Phases.runAnsiblePlaybook. rewrite Hpath.
  match goal with |- context [Phases.runAnsible _ _ _ ?c _ _ _] =>
    set (cmd := c) end.
  assert (Forall is_Some cmd) as Hcmd.
  { subst cmd.
    destruct (JobDir.has_secrets jobdir), success, (truthy phase), index;
      repeat (apply Forall_app; split); repeat constructor; by eexists. }
  destruct (runAnsible_returns cmd timeout
              (JobDirPlaybook.ansible_config pb) (JobDirPlaybook.trusted pb) st
              Hcmd) as (status & code & st1 & Hrun & [name Hname] & Hnone).
  unfold bind. rewrite Hrun. simpl. rewrite Hname. unfold modify, ret. simpl.
  eexists _, _. split; [done|]. simpl.
  by rewrite (runAnsible_calls _ _ _ _ _ _ _ Hrun).
Qed.

Lemma run_pre_cons timeout index pb pbs :
  run_pre timeout index (pb :: pbs) =
    bind (runAnsiblePlaybook (Some pb) timeout None (Some "pre") (Some index))
         (λ rc, if failed rc then ret true else run_pre timeout (S index) pbs).
Proof. reflexivity. Qed.

Lemma run_post_cons timeout success pre_failed index pb pbs result :
  run_post timeout success pre_failed index (pb :: pbs) result =
    bind (runAnsiblePlaybook (Some pb) timeout (Some success) (Some "post")
            (Some index))
         (λ rc, run_post timeout success pre_failed (S index) pbs
                  (if failed rc && negb pre_failed then Some "POST_FAILURE"
                   else result)).
Proof. reflexivity. Qed.

(** The pre loop: it runs the playbooks in order up to the first that
    fails, or all of them. [rcs] are the results, in order. *)
Lemma run_pre_trace timeout pbs : ∀ index (st : Run),
  Forall prepared pbs →
  ∃ pre_failed st' rcs,
    run_pre timeout index pbs st = (inr pre_failed, st')
    ∧ calls st' = calls st ++ pre_events index pbs rcs
    ∧ length rcs ≤ length pbs
    ∧ (∀ i rc, rcs !! i = Some rc →
         failed rc = bool_decide (pre_failed = true ∧ S i = length rcs))
    ∧ (pre_failed = true → 0 < length rcs)
    ∧ (pre_failed = false → length rcs = length pbs).
Proof.
  induction pbs as [|pb pbs IH]; intros index st Hprep.
  { exists false, st, []. simpl. rewrite app_nil_r.
    split; [done|]. split; [done|]. split; [done|].
    split; [by intros i rc; rewrite lookup_nil|]. done. }
  apply Forall_cons in Hprep as [Hpb Hpbs]. rewrite run_pre_cons.
  destruct (runAnsiblePlaybook_event pb timeout None (Some "pre")
              (Some index) st Hpb) as (rc & st1 & Hrun & Hcalls & _).
  unfold bind. rewrite Hrun.
  destruct (failed rc) eqn:Hf.
  - exists true, st1, [rc]. simpl. rewrite pre_events_nil.
    split; [done|]. split; [done|].
    split; [lia|]. split; [|split; [lia | done]].
    intros [|i] rc'; simpl; [|by rewrite lookup_nil].
    intros [= <-]. rewrite Hf.
    first [done | symmetry; by apply bool_decide_eq_true_2].
  - destruct (IH (S index) st1 Hpbs)
      as (b & st' & rcs & Hrest & Hc & Hlen & Hfail & Hpos & Hall).
    exists b, st', (rc :: rcs). split; [done|]. simpl.
    split; [by rewrite Hc, Hcalls, <- app_assoc|].
    split; [lia|]. split; [|split; [lia | intros Hb; rewrite Hall; done]].
    intros [|i] rc'; simpl.
    + intros [= <-]. rewrite Hf. symmetry. apply bool_decide_eq_false_2.
      intros [-> Hl]. specialize (Hpos eq_refl). lia.
    + intros Hi. rewrite (Hfail i rc' Hi). apply bool_decide_ext.
      intuition lia.
Qed.

(** The post loop: it runs every playbook, in order; the result turns to
    [POST_FAILURE] when one fails, unless the pre phase had failed. *)
Lemma run_post_trace timeout success pre_failed pbs : ∀ index result (st : Run),
  Forall prepared pbs →
  ∃ st' rcs,
    run_post timeout success pre_failed index pbs result st
      = (inr (if negb pre_failed && existsb failed rcs
              then Some "POST_FAILURE" else result), st')
    ∧ calls st' = calls st ++ post_events success index pbs rcs
    ∧ length rcs = length pbs.
Proof.
  induction pbs as [|pb pbs IH]; intros index result st Hprep.
  { exists st, []. simpl. rewrite app_nil_r, andb_false_r. done. }
  apply Forall_cons in Hprep as [Hpb Hpbs]. rewrite run_post_cons.
  destruct (runAnsiblePlaybook_event pb timeout (Some success) (Some "post")
              (Some index) st Hpb) as (rc & st1 & Hrun & Hcalls & _).
  unfold bind. rewrite Hrun.
  destruct (IH (S index)
              (if failed rc && negb pre_failed then Some "POST_FAILURE"
               else result) st1 Hpbs) as (st' & rcs & Hrest & Hc & Hlen).
  exists st', (rc :: rcs). rewrite Hrest. simpl.
  split; [|split; [by rewrite Hc, Hcalls, <- app_assoc | lia]].
  f_equal. f_equal.
  destruct pre_failed, (failed rc), (existsb failed rcs); done.
Qed.

(** The whole of [runPlaybooks] on a ready job directory: the pre phase
    failed (A), the main playbook ended with a classification that is not
    normal (B), or it ended normally (C). *)
Lemma runPlaybooks_trace timeout (st : Run) :
  ready jobdir →
  ∃ pb res st' rcs_pre,
    JobDir.selected jobdir = Some pb
    ∧ runPlaybooks timeout st = (inr res, st')
    ∧ length rcs_pre ≤ length (JobDir.pre_playbooks jobdir)
    ∧ ((* A *)
       (0 < length rcs_pre
        ∧ (∀ i rc, rcs_pre !! i = Some rc →
             failed rc = bool_decide (S i = length rcs_pre))
        ∧ ∃ rcs_post,
            calls st' = calls st
              ++ pre_events 0 (JobDir.pre_playbooks jobdir) rcs_pre
              ++ post_events false 0 (JobDir.post_playbooks jobdir) rcs_post
            ∧ length rcs_post = length (JobDir.post_playbooks jobdir)
            ∧ res = None)
       ∨ (* B *)
       ((∀ rc, rc ∈ rcs_pre → failed rc = false)
        ∧ length rcs_pre = length (JobDir.pre_playbooks jobdir)
        ∧ ∃ rc,
            calls st' = calls st
              ++ pre_events 0 (JobDir.pre_playbooks jobdir) rcs_pre
              ++ [run_event pb rc]
            ∧ rc.1 ≠ RESULT_NORMAL
            ∧ res = if bool_decide (rc.1 = RESULT_TIMED_OUT) then Some "TIMED_OUT"
                    else if bool_decide (rc.1 = RESULT_ABORTED) then Some "ABORTED"
                    else None)
       ∨ (* C *)
       ((∀ rc, rc ∈ rcs_pre → failed rc = false)
        ∧ length rcs_pre = length (JobDir.pre_playbooks jobdir)
        ∧ ∃ code rcs_post,
            calls st' = calls st
              ++ pre_events 0 (JobDir.pre_playbooks jobdir) rcs_pre
              ++ [run_event pb (RESULT_NORMAL, code)]
              ++ post_events (bool_decide (code = Some 0%Z)) 0
                   (JobDir.post_playbooks jobdir) rcs_post
            ∧ length rcs_post = length (JobDir.post_playbooks jobdir)
            ∧ res = if existsb failed rcs_post then Some "POST_FAILURE"
                    else if bool_decide (code = Some 0%Z) then Some "SUCCESS"
                    else Some "FAILURE")).
Proof.
  intros (Hpre & Hpost & pb & Hsel & Hpb). exists pb.
  unfold Phases.runPlaybooks.
  destruct (run_pre_trace timeout _ 0 st Hpre)
    as (pre_failed & st1 & rcs & Hrun & Hc & Hlen & Hfail & Hpos & Hall).
  unfold bind at 1. rewrite Hrun. destruct pre_failed.
  - destruct (run_post_trace timeout false true _ 0 None st1 Hpost)
      as (st' & rcs_post & Hrp & Hcp & Hlp).
    rewrite Hrp. simpl. exists None, st', rcs.
    split; [done|]. split; [done|]. split; [done|]. left.
    split; [by apply Hpos|]. split.
    { intros i rc Hi. rewrite (Hfail i rc Hi). apply bool_decide_ext. tauto. }
    exists rcs_post. by rewrite Hcp, Hc, <- app_assoc.
  - assert (∀ rc, rc ∈ rcs → failed rc = false) as Hok.
    { intros rc [i Hi]%list_elem_of_lookup. rewrite (Hfail i rc Hi).
      apply bool_decide_eq_false_2. by intros [? _]. }
    rewrite Hsel.
    destruct (runAnsiblePlaybook_event pb timeout None (Some "run") None st1 Hpb)
      as ([status code] & st2 & Hmain & Hcm & Hnone).
    unfold bind. rewrite Hmain. simpl in Hnone.
    case_bool_decide as Ht.
    { exists (Some "TIMED_OUT"), st2, rcs.
      split; [done|]. split; [done|]. split; [done|]. right. left.
      split; [done|]. split; [by apply Hall|]. exists (status, code).
      split; [by rewrite Hcm, Hc, <- app_assoc|]. simpl.
      split; [by rewrite Ht|]. by rewrite bool_decide_eq_true_2. }
    case_bool_decide as Ha.
    { exists (Some "ABORTED"), st2, rcs.
      split; [done|]. split; [done|]. split; [done|]. right. left.
      split; [done|]. split; [by apply Hall|]. exists (status, code).
      split; [by rewrite Hcm, Hc, <- app_assoc|]. simpl.
      split; [by rewrite Ha|].
      rewrite bool_decide_eq_false_2 by done. by rewrite bool_decide_eq_true_2. }
    case_bool_decide as Hn; simpl.
    + subst status.
      destruct (run_post_trace timeout (bool_decide (code = Some 0%Z)) false _ 0
                  (if bool_decide (code = Some 0%Z) then Some "SUCCESS"
                   else Some "FAILURE") st2 Hpost)
        as (st' & rcs_post & Hrp & Hcp & Hlp).
      rewrite Hrp. simpl. eexists _, st', rcs.
      split; [done|]. split; [done|]. split; [done|]. right. right.
      split; [done|]. split; [by apply Hall|]. exists code, rcs_post.
      split; [|done]. by rewrite Hcp, Hcm, Hc, <- !app_assoc.
    + exists None, st2, rcs.
      split; [done|]. split; [done|]. split; [done|]. right. left.
      split; [done|]. split; [by apply Hall|]. exists (status, code).
      split; [by rewrite Hcm, Hc, <- app_assoc|]. simpl.
      split; [done|]. by rewrite !bool_decide_eq_false_2.
Qed.

Lemma existsb_failed (rcs : list (Z * option Z)) :
  existsb failed rcs = true ↔ ∃ rc, rc ∈ rcs ∧ failed rc = true.
Proof.
  rewrite existsb_exists. split; intros (rc & Hin & Hf); exists rc;
    (split; [by apply list_elem_of_In | done]).
Qed.

(** A run in which a pre playbook failed has no result. *)
Lemma pre_failure_result timeout (w : W) res (st' : Run) :
  ready jobdir →
  runPlaybooks timeout (start w) = (res, st') →
  (∃ ev, ev ∈ calls st' ∧ ev_phase ev = Some "pre"
         ∧ failed (ev_result ev) = true) →
  res = inr None.
Proof.
  intros Hready Hrun (ev & Hev & Hphase & Hfailed).
  destruct (runPlaybooks_trace timeout (start w) Hready)
    as (pb & res' & st'' & rcs & _ & Hrun' & Hlen & Hcase).
  rewrite Hrun in Hrun'. injection Hrun' as -> <-. simpl in Hcase.
  destruct Hcase as [(_ & _ & rcs_post & _ & _ & ->)
                    |[(Hok & _ & rc & Hc & _)
                     |(Hok & _ & code & rcs_post & Hc & _)]]; [done|..].
  - exfalso. rewrite Hc in Hev. apply elem_of_app in Hev as [He | He].
    + apply pre_events_result in He. rewrite (Hok _ He) in Hfailed. done.
    + apply list_elem_of_singleton in He. subst ev. done.
  - exfalso. rewrite Hc in Hev. apply elem_of_app in Hev as [He | He].
    + apply pre_events_result in He. rewrite (Hok _ He) in Hfailed. done.
    + apply elem_of_cons in He as [-> | He]; [done|].
      by rewrite (proj1 (post_events_phase _ _ _ _ _ He)) in Hphase.
Qed.

(** C1. When a pre playbook of a prepared job ends with a classification
    that is not normal or with an exit code that is not zero, the pre
    phase stops there (the failing playbook is the last pre playbook
    run, all before it succeeded), the main playbook is not run, every
    post playbook is run, in order, with [success=False], and the result
    is [None]. *)
Theorem pre_failure_skips_main timeout (w : W) res (st' : Run) :
  ready jobdir →
  runPlaybooks timeout (start w) = (res, st') →
  (∃ ev, ev ∈ calls st' ∧ ev_phase ev = Some "pre"
         ∧ failed (ev_result ev) = true) →
  res = inr None
  ∧ (∀ ev, ev ∈ calls st' → ev_phase ev ≠ Some "run")
  ∧ ∃ rcs_pre rcs_post,
      calls st' = pre_events 0 (JobDir.pre_playbooks jobdir) rcs_pre
                  ++ post_events false 0 (JobDir.post_playbooks jobdir) rcs_post
      ∧ 0 < length rcs_pre ≤ length (JobDir.pre_playbooks jobdir)
      ∧ (∀ i rc, rcs_pre !! i = Some rc →
           failed rc = bool_decide (S i = length rcs_pre))
      ∧ length rcs_post = length (JobDir.post_playbooks jobdir).
Proof.
  intros Hready Hrun (ev & Hev & Hphase & Hfailed).
  destruct (runPlaybooks_trace timeout (start w) Hready)
    as (pb & res' & st'' & rcs & _ & Hrun' & Hlen & Hcase).
  rewrite Hrun in Hrun'. injection Hrun' as -> <-. simpl in Hcase.
  destruct Hcase as [(Hpos & Hfail & rcs_post & Hc & Hlp & ->)
                    |[(Hok & _ & rc & Hc & _)
                     |(Hok & _ & code & rcs_post & Hc & _)]].
  - split; [done|]. split.
    + intros e He. rewrite Hc in He. apply elem_of_app in He as [He | He].
      * by rewrite (pre_events_phase _ _ _ _ He).
      * by rewrite (proj1 (post_events_phase _ _ _ _ _ He)).
    + exists rcs, rcs_post. split; [done|]. split; [lia|]. done.
  - exfalso. rewrite Hc in Hev. apply elem_of_app in Hev as [He | He].
    + apply pre_events_result in He. rewrite (Hok _ He) in Hfailed. done.
    + apply list_elem_of_singleton in He. subst ev. done.
  - exfalso. rewrite Hc in Hev. apply elem_of_app in Hev as [He | He].
    + apply pre_events_result in He. rewrite (Hok _ He) in Hfailed. done.
    + apply elem_of_cons in He as [-> | He]; [done|].
      by rewrite (proj1 (post_events_phase _ _ _ _ _ He)) in Hphase.
Qed.


(** C2. When the main playbook of a prepared job ends with a
    classification that is not normal, [runPlaybooks] returns at once: the
    main playbook is the last playbook run and no post playbook is run.
    The result is ['TIMED_OUT'] for [RESULT_TIMED_OUT], ['ABORTED'] for
    [RESULT_ABORTED] and [None] for any other classification. The pre
    phase had succeeded. *)
Theorem main_abnormal_returns_at_once timeout (w : W) res (st' : Run) ev :
  ready jobdir →
  runPlaybooks timeout (start w) = (res, st') →
  ev ∈ calls st' → ev_phase ev = Some "run" →
  (ev_result ev).1 ≠ RESULT_NORMAL →
  ((ev_result ev).1 = RESULT_TIMED_OUT → res = inr (Some "TIMED_OUT"))
  ∧ ((ev_result ev).1 = RESULT_ABORTED → res = inr (Some "ABORTED"))
  ∧ ((ev_result ev).1 ≠ RESULT_TIMED_OUT → (ev_result ev).1 ≠ RESULT_ABORTED →
     res = inr None)
  ∧ last (calls st') = Some ev
  ∧ (∀ e, e ∈ calls st' → ev_phase e ≠ Some "post")
  ∧ (∀ e, e ∈ calls st' → ev_phase e = Some "pre" →
       failed (ev_result e) = false).
Proof.
  intros Hready Hrun Hev Hphase Hnn.
  destruct (runPlaybooks_trace timeout (start w) Hready)
    as (pb & res' & st'' & rcs & _ & Hrun' & Hlen & Hcase).
  rewrite Hrun in Hrun'. injection Hrun' as -> <-. simpl in Hcase.
  destruct Hcase as [(Hpos & Hfail & rcs_post & Hc & Hlp & ->)
                    |[(Hok & _ & rc & Hc & Hrc & ->)
                     |(Hok & _ & code & rcs_post & Hc & _)]].
  - exfalso. rewrite Hc in Hev. apply elem_of_app in Hev as [He | He].
    + by rewrite (pre_events_phase _ _ _ _ He) in Hphase.
    + by rewrite (proj1 (post_events_phase _ _ _ _ _ He)) in Hphase.
  - assert (ev = run_event pb rc) as ->.
    { rewrite Hc in Hev. apply elem_of_app in Hev as [He | He].
      - by rewrite (pre_events_phase _ _ _ _ He) in Hphase.
      - by apply list_elem_of_singleton in He. }
    simpl in *. split.
    { intros Ht. by rewrite bool_decide_eq_true_2. }
    split.
    { intros Ha. rewrite bool_decide_eq_false_2; [by rewrite bool_decide_eq_true_2|].
      by rewrite Ha. }
    split. { intros Ht Ha. by rewrite !bool_decide_eq_false_2. }
    split; [by rewrite Hc, last_snoc|]. split.
    + intros e He. rewrite Hc in He. apply elem_of_app in He as [He | He].
      * by rewrite (pre_events_phase _ _ _ _ He).
      * apply list_elem_of_singleton in He. by subst e.
    + intros e He Hp. rewrite Hc in He. apply elem_of_app in He as [He | He].
      * apply Hok. by eapply pre_events_result.
      * apply list_elem_of_singleton in He. by subst e.
  - exfalso. rewrite Hc in Hev. apply elem_of_app in Hev as [He | He].
    + by rewrite (pre_events_phase _ _ _ _ He) in Hphase.
    + apply elem_of_cons in He as [-> | He]; [done|].
      by rewrite (proj1 (post_events_phase _ _ _ _ _ He)) in Hphase.
Qed.

(** C3. When the main playbook of a prepared job ended with the normal
    classification, the result is ['POST_FAILURE'] as soon as one post
    playbook ends with a classification that is not normal or an exit
    code that is not zero, whatever the main exit code was; with no
    failing post playbook it is ['SUCCESS'] for the main exit code zero
    and ['FAILURE'] otherwise. When a pre playbook had failed the result
    is [None], whatever the post playbooks do. *)
Theorem post_failure_overrides timeout (w : W) res (st' : Run) :
  ready jobdir →
  runPlaybooks timeout (start w) = (res, st') →
  (∀ ev, ev ∈ calls st' → ev_phase ev = Some "run" →
         (ev_result ev).1 = RESULT_NORMAL →
     ((∃ e, e ∈ calls st' ∧ ev_phase e = Some "post"
            ∧ failed (ev_result e) = true) →
      res = inr (Some "POST_FAILURE"))
     ∧ ((∀ e, e ∈ calls st' → ev_phase e = Some "post" →
              failed (ev_result e) = false) →
        res = inr (if bool_decide ((ev_result ev).2 = Some 0%Z)
                   then Some "SUCCESS" else Some "FAILURE")))
  ∧ ((∃ e, e ∈ calls st' ∧ ev_phase e = Some "pre"
           ∧ failed (ev_result e) = true) →
     res = inr None).
Proof.
  intros Hready Hrun. split.
  - intros ev Hev Hphase Hnormal.
    destruct (runPlaybooks_trace timeout (start w) Hready)
      as (pb & res' & st'' & rcs & _ & Hrun' & Hlen & Hcase).
    rewrite Hrun in Hrun'. injection Hrun' as -> <-. simpl in Hcase.
    destruct Hcase as [(Hpos & Hfail & rcs_post & Hc & Hlp & ->)
                      |[(Hok & _ & rc & Hc & Hrc & ->)
                       |(Hok & _ & code & rcs_post & Hc & Hlp & ->)]].
    + exfalso. rewrite Hc in Hev. apply elem_of_app in Hev as [He | He].
      * by rewrite (pre_events_phase _ _ _ _ He) in Hphase.
      * by rewrite (proj1 (post_events_phase _ _ _ _ _ He)) in Hphase.
    + exfalso. rewrite Hc in Hev. apply elem_of_app in Hev as [He | He].
      * by rewrite (pre_events_phase _ _ _ _ He) in Hphase.
      * apply list_elem_of_singleton in He. by subst ev.
    + assert (ev = run_event pb (RESULT_NORMAL, code)) as ->.
      { rewrite Hc in Hev. apply elem_of_app in Hev as [He | He].
        - by rewrite (pre_events_phase _ _ _ _ He) in Hphase.
        - apply elem_of_cons in He as [-> | He]; [done|].
          by rewrite (proj1 (post_events_phase _ _ _ _ _ He)) in Hphase. }
      simpl. split.
      * intros (e & He & Hp & Hf).
        assert (existsb failed rcs_post = true) as ->; [|done].
        apply existsb_failed. exists (ev_result e). split; [|done].
        rewrite Hc in He. apply elem_of_app in He as [He | He].
        { by rewrite (pre_events_phase _ _ _ _ He) in Hp. }
        apply elem_of_cons in He as [-> | He]; [done|].
        by eapply post_events_result.
      * intros Hnone.
        assert (existsb failed rcs_post = false) as ->; [|done].
        apply not_true_is_false. intros (rc & Hrc & Hf)%existsb_failed.
        destruct (post_events_complete (bool_decide (code = Some 0%Z)) 0
                    (JobDir.post_playbooks jobdir) rcs_post rc
                    ltac:(lia) Hrc) as (e & He & Hr).
        rewrite <- Hr, Hnone in Hf; [done| |].
        -- rewrite Hc. apply elem_of_app. right. by right.
        -- by apply (post_events_phase _ _ _ _ _ He).
  - intros Hpre.
    by apply (pre_failure_result timeout w res st' Hready Hrun Hpre).
Qed.

(** A property of the run state that every call of [runAnsiblePlaybook]
    keeps is kept by [runPlaybooks]. *)
Lemma runPlaybooks_invariant (I : Run → Prop) timeout :
  (∀ pb success phase index (st : Run) r st',
     runAnsiblePlaybook pb timeout success phase index st = (r, st') →
     I st → I st') →
  ∀ (st : Run) r st',
    runPlaybooks timeout st = (r, st') → I st → I st'.
Proof.
  intros Hstep.
  assert (∀ pbs index (st : Run) r st',
            run_pre timeout index pbs st = (r, st') → I st → I st') as Hpre.
  { induction pbs as [|pb pbs IH]; intros index st r st'.
    { by intros [= _ <-]. }
    rewrite run_pre_cons. unfold bind.
    destruct (runAnsiblePlaybook _ _ _ _ _ st) as [[e|rc] st1] eqn:E.
    - intros [= _ <-]. by eapply Hstep.
    - destruct (failed rc).
      + intros [= _ <-]. by eapply Hstep.
      + intros Hr Hst. eapply IH; [exact Hr|]. by eapply Hstep. }
  assert (∀ success pre_failed pbs index result (st : Run) r st',
            run_post timeout success pre_failed index pbs result st = (r, st') →
            I st → I st') as Hpost.
  { intros success pre_failed.
    induction pbs as [|pb pbs IH]; intros index result st r st'.
    { by intros [= _ <-]. }
    rewrite run_post_cons. unfold bind.
    destruct (runAnsiblePlaybook _ _ _ _ _ st) as [[e|rc] st1] eqn:E.
    - intros [= _ <-]. by eapply Hstep.
    - intros Hr Hst. eapply IH; [exact Hr|]. by eapply Hstep. }
  intros st r st'. unfold Phases.runPlaybooks, bind.
  destruct (run_pre timeout 0 _ st) as [[e|pre_failed] st1] eqn:E1.
  { intros [= _ <-]. by eapply Hpre. }
  destruct pre_failed.
  { intros Hr Hst. eapply Hpost; [exact Hr|]. by eapply Hpre. }
  destruct (runAnsiblePlaybook _ _ _ _ _ st1) as [[e|[status code]] st2] eqn:E2.
  { intros [= _ <-] Hst. eapply Hstep; [exact E2|]. by eapply Hpre. }
  assert (I st → I st2) as H2.
  { intros Hst. eapply Hstep; [exact E2|]. by eapply Hpre. }
  repeat case_bool_decide; simpl; try (intros [= _ <-]; exact H2).
  all: intros Hr Hst; eapply Hpost; [exact Hr|]; by apply H2.
Qed.

(** What one call of [runAnsiblePlaybook] does to the run state. *)
Lemma runAnsiblePlaybook_effect opb timeout success phase index (st : Run) r st' :
  runAnsiblePlaybook opb timeout success phase index st = (r, st') →
  (launched st' = launched st ∧ job_output st' = job_output st
   ∧ world st' = world st
   ∧ (calls st' = calls st ∨
      ∃ pb, opb = Some pb ∧ is_aborted (world st) = true
            ∧ r = inr (RESULT_ABORTED, None)
            ∧ calls st' = calls st
                ++ [mkEvent pb success phase index (RESULT_ABORTED, None)]))
  ∨ ∃ pb inv rc,
      opb = Some pb ∧ is_aborted (world st) = false ∧ r = inr rc
      ∧ launched st' = launched st ++ [inv]
      ∧ Phases.timeout inv = timeout
      ∧ config_file inv = JobDirPlaybook.ansible_config pb
      ∧ inv_trusted inv = JobDirPlaybook.trusted pb
      ∧ cmd inv !! 0 = Some (Some "ansible-playbook")
      ∧ cmd inv !! 2 = Some (JobDirPlaybook.path pb)
      ∧ calls st' = calls st ++ [mkEvent pb success phase index rc]
      ∧ job_output st `prefix_of` job_output st'
      ∧ (returncode (popen inv (world st)).1 ≠ 4%Z →
         job_output st' = job_output st).
Proof.
  destruct opb as [pb|]; [|intros [= <- <-]; left; by eauto].
  unfold Phases.runAnsiblePlaybook.
  match goal with |- context [Phases.runAnsible _ _ _ ?c _ _ _] =>
    set (cmd := c) end.
  assert (cmd !! 0 = Some (Some "ansible-playbook")
          ∧ cmd !! 2 = Some (JobDirPlaybook.path pb)) as [Hcmd0 Hcmd].
  { subst cmd.
    by destruct (JobDir.has_secrets jobdir), success, (truthy phase), index. }
  unfold bind. rewrite runAnsible_cases.
  destruct (is_aborted (world st)) eqn:Ha.
  { simpl. intros [= <- <-]. left. simpl.
    split; [done|]. split; [done|]. split; [done|]. right. by exists pb. }
  destruct (negb (forallb _ cmd)).
  { intros [= <- <-]. left. by eauto. }
  set (inv := invocation cmd timeout _ _).
  assert (∀ x, x ∈ [RESULT_NORMAL; RESULT_TIMED_OUT; RESULT_UNREACHABLE;
                    RESULT_ABORTED] → is_Some (RESULT_MAP x)) as Hmap.
  { intros x Hx. repeat (apply elem_of_cons in Hx as [-> | Hx]; [by eexists|]).
    by apply elem_of_nil in Hx. }
  assert (∀ rc (st1 : Run),
            rc.1 ∈ [RESULT_NORMAL; RESULT_TIMED_OUT; RESULT_UNREACHABLE;
                    RESULT_ABORTED] →
            launched st1 = launched st ++ [inv] → calls st1 = calls st →
            job_output st `prefix_of` job_output st1 →
            (returncode (popen inv (world st)).1 ≠ 4%Z →
             job_output st1 = job_output st) →
            ∀ P : Prop,
              (∀ st2, launched st2 = launched st ++ [inv] →
                      calls st2 = calls st ++ [mkEvent pb success phase index rc] →
                      job_output st `prefix_of` job_output st2 →
                      (returncode (popen inv (world st)).1 ≠ 4%Z →
                       job_output st2 = job_output st) →
                      (inr rc, st2) = (r, st') → P) →
              (match RESULT_MAP rc.1 with
               | Some _ =>
                   bind (modify (λ st0 : Run,
                           {| world := world st0; launched := launched st0;
                              calls := calls st0 ++
                                [mkEvent pb success phase index rc];
                              job_output := job_output st0 |}))
                        (λ _, ret rc)
               | None => raise (Exception "KeyError")
               end st1 = (r, st') → P)) as Hfin.
  { intros rc st1 Hin Hl Hc Hp Ho P HP.
    destruct (Hmap rc.1 Hin) as [name ->]. unfold bind, modify, ret. simpl.
    apply HP; simpl; by rewrite ?Hc. }
  assert (∀ rc (st2 : Run),
            launched st2 = launched st ++ [inv] →
            calls st2 = calls st ++ [mkEvent pb success phase index rc] →
            job_output st `prefix_of` job_output st2 →
            (returncode (popen inv (world st)).1 ≠ 4%Z →
             job_output st2 = job_output st) →
            (inr rc, st2) = (r, st') →
            ∃ pb' inv' rc',
              Some pb = Some pb' ∧ false = false ∧ r = inr rc'
              ∧ launched st' = launched st ++ [inv']
              ∧ Phases.timeout inv' = timeout
              ∧ config_file inv' = JobDirPlaybook.ansible_config pb'
              ∧ inv_trusted inv' = JobDirPlaybook.trusted pb'
              ∧ Phases.cmd inv' !! 0 = Some (Some "ansible-playbook")
              ∧ Phases.cmd inv' !! 2 = Some (JobDirPlaybook.path pb')
              ∧ calls st' = calls st ++ [mkEvent pb' success phase index rc']
              ∧ job_output st `prefix_of` job_output st'
              ∧ (returncode (popen inv' (world st)).1 ≠ 4%Z →
                 job_output st' = job_output st)) as Hgoal.
  { intros rc st2 Hl Hc Hp Ho [= <- <-]. by exists pb, inv, rc. }
  destruct (timeout_set timeout && flag_set _).
  { intros H. right. revert H. apply Hfin; simpl; try done; [set_solver|].
    apply Hgoal. }
  destruct (bool_decide (returncode _ = 3%Z)).
  { intros H. right. revert H. apply Hfin; simpl; try done; [set_solver|].
    apply Hgoal. }
  destruct (bool_decide (returncode _ = (-9)%Z)).
  { intros H. right. revert H. apply Hfin; simpl; try done; [set_solver|].
    apply Hgoal. }
  destruct (bool_decide (returncode _ = 4%Z)) eqn:H4.
  - intros H. right. revert H. apply Hfin; simpl; try done.
    + set_solver.
    + by apply prefix_app_r.
    + intros Hn. by apply bool_decide_eq_true in H4.
    + apply Hgoal.
  - intros H. right. revert H. apply Hfin; simpl; try done; [set_solver|].
    apply Hgoal.
Qed.


(** On a ready job directory [runPlaybooks] returns one of its six
    results. *)
Lemma runPlaybooks_returns timeout (st : Run) :
  ready jobdir →
  ∃ res st',
    runPlaybooks timeout st = (inr res, st')
    ∧ res ∈ [None; Some "SUCCESS"; Some "FAILURE"; Some "POST_FAILURE";
             Some "TIMED_OUT"; Some "ABORTED"].
Proof.
  intros Hready.
  destruct (runPlaybooks_trace timeout st Hready)
    as (pb & res & st' & rcs & _ & Hrun & _ & Hcase).
  exists res, st'. split; [done|].
  destruct Hcase as [(_ & _ & rcs_post & _ & _ & ->)
                    |[(_ & _ & rc & _ & _ & ->)
                     |(_ & _ & code & rcs_post & _ & _ & ->)]].
  - set_solver.
  - repeat case_bool_decide; set_solver.
  - destruct (existsb failed rcs_post); [set_solver|].
    case_bool_decide; set_solver.
Qed.

(** X7. While nobody asks the job to stop, every playbook run that
    [runPlaybooks] records launched one subprocess, in the same order:
    an [ansible-playbook] command on the path of that playbook, with the
    [ansible.cfg] and the trust flag of that playbook and the timeout of
    the job. *)
Theorem launches_match_calls timeout (st : Run) r st' :
  (∀ w, is_aborted w = false) →
  runPlaybooks timeout st = (r, st') →
  ∃ invs evs,
    launched st' = launched st ++ invs
    ∧ calls st' = calls st ++ evs
    ∧ length invs = length evs
    ∧ ∀ i inv e, invs !! i = Some inv → evs !! i = Some e →
        Phases.timeout inv = timeout
        ∧ config_file inv = JobDirPlaybook.ansible_config (ev_playbook e)
        ∧ inv_trusted inv = JobDirPlaybook.trusted (ev_playbook e)
        ∧ Phases.cmd inv !! 0 = Some (Some "ansible-playbook")
        ∧ Phases.cmd inv !! 2 = Some (JobDirPlaybook.path (ev_playbook e)).
Proof.
  intros Hna Hrun.
  pose (R := λ inv e,
          Phases.timeout inv = timeout
          ∧ config_file inv = JobDirPlaybook.ansible_config (ev_playbook e)
          ∧ inv_trusted inv = JobDirPlaybook.trusted (ev_playbook e)
          ∧ Phases.cmd inv !! 0 = Some (Some "ansible-playbook")
          ∧ Phases.cmd inv !! 2 = Some (JobDirPlaybook.path (ev_playbook e))).
  pose (I := λ s : Run,
    ∃ invs evs,
      launched s = launched st ++ invs ∧ calls s = calls st ++ evs
      ∧ Forall2 R invs evs).
  assert (I st') as (invs & evs & Hl & Hc & Hall).
  { apply (runPlaybooks_invariant I timeout) with (st := st) (r := r);
      [|exact Hrun|].
    - intros opb success phase index s1 r1 s2 Hstep (invs & evs & Hl & Hc & Hall).
      destruct (runAnsiblePlaybook_effect _ _ _ _ _ _ _ _ Hstep)
        as [(Hl2 & _ & _ & [Hc2 | (pb & _ & Ha & _)])
           | (pb & inv & rc & _ & _ & _ & Hl2 & Ht & Hcf & Htr & H0 & H2 & Hc2 & _)].
      + exists invs, evs. by rewrite Hl2, Hc2.
      + by rewrite Hna in Ha.
      + exists (invs ++ [inv]), (evs ++ [mkEvent pb success phase index rc]).
        rewrite Hl2, Hc2, Hl, Hc, <- !app_assoc.
        split; [done|]. split; [done|].
        apply Forall2_app; [done|]. by repeat constructor.
    - exists [], []. rewrite !app_nil_r. by repeat constructor. }
  exists invs, evs. split; [done|]. split; [done|].
  split; [by eapply Forall2_length|].
  intros i inv e Hi He. exact (Forall2_lookup_lr _ _ _ _ _ _ Hall Hi He).
Qed.

(** X8. [runPlaybooks] only ever appends: what was in the job output
    file, the launched subprocesses and the recorded runs stay as a
    prefix. When no subprocess exits with the status 4, the job output
    file is left as it was. *)
Theorem job_output_appended_on_parse_error_only timeout (st : Run) r st' :
  runPlaybooks timeout st = (r, st') →
  job_output st `prefix_of` job_output st'
  ∧ launched st `prefix_of` launched st'
  ∧ calls st `prefix_of` calls st'
  ∧ ((∀ inv w, returncode (popen inv w).1 ≠ 4%Z) →
     job_output st' = job_output st).
Proof.
  intros Hrun.
  pose (I := λ s : Run,
    job_output st `prefix_of` job_output s
    ∧ launched st `prefix_of` launched s
    ∧ calls st `prefix_of` calls s
    ∧ ((∀ inv w, returncode (popen inv w).1 ≠ 4%Z) →
       job_output s = job_output st)).
  apply (runPlaybooks_invariant I timeout) with (st := st) (r := r);
    [|exact Hrun|].
  - intros opb success phase index s1 r1 s2 Hstep (Ho & Hl & Hc & H4).
    destruct (runAnsiblePlaybook_effect _ _ _ _ _ _ _ _ Hstep)
      as [(Hl2 & Ho2 & _ & [Hc2 | (pb & _ & _ & _ & Hc2)])
         | (pb & inv & rc & _ & _ & _ & Hl2 & _ & _ & _ & _ & _ & Hc2 & Hp & Hn)].
    + unfold I. by rewrite Hl2, Ho2, Hc2.
    + unfold I. rewrite Hl2, Ho2, Hc2.
      split; [done|]. split; [done|]. split; [|done].
      by apply prefix_app_r.
    + unfold I. rewrite Hl2, Hc2.
      split; [by etrans|]. split; [by apply prefix_app_r|].
      split; [by apply prefix_app_r|].
      intros Hno. rewrite Hn by apply Hno. by apply H4.
  - by unfold I.
Qed.


(** Every result of a pre phase is the result of one of its events. *)
Lemma pre_events_complete index pbs rcs rc :
  length rcs ≤ length pbs → rc ∈ rcs →
  ∃ e, e ∈ pre_events index pbs rcs ∧ ev_result e = rc.
Proof.
  intros Hlen [i Hi]%list_elem_of_lookup.
  destruct (lookup_lt_is_Some_2 pbs i) as [pb Hpb].
  { apply lookup_lt_Some in Hi. lia. }
  exists (mkEvent pb None (Some "pre") (Some (index + i)) rc).
  split; [|done]. apply list_elem_of_lookup. exists i.
  apply pre_events_lookup. by exists pb, rc.
Qed.

(** X6. On a ready job directory [runPlaybooks] returns, and its result
    is [None] or one of SUCCESS, FAILURE, POST_FAILURE, TIMED_OUT and
    ABORTED. It is SUCCESS exactly when no playbook it ran failed, that
    is, when each of them ended normally with the exit status 0. *)
Theorem runPlaybooks_result timeout (st : Run) :
  ready jobdir →
  ∃ res st' evs,
    runPlaybooks timeout st = (inr res, st')
    ∧ calls st' = calls st ++ evs
    ∧ res ∈ [None; Some "SUCCESS"; Some "FAILURE"; Some "POST_FAILURE";
             Some "TIMED_OUT"; Some "ABORTED"]
    ∧ (res = Some "SUCCESS" ↔ ∀ e, e ∈ evs → failed (ev_result e) = false).
Proof.
  intros Hready.
  destruct (runPlaybooks_trace timeout st Hready)
    as (pb & res & st' & rcs & _ & Hrun & Hlen & Hcase).
  exists res, st'.
  destruct Hcase as [(Hpos & Hfail & rcs_post & Hc & _ & ->)
                    |[(Hok & _ & rc & Hc & Hn & ->)
                     |(Hok & _ & code & rcs_post & Hc & Hlp & ->)]].
  - eexists. split; [done|]. split; [exact Hc|]. split; [set_solver|].
    split; [done|]. intros Hall. exfalso.
    destruct (lookup_lt_is_Some_2 rcs (pred (length rcs))) as [rc Hrc]; [lia|].
    destruct (pre_events_complete 0 (JobDir.pre_playbooks jobdir) rcs rc Hlen)
      as (e & He & Her).
    { by eapply list_elem_of_lookup_2. }
    specialize (Hall e ltac:(apply elem_of_app; by left)).
    rewrite Her, (Hfail _ _ Hrc), bool_decide_eq_true_2 in Hall by lia. done.
  - eexists. split; [done|]. split; [exact Hc|]. split.
    { repeat case_bool_decide; set_solver. }
    split.
    + intros Hres. repeat case_bool_decide; done.
    + intros Hall. exfalso.
      specialize (Hall (run_event pb rc)
                    ltac:(apply elem_of_app; right; by apply list_elem_of_singleton)).
      simpl in Hall. unfold failed in Hall.
      rewrite (bool_decide_eq_false_2 _ Hn) in Hall. done.
  - eexists. split; [done|]. split; [exact Hc|]. split.
    { destruct (existsb failed rcs_post); [set_solver|].
      case_bool_decide; set_solver. }
    split.
    + intros Hres e He.
      destruct (existsb failed rcs_post) eqn:Hex; [done|].
      case_bool_decide as Hcode; [|done].
      apply elem_of_app in He as [He | He].
      { apply Hok. by eapply pre_events_result. }
      apply elem_of_cons in He as [-> | He].
      { simpl. unfold failed. simpl.
        by rewrite (bool_decide_eq_true_2 _ Hcode). }
      apply post_events_result in He.
      destruct (failed (ev_result e)) eqn:Hf; [|done].
      assert (existsb failed rcs_post = true) as Hex'.
      { apply existsb_failed. by exists (ev_result e). }
      congruence.
    + intros Hall.
      assert (existsb failed rcs_post = false) as ->.
      { destruct (existsb failed rcs_post) eqn:Hex; [|done].
        apply existsb_failed in Hex as (rc & Hrc & Hf).
        destruct (post_events_complete (bool_decide (code = Some 0%Z)) 0
                    (JobDir.post_playbooks jobdir) rcs_post rc) as (e & He & Her);
          [lia | done |].
        rewrite <- Her, Hall in Hf; [done|].
        apply elem_of_app. right. by right. }
      specialize (Hall (run_event pb (RESULT_NORMAL, code))
                    ltac:(apply elem_of_app; right; left)).
      simpl in Hall. unfold failed in Hall. simpl in Hall.
      case_bool_decide; [done|]. done.
Qed.


(** With the abort flag up, a call of [runAnsiblePlaybook] is recorded as
    aborted and does nothing else. *)
Lemma runAnsiblePlaybook_aborted pb timeout success phase index (st : Run) :
  is_aborted (world st) = true →
  runAnsiblePlaybook (Some pb) timeout success phase index st =
    (inr (RESULT_ABORTED, None),
     {| world := world st; launched := launched st;
        calls := calls st
          ++ [mkEvent pb success phase index (RESULT_ABORTED, None)];
        job_output := job_output st |}).
Proof.
  intros Ha. unfold Phases.runAnsiblePlaybook, bind.
  rewrite runAnsible_cases, Ha. reflexivity.
Qed.

Lemma run_post_aborted timeout success pbs : ∀ index result (st : Run),
  is_aborted (world st) = true →
  run_post timeout success true index pbs result st =
    (inr result,
     {| world := world st; launched := launched st;
        calls := calls st
          ++ post_events success index pbs
               (replicate (length pbs) (RESULT_ABORTED, None));
        job_output := job_output st |}).
Proof.
  induction pbs as [|pb pbs IH]; intros index result st Ha.
  { simpl. unfold ret. rewrite app_nil_r. by destruct st. }
  rewrite run_post_cons. unfold bind.
  rewrite runAnsiblePlaybook_aborted by done.
  rewrite andb_false_r, IH by done. simpl. by rewrite <- app_assoc.
Qed.

(** X9. A job whose abort flag is up when [runPlaybooks] starts launches
    no subprocess, reads no clock and writes nothing to the job output
    file. With a pre playbook, the first one is recorded as aborted,
    every post playbook is called (and recorded as aborted) and the
    result is [None]; with none, the main playbook is recorded as aborted
    and the result is ABORTED. *)
Theorem aborted_job_launches_nothing timeout (st : Run) :
  is_aborted (world st) = true →
  ∃ res st',
    runPlaybooks timeout st = (res, st')
    ∧ launched st' = launched st
    ∧ job_output st' = job_output st
    ∧ world st' = world st
    ∧ match JobDir.pre_playbooks jobdir with
      | pb :: _ =>
          res = inr None
          ∧ calls st' = calls st
              ++ mkEvent pb None (Some "pre") (Some 0) (RESULT_ABORTED, None)
              :: post_events false 0 (JobDir.post_playbooks jobdir)
                   (replicate (length (JobDir.post_playbooks jobdir))
                      (RESULT_ABORTED, None))
      | [] =>
          match JobDir.selected jobdir with
          | Some pb =>
              res = inr (Some "ABORTED")
              ∧ calls st' = calls st ++ [run_event pb (RESULT_ABORTED, None)]
          | None =>
              res = inl (Exception "AttributeError") ∧ calls st' = calls st
          end
      end.
Proof.
  intros Ha. unfold Phases.runPlaybooks.
  destruct (JobDir.pre_playbooks jobdir) as [|pb pbs].
  - unfold bind. simpl.
    destruct (JobDir.selected jobdir) as [pb|].
    + rewrite runAnsiblePlaybook_aborted by done. simpl.
      eexists _, _. split; [reflexivity|]. done.
    + eexists _, _. split; [reflexivity|]. done.
  - rewrite run_pre_cons. unfold bind.
    rewrite runAnsiblePlaybook_aborted by done. simpl.
    rewrite run_post_aborted by done. simpl.
    eexists _, _. split; [reflexivity|]. simpl.
    by rewrite <- app_assoc.
Qed.

End Facts.

Lemma jobdir_ABC_ready : ready jobdir_ABC.
Proof.
  split; [|split].
  - repeat constructor. by eexists.
  - repeat constructor. by eexists.
  - exists playbook_B. split; [reflexivity | by eexists].
Defined.

Lemma runAnsible_classification_witness :
  ∃ rc st',
    runAnsible never_aborted scripted_popen still_clock
      [Some "ansible-playbook"; Some "-v"; Some "/tmp/uuid/trusted/project_0/B.yaml"]
      None "/tmp/uuid/ansible/playbook_0/ansible.cfg" (Some true)
      (start [Phases.mkProc ["ERROR! Syntax Error while loading YAML."] 4 None])
    = (inr rc, st').
Proof.
  apply (proj1 (runAnsible_classification never_aborted scripted_popen still_clock
                  [Some "ansible-playbook"; Some "-v";
                   Some "/tmp/uuid/trusted/project_0/B.yaml"]
                  None "/tmp/uuid/ansible/playbook_0/ansible.cfg" (Some true)
                  (start [Phases.mkProc ["ERROR! Syntax Error while loading YAML."]
                            4 None]))).
  repeat constructor; by eexists.
Defined.

(** Pre playbook A exits with 2; post playbook C exits with 0. *)
Lemma pre_failure_skips_main_witness :
  (example_run [exits 2; exits 0] None).1 = inr None
  ∧ map ev_phase (calls (example_run [exits 2; exits 0] None).2)
    = [Some "pre"; Some "post"].
Proof.
  split; [|vm_compute; reflexivity].
  apply (pre_failure_skips_main never_aborted scripted_popen still_clock false
           jobdir_ABC None [exits 2; exits 0] _ _ jobdir_ABC_ready
           (surjective_pairing _)).
  eexists. split; [|split].
  - vm_compute. left.
  - reflexivity.
  - vm_compute. reflexivity.
Defined.

(** The main playbook B is killed by the watchdog. *)
Lemma main_abnormal_returns_at_once_witness :
  (example_run [exits 0; Phases.mkProc [] (-9) (Some true)] (Some 1800%Z)).1
  = inr (Some "TIMED_OUT").
Proof.
  apply (main_abnormal_returns_at_once never_aborted scripted_popen still_clock
           false jobdir_ABC (Some 1800%Z)
           [exits 0; Phases.mkProc [] (-9) (Some true)] _ _
           (run_event playbook_B (RESULT_TIMED_OUT, None))
           jobdir_ABC_ready (surjective_pairing _)).
  - vm_compute. right. left.
  - reflexivity.
  - vm_compute. discriminate.
  - reflexivity.
Defined.

(** The main playbook B exits with 0; post playbook C exits with 1. *)
Lemma post_failure_overrides_witness :
  (example_run [exits 0; exits 0; exits 1] None).1 = inr (Some "POST_FAILURE").
Proof.
  apply (proj1 (proj1 (post_failure_overrides never_aborted scripted_popen
                         still_clock false jobdir_ABC None
                         [exits 0; exits 0; exits 1] _ _
                         jobdir_ABC_ready (surjective_pairing _))
                  (run_event playbook_B (RESULT_NORMAL, Some 0%Z))
                  ltac:(vm_compute; right; left) eq_refl eq_refl)).
  eexists. split; [|split].
  - vm_compute. right. right. left.
  - reflexivity.
  - vm_compute. reflexivity.
Defined.

Lemma runPlaybooks_result_witness :
  ∃ res st' evs,
    Phases.runPlaybooks never_aborted scripted_popen still_clock false
      jobdir_ABC None (start [exits 0; exits 0; exits 0]) = (inr res, st')
    ∧ calls st' = calls (start [exits 0; exits 0; exits 0]) ++ evs
    ∧ res ∈ [None; Some "SUCCESS"; Some "FAILURE"; Some "POST_FAILURE";
             Some "TIMED_OUT"; Some "ABORTED"]
    ∧ (res = Some "SUCCESS" ↔ ∀ e, e ∈ evs → failed (ev_result e) = false).
Proof.
  apply (runPlaybooks_result never_aborted scripted_popen still_clock false
           jobdir_ABC None (start [exits 0; exits 0; exits 0])
           jobdir_ABC_ready).
Defined.

Lemma launches_match_calls_witness :
  ∃ invs evs,
    launched (example_run [exits 0; exits 1; exits 0] (Some 1800%Z)).2 = [] ++ invs
    ∧ calls (example_run [exits 0; exits 1; exits 0] (Some 1800%Z)).2 = [] ++ evs
    ∧ length invs = length evs
    ∧ ∀ i inv e, invs !! i = Some inv → evs !! i = Some e →
        Phases.timeout inv = Some 1800%Z
        ∧ config_file inv = JobDirPlaybook.ansible_config (ev_playbook e)
        ∧ inv_trusted inv = JobDirPlaybook.trusted (ev_playbook e)
        ∧ Phases.cmd inv !! 0 = Some (Some "ansible-playbook")
        ∧ Phases.cmd inv !! 2 = Some (JobDirPlaybook.path (ev_playbook e)).
Proof.
  apply (launches_match_calls never_aborted scripted_popen still_clock false
           jobdir_ABC (Some 1800%Z) (start [exits 0; exits 1; exits 0]) _ _
           (λ w, eq_refl) (surjective_pairing _)).
Defined.

Lemma job_output_appended_on_parse_error_only_witness :
  [] `prefix_of` job_output (example_run [exits 0; exits 4; exits 0] None).2
  ∧ [] `prefix_of` launched (example_run [exits 0; exits 4; exits 0] None).2
  ∧ [] `prefix_of` calls (example_run [exits 0; exits 4; exits 0] None).2
  ∧ ((∀ inv w, returncode (scripted_popen inv w).1 ≠ 4%Z) →
     job_output (example_run [exits 0; exits 4; exits 0] None).2 = []).
Proof.
  apply (job_output_appended_on_parse_error_only never_aborted scripted_popen
           still_clock false jobdir_ABC None (start [exits 0; exits 4; exits 0])
           _ _ (surjective_pairing _)).
Defined.

Lemma aborted_job_launches_nothing_witness :
  ∃ res st',
    Phases.runPlaybooks always_aborted scripted_popen still_clock false
      jobdir_ABC None (start [exits 0]) = (res, st')
    ∧ launched st' = []
    ∧ job_output st' = []
    ∧ world st' = [exits 0]
    ∧ res = inr None
    ∧ calls st' =
        [mkEvent playbook_A None (Some "pre") (Some 0) (RESULT_ABORTED, None);
         mkEvent playbook_C (Some false) (Some "post") (Some 0)
           (RESULT_ABORTED, None)].
Proof.
  apply (aborted_job_launches_nothing always_aborted scripted_popen still_clock
           false jobdir_ABC None (start [exits 0]) eq_refl).
Defined.

End PhasesFacts.

(** * Properties of the preparation *)

Module StagingFacts.
Import Staging Examples.

(** ** Computations that return *)

Lemma pair_fst_eq {A B} (p : A * B) (a : A) : p.1 = a → p = (a, p.2).
Proof. destruct p. simpl. by intros ->. Qed.

Lemma bind_inr {S A B} (m : M S A) (k : A → M S B) s b s' :
  bind m k s = (inr b, s') →
  ∃ a s1, m s = (inr a, s1) ∧ k a s1 = (inr b, s').
Proof.
  unfold bind. destruct (m s) as [[e|a] s1]; [done|]. eauto.
Qed.

Lemma bind_inv {S A B} (m : M S A) (k : A → M S B) s r s' :
  bind m k s = (r, s') →
  (∃ a s1, m s = (inr a, s1) ∧ k a s1 = (r, s'))
  ∨ (∃ e, m s = (inl e, s') ∧ r = inl e).
Proof.
  unfold bind. destruct (m s) as [[e|a] s1].
  - intros [= <- <-]. right. eauto.
  - left. eauto.
Qed.

Lemma bind_eq {S A B} (m : M S A) (k : A → M S B) s a s1 :
  m s = (inr a, s1) → bind m k s = k a s1.
Proof. unfold bind. by intros ->. Qed.

Lemma bind_raise {S A B} (m : M S A) (k : A → M S B) s e s1 :
  m s = (inl e, s1) → bind m k s = (inl e, s1).
Proof. unfold bind. by intros ->. Qed.

(** ** Computations that only read *)

Lemma readonly_ret {A} (a : A) : readonly (ret a).
Proof. by intros j r j' [= _ <-]. Qed.

Lemma readonly_raise {A} e : readonly (@raise Job A e).
Proof. by intros j r j' [= _ <-]. Qed.

Lemma readonly_gets {A} (f : Job → A) : readonly (gets f).
Proof. by intros j r j' [= _ <-]. Qed.

Lemma readonly_bind {A B} (m : M Job A) (k : A → M Job B) :
  readonly m → (∀ a, readonly (k a)) → readonly (bind m k).
Proof.
  intros Hm Hk j r j' [(a & j1 & H1 & H2) | (e & H1 & _)]%bind_inv.
  - apply Hm in H1 as ->. by apply Hk in H2.
  - by apply Hm in H1.
Qed.

Lemma readonly_for_each {A} (l : list A) (body : A → M Job unit) :
  (∀ x, readonly (body x)) → readonly (for_each l body).
Proof.
  intros Hb. induction l as [|x l IH]; simpl.
  - apply readonly_ret.
  - apply readonly_bind; [apply Hb | by intros _].
Qed.

Lemma readonly_listdir path :
  readonly (λ j, lift_exn (Posix.listdir (fs j) path) j).
Proof.
  intros j r j'. destruct (Posix.listdir (fs j) path); by intros [= _ <-].
Qed.

Lemma readonly_blockPluginDirs path : readonly (_blockPluginDirs path).
Proof.
  apply readonly_bind; [apply readonly_listdir|]. intros entries.
  apply readonly_for_each. intros entry.
  apply readonly_bind; [apply readonly_gets|]. intros is_dir.
  destruct (is_dir && _); [apply readonly_raise | apply readonly_ret].
Qed.

Lemma readonly_findPlaybook_exts exts path required trusted :
  readonly (findPlaybook_exts exts path required trusted).
Proof.
  induction exts as [|ext exts IH]; simpl.
  - destruct required; [apply readonly_raise | apply readonly_ret].
  - apply readonly_bind; [apply readonly_gets|]. intros found.
    destruct found; [|apply IH].
    apply readonly_bind; [|intros _; apply readonly_ret].
    destruct (negb trusted); [|apply readonly_ret].
    apply readonly_bind; [apply readonly_gets|]. intros d.
    apply readonly_blockPluginDirs.
Qed.

Lemma readonly_findPlaybook path required trusted :
  readonly (findPlaybook path required trusted).
Proof. apply readonly_findPlaybook_exts. Qed.

Lemma readonly_findRole path trusted : readonly (findRole path trusted).
Proof.
  unfold findRole.
  apply readonly_bind; [apply readonly_gets|]. intros is_dir.
  destruct is_dir.
  - apply readonly_bind; [|intros _; apply readonly_ret].
    destruct (negb _); [apply readonly_blockPluginDirs | apply readonly_ret].
  - apply readonly_bind; [apply readonly_gets|]. intros is_dir.
    destruct is_dir; [|apply readonly_raise].
    apply readonly_bind; [|intros _; apply readonly_ret].
    destruct (negb _); [|apply readonly_ret].
    apply readonly_bind; [apply readonly_listdir|]. intros entries.
    apply readonly_for_each. intros entry.
    apply readonly_bind; [apply readonly_gets|]. intros sub.
    destruct sub; [apply readonly_blockPluginDirs | apply readonly_ret].
Qed.

(** ** [findPlaybook] *)

(** A playbook file that [findPlaybook] returns exists, and it is
    [path.yaml], or [path.yml] when there is no [path.yaml]. *)
Lemma findPlaybook_found path required trusted j fn j' :
  findPlaybook path required trusted j = (inr (Some fn), j') →
  Posix.exists_ (fs j) fn = true
  ∧ (fn = path +:+ ".yaml"
     ∨ (fn = path +:+ ".yml" ∧ Posix.exists_ (fs j) (path +:+ ".yaml") = false)).
Proof.
  unfold findPlaybook. simpl. unfold bind at 1, gets at 1.
  destruct (Posix.exists_ (fs j) (path +:+ ".yaml")) eqn:E1.
  { intros (_ & j1 & _ & [= <- _])%bind_inr. eauto. }
  unfold bind at 1, gets at 1.
  destruct (Posix.exists_ (fs j) (path +:+ ".yml")) eqn:E2.
  { intros (_ & j1 & _ & [= <- _])%bind_inr. eauto. }
  by destruct required.
Qed.

(** [findPlaybook] returns [None] only for a playbook that is not
    required and has neither file. *)
Lemma findPlaybook_missing path required trusted j j' :
  findPlaybook path required trusted j = (inr None, j') →
  required = false
  ∧ Posix.exists_ (fs j) (path +:+ ".yaml") = false
  ∧ Posix.exists_ (fs j) (path +:+ ".yml") = false.
Proof.
  unfold findPlaybook. simpl. unfold bind at 1, gets at 1.
  destruct (Posix.exists_ (fs j) (path +:+ ".yaml")) eqn:E1.
  { by intros (_ & j1 & _ & [= ])%bind_inr. }
  unfold bind at 1, gets at 1.
  destruct (Posix.exists_ (fs j) (path +:+ ".yml")) eqn:E2.
  { by intros (_ & j1 & _ & [= ])%bind_inr. }
  by destruct required.
Qed.

(** With neither file, a candidate that is not required resolves to
    [None]. *)
Lemma findPlaybook_neither path trusted j :
  Posix.exists_ (fs j) (path +:+ ".yaml") = false →
  Posix.exists_ (fs j) (path +:+ ".yml") = false →
  findPlaybook path false trusted j = (inr None, j).
Proof.
  intros E1 E2. unfold findPlaybook. simpl. unfold bind, gets.
  by rewrite E1, E2.
Qed.

(** A trusted playbook is not scanned: what [findPlaybook] answers
    follows from the existence of the two files alone. *)
Lemma findPlaybook_trusted path required j :
  findPlaybook path required true j =
    (if Posix.exists_ (fs j) (path +:+ ".yaml")
     then inr (Some (path +:+ ".yaml"))
     else if Posix.exists_ (fs j) (path +:+ ".yml")
     then inr (Some (path +:+ ".yml"))
     else if required
     then inl (ExecutorError ("Unable to find playbook " +:+ path))
     else inr None, j).
Proof.
  unfold findPlaybook. simpl. unfold bind, gets, ret, raise. simpl.
  destruct (Posix.exists_ (fs j) (path +:+ ".yaml")); [done|].
  destruct (Posix.exists_ (fs j) (path +:+ ".yml")); [done|].
  by destruct required.
Qed.

(** ** Rules for invariants *)

Lemma hoare_ret {A} (P : Job → Prop) (a : A) (Q : A → Job → Prop) :
  (∀ j, P j → Q a j) → hoare P (ret a) Q.
Proof. intros H j a' j' HP [= <- <-]. by apply H. Qed.

Lemma hoare_raise {A} (P : Job → Prop) e (Q : A → Job → Prop) :
  hoare P (raise e) Q.
Proof. by intros j a j' _ [=]. Qed.

Lemma hoare_gets {A} (P : Job → Prop) (f : Job → A) (Q : A → Job → Prop) :
  (∀ j, P j → Q (f j) j) → hoare P (gets f) Q.
Proof. intros H j a j' HP [= <- <-]. by apply H. Qed.

Lemma hoare_bind {A B} (P : Job → Prop) (m : M Job A) (R : A → Job → Prop)
    (k : A → M Job B) (Q : B → Job → Prop) :
  hoare P m R → (∀ a, hoare (R a) (k a) Q) → hoare P (bind m k) Q.
Proof.
  intros Hm Hk j b j' HP (a & j1 & H1 & H2)%bind_inr.
  eapply Hk; [|done]. by eapply Hm.
Qed.

Lemma hoare_conseq {A} (P P' : Job → Prop) (m : M Job A) (Q Q' : A → Job → Prop) :
  hoare P m Q → (∀ j, P' j → P j) → (∀ a j, Q a j → Q' a j) → hoare P' m Q'.
Proof. intros H HP HQ j a j' HP' Hm. apply HQ. eapply H; [by apply HP | done]. Qed.

Lemma hoare_for_each {A} (P : Job → Prop) (l : list A) (body : A → M Job unit) :
  (∀ x, hoare P (body x) (λ _, P)) → hoare P (for_each l body) (λ _, P).
Proof.
  intros Hb. induction l as [|x l IH]; simpl.
  - by apply hoare_ret.
  - eapply hoare_bind; [apply Hb | intros ?; apply IH].
Qed.

Lemma hoare_readonly {A} (P : Job → Prop) (m : M Job A) :
  readonly m → hoare P m (λ _, P).
Proof. intros Hm j a j' HP H. by apply Hm in H as ->. Qed.

Lemma hoare_on_fs {A} (P : Job → Prop) (m : M Posix.FS A) :
  (∀ j fs', P j → P (mkJob (jobdir j) fs')) → hoare P (on_fs m) (λ _, P).
Proof.
  intros H j a j' HP. unfold on_fs. destruct (m (fs j)) as [r fs'].
  intros [= _ <-]. by apply H.
Qed.

Lemma hoare_on_jobdir (P : Job → Prop) (f : JobDir.t → JobDir.t)
    (Q : unit → Job → Prop) :
  (∀ j, P j → Q tt (mkJob (f (jobdir j)) (fs j))) → hoare P (on_jobdir f) Q.
Proof. intros H j a j' HP [= <- <-]. by apply H. Qed.

Lemma hoare_get_pb (P : Job → Prop) (r : ref) :
  hoare P (get_pb r) (λ pb j, P j ∧ lookup_ref r (jobdir j) = Some pb).
Proof.
  intros j pb j' HP. unfold get_pb.
  destruct (lookup_ref r (jobdir j)) eqn:E; [|done]. by intros [= <- <-].
Qed.

(** An assignment to a field other than the path keeps a [frame]d
    property. *)
Lemma hoare_update_pb (P : Job → Prop) (r : ref)
    (f : JobDirPlaybook.t → JobDirPlaybook.t) :
  frame r P →
  (∀ pb, JobDirPlaybook.path (f pb) = JobDirPlaybook.path pb) →
  hoare P (update_pb r f) (λ _, P).
Proof.
  intros HF Hf. unfold update_pb.
  eapply hoare_bind; [apply hoare_get_pb|]. intros pb.
  apply hoare_on_jobdir. intros j [HP Hl]. by eapply (frame_set r P HF).
Qed.

Lemma free_frame (r : ref) (P : Job → Prop) : free r P → frame r P.
Proof.
  intros [H1 H2 H3]. split; [done | done |]. intros j pb pb' HP _ _. by apply H3.
Qed.

Lemma lookup_ref_add_trusted r root key jd :
  lookup_ref r (JobDir.add_trusted root key jd) = lookup_ref r jd.
Proof. by destruct r. Qed.

Lemma lookup_ref_set_same r pb pb' jd :
  lookup_ref r jd = Some pb → lookup_ref r (set_ref r pb' jd) = Some pb'.
Proof.
  destruct r as [i|i|i]; simpl; intros H; apply list_lookup_insert_eq;
    by eapply lookup_lt_Some.
Qed.

Lemma lookup_ref_set_other r r' pb' jd :
  r ≠ r' → lookup_ref r (set_ref r' pb' jd) = lookup_ref r jd.
Proof.
  destruct r as [i|i|i], r' as [i'|i'|i']; simpl; intros Hne; try done;
    apply list_lookup_insert_ne; congruence.
Qed.

Lemma frame_slot_path r p : frame r (slot_path r p).
Proof.
  split.
  - intros j fs' (pb & H1 & H2). by exists pb.
  - intros j root key (pb & H1 & H2). exists pb. simpl.
    by rewrite lookup_ref_add_trusted.
  - intros j pb pb' (pb0 & H1 & H2) Hl Hp. exists pb'. simpl.
    split; [by eapply lookup_ref_set_same|]. congruence.
Qed.

Lemma free_slot_path r r' p : r' ≠ r → free r (slot_path r' p).
Proof.
  intros Hne. split.
  - intros j fs' (pb & H1 & H2). by exists pb.
  - intros j root key (pb & H1 & H2). exists pb. simpl.
    by rewrite lookup_ref_add_trusted.
  - intros j pb' (pb & H1 & H2). exists pb. simpl.
    by rewrite lookup_ref_set_other.
Qed.

Lemma addRole_path pb fs0 rp fs' :
  JobDirPlaybook.addRole pb fs0 = (inr rp, fs') →
  JobDirPlaybook.path rp.2 = JobDirPlaybook.path pb.
Proof.
  unfold JobDirPlaybook.addRole.
  intros (_ & fs1 & _ & [= <- _])%bind_inr. done.
Qed.

Section PrepareFacts.

Variable getProject : string → string → Project.
Variable merger_checkoutBranch :
  string → string → string → option string → M Posix.FS unit.
Variable library_dir action_dir callback_dir lookup_dir : string.

Abbreviation checkoutTrustedProject :=
  (checkoutTrustedProject merger_checkoutBranch).
Abbreviation prepareZuulRole :=
  (prepareZuulRole getProject merger_checkoutBranch).
Abbreviation prepareRole := (prepareRole getProject merger_checkoutBranch).
Abbreviation writeAnsibleConfig :=
  (writeAnsibleConfig library_dir action_dir callback_dir lookup_dir).
Abbreviation playbook_location :=
  (playbook_location getProject merger_checkoutBranch).
Abbreviation locate := (locate getProject merger_checkoutBranch).
Abbreviation stage :=
  (stage getProject merger_checkoutBranch library_dir action_dir callback_dir
     lookup_dir).
Abbreviation preparePlaybook :=
  (preparePlaybook getProject merger_checkoutBranch library_dir action_dir
     callback_dir lookup_dir).
Abbreviation prepare_candidates :=
  (prepare_candidates getProject merger_checkoutBranch library_dir action_dir
     callback_dir lookup_dir).
Abbreviation prepare_pre :=
  (prepare_pre getProject merger_checkoutBranch library_dir action_dir
     callback_dir lookup_dir).
Abbreviation prepare_post :=
  (prepare_post getProject merger_checkoutBranch library_dir action_dir
     callback_dir lookup_dir).
Abbreviation preparePlaybooks :=
  (preparePlaybooks getProject merger_checkoutBranch library_dir action_dir
     callback_dir lookup_dir).
Abbreviation attempt :=
  (attempt getProject merger_checkoutBranch library_dir action_dir
     callback_dir lookup_dir).
Abbreviation seek := (seek getProject merger_checkoutBranch).
Abbreviation misses :=
  (misses getProject merger_checkoutBranch library_dir action_dir
     callback_dir lookup_dir).

Lemma frame_checkoutTrustedProject r (P : Job → Prop) project branch :
  frame r P → hoare P (checkoutTrustedProject project branch) (λ _, P).
Proof.
  intros HF. unfold Staging.checkoutTrustedProject.
  eapply hoare_bind with (R := λ _, P).
  { apply hoare_gets. done. }
  intros found. eapply hoare_bind with (R := λ _, P); [|intros; by apply hoare_ret].
  destruct (truthy found); [by apply hoare_ret|].
  eapply hoare_bind with (R := λ _, P).
  - unfold addTrustedProject.
    eapply hoare_bind with (R := λ _, P); [by apply hoare_gets|]. intros jd.
    eapply hoare_bind with (R := λ _, P).
    { apply hoare_on_fs. apply (frame_fs r P HF). }
    intros ?. eapply hoare_bind with (R := λ _, P); [|intros; by apply hoare_ret].
    apply hoare_on_jobdir. intros j HP. by apply (frame_trusted r P HF).
  - intros root. eapply hoare_bind with (R := λ _, P); [|intros; by apply hoare_ret].
    apply hoare_on_fs. apply (frame_fs r P HF).
Qed.

Lemma frame_prepareZuulRole r (P : Job → Prop) role args root :
  frame r P → hoare P (prepareZuulRole r role args root) (λ _, P).
Proof.
  intros HF. unfold Staging.prepareZuulRole.
  eapply hoare_bind with (R := λ _, P).
  { eapply hoare_conseq; [apply (hoare_get_pb P) | done | by intros ?? []]. }
  intros pb. eapply hoare_bind with (R := λ _, P); [by apply hoare_gets|].
  intros src_root. eapply hoare_bind with (R := λ _, P).
  { destruct (truthy _); [by apply hoare_ret|].
    by apply (frame_checkoutTrustedProject r). }
  intros path. eapply hoare_bind with (R := λ _, P); [by apply hoare_gets|].
  intros link. eapply hoare_bind with (R := λ _, P); [by apply hoare_gets|].
  intros real_root. destruct (negb _); [apply hoare_raise|].
  eapply hoare_bind with (R := λ _, P).
  { apply hoare_on_fs. apply (frame_fs r P HF). }
  intros ?. eapply hoare_bind with (R := λ _, P).
  { apply hoare_readonly. apply readonly_findRole. }
  intros role_path. by apply hoare_update_pb.
Qed.

Lemma frame_prepareRole r (P : Job → Prop) role args :
  frame r P → hoare P (prepareRole r role args) (λ _, P).
Proof.
  intros HF. unfold Staging.prepareRole.
  destruct (bool_decide _); [|by apply hoare_ret].
  eapply hoare_bind; [apply hoare_get_pb|]. intros pb.
  intros j a j' [HP Hl] (rp & j1 & Hadd & Hrest)%bind_inr.
  unfold on_fs in Hadd.
  destruct (JobDirPlaybook.addRole pb (fs j)) as [[e|rp'] fs1] eqn:E; [done|].
  injection Hadd as -> <-.
  apply bind_inr in Hrest as ([] & j2 & Hset & Hz).
  injection Hset as <-.
  eapply (frame_prepareZuulRole r P role args rp.1 HF); [|exact Hz].
  apply (frame_set r P HF (mkJob (jobdir j) fs1) pb rp.2); simpl.
  - by apply (frame_fs r P HF).
  - done.
  - by eapply addRole_path.
Qed.

Lemma frame_writeAnsibleConfig r (P : Job → Prop) :
  frame r P → hoare P (writeAnsibleConfig r) (λ _, P).
Proof.
  intros HF. unfold Staging.writeAnsibleConfig.
  eapply hoare_bind with (R := λ _, P).
  { eapply hoare_conseq; [apply (hoare_get_pb P) | done | by intros ?? []]. }
  intros pb. eapply hoare_bind with (R := λ _, P); [by apply hoare_gets|].
  intros jd. apply hoare_on_fs. apply (frame_fs r P HF).
Qed.

Lemma frame_playbook_location r (P : Job → Prop) playbook args :
  frame r P → hoare P (playbook_location playbook args) (λ _, P).
Proof.
  intros HF. unfold Staging.playbook_location.
  eapply hoare_bind with (R := λ _, P); [by apply hoare_gets|].
  intros src_root. destruct (truthy _); [by apply hoare_ret|].
  eapply hoare_bind with (R := λ _, P); [|intros; by apply hoare_ret].
  by apply (frame_checkoutTrustedProject r).
Qed.

Lemma frame_locate r (P : Job → Prop) playbook args :
  frame r P → hoare P (locate r playbook args) (λ _, P).
Proof.
  intros HF. unfold Staging.locate.
  eapply hoare_bind with (R := λ _, P); [by apply hoare_update_pb|].
  intros ?. by apply (frame_playbook_location r).
Qed.

(** After [stage], the object has the path that was found. *)
Lemma stage_path r playbook args found :
  hoare (λ _, True) (stage r playbook args found) (λ _, slot_path r found).
Proof.
  unfold Staging.stage.
  eapply hoare_bind with (R := λ _, slot_path r found).
  { unfold update_pb. eapply hoare_bind; [apply hoare_get_pb|]. intros pb.
    apply hoare_on_jobdir. intros j [_ Hl].
    exists (JobDirPlaybook.set_path found pb). simpl.
    split; [by eapply lookup_ref_set_same | done]. }
  intros ?. destruct (negb _); [by apply hoare_ret|].
  eapply hoare_bind with (R := λ _, slot_path r found).
  - apply hoare_for_each. intros role.
    apply frame_prepareRole, frame_slot_path.
  - intros ?. apply frame_writeAnsibleConfig, frame_slot_path.
Qed.

(** [stage] and [preparePlaybook] keep what does not look at their
    object. *)
Lemma free_stage r (P : Job → Prop) playbook args found :
  free r P → hoare P (stage r playbook args found) (λ _, P).
Proof.
  intros HF. pose proof (free_frame r P HF) as HF'. unfold Staging.stage.
  eapply hoare_bind with (R := λ _, P).
  { unfold update_pb. eapply hoare_bind; [apply hoare_get_pb|]. intros pb.
    apply hoare_on_jobdir. intros j [HP _]. by apply (free_set r P HF). }
  intros ?. destruct (negb _); [by apply hoare_ret|].
  eapply hoare_bind with (R := λ _, P).
  - apply hoare_for_each. intros role. by apply frame_prepareRole.
  - intros ?. by apply frame_writeAnsibleConfig.
Qed.

Lemma free_preparePlaybook r (P : Job → Prop) playbook args required :
  free r P → hoare P (preparePlaybook r playbook args required) (λ _, P).
Proof.
  intros HF. unfold Staging.preparePlaybook.
  eapply hoare_bind with (R := λ _, P).
  { by apply frame_locate, free_frame. }
  intros path_. eapply hoare_bind with (R := λ _, P).
  { apply hoare_readonly, readonly_findPlaybook. }
  intros found. by apply free_stage.
Qed.

(** ** The candidate loop *)

Lemma addPlaybook_inr j i j' :
  addPlaybook j = (inr i, j') →
  i = length (JobDir.playbooks (jobdir j))
  ∧ length (JobDir.playbooks (jobdir j')) = S i
  ∧ JobDir.playbook (jobdir j') = JobDir.playbook (jobdir j).
Proof.
  unfold addPlaybook, bind, gets, on_fs, on_jobdir, modify, ret. simpl.
  destruct (Posix.makedirs _ (fs j)) as [[e|[]] fs1]; [done|].
  intros [= <- <-]. simpl. rewrite length_app. simpl. split; [done|].
  split; [lia | done].
Qed.

Lemma free_length_playbooks r n :
  free r (λ j, length (JobDir.playbooks (jobdir j)) = n).
Proof.
  split; [done | done |]. intros j pb' H. destruct r; simpl; [done | | done].
  by rewrite length_insert.
Qed.

Lemma free_playbook r x : free r (λ j, JobDir.playbook (jobdir j) = x).
Proof. split; [done | done |]. intros j pb' H. by destruct r. Qed.

(** What a round of the loop that returns has done: one slot more, the
    chosen playbook untouched, and a path in the slot exactly when the
    file was found where [seek] says it is looked for. *)
Lemma attempt_inr playbook args j i p j' :
  attempt playbook args j = (inr (i, p), j') →
  i = length (JobDir.playbooks (jobdir j))
  ∧ length (JobDir.playbooks (jobdir j')) = S i
  ∧ JobDir.playbook (jobdir j') = JobDir.playbook (jobdir j)
  ∧ slot_path (Run i) p j'
  ∧ ∃ loc jc,
      seek playbook args j = (inr (i, loc), jc)
      ∧ match p with
        | Some fn =>
            Posix.exists_ (fs jc) fn = true
            ∧ (fn = loc +:+ ".yaml"
               ∨ (fn = loc +:+ ".yml"
                  ∧ Posix.exists_ (fs jc) (loc +:+ ".yaml") = false))
        | None =>
            Posix.exists_ (fs jc) (loc +:+ ".yaml") = false
            ∧ Posix.exists_ (fs jc) (loc +:+ ".yml") = false
        end.
Proof.
  unfold Staging.attempt.
  intros (i' & j1 & Hadd & Hrest)%bind_inr.
  apply bind_inr in Hrest as ([] & j2 & Hprep & Hrest).
  apply bind_inr in Hrest as (pb & j3 & Hget & Hret).
  injection Hret as <- <- <-.
  destruct (addPlaybook_inr _ _ _ Hadd) as (Hi & Hlen & Hptr).
  pose proof (hoare_get_pb (λ _, True) (Run i') _ _ _ I Hget) as [_ Hl].
  assert (j3 = j2) as ->.
  { unfold get_pb in Hget. destruct (lookup_ref _ _); by injection Hget. }
  split; [done|]. split.
  { by apply (free_preparePlaybook (Run i') _ playbook args false
                (free_length_playbooks _ _) _ _ _ Hlen Hprep). }
  split.
  { rewrite <- Hptr.
    by apply (free_preparePlaybook (Run i') _ playbook args false
                (free_playbook _ _) _ _ _ eq_refl Hprep). }
  split; [by exists pb|].
  unfold Staging.preparePlaybook in Hprep.
  apply bind_inr in Hprep as (loc & jc & Hloc & Hrest).
  apply bind_inr in Hrest as (found & jc' & Hfind & Hstage).
  pose proof (readonly_findPlaybook _ _ _ _ _ _ Hfind) as ->.
  destruct (stage_path (Run i') playbook args found _ _ _ I Hstage)
    as (pb' & Hl' & Hp').
  rewrite Hl in Hl'. injection Hl' as <-.
  exists loc, jc. split.
  { unfold Staging.seek. rewrite (bind_eq _ _ _ _ _ Hadd).
    by rewrite (bind_eq _ _ _ _ _ Hloc). }
  rewrite Hp'. destruct found as [fn|].
  - by apply (findPlaybook_found _ _ _ _ _ _ Hfind).
  - by apply (findPlaybook_missing _ _ _ _ _ Hfind).
Qed.

(** One round of the loop, by the outcome of the attempt. *)
Lemma prepare_candidates_cons playbook rest args j :
  prepare_candidates (playbook :: rest) args j =
    match attempt playbook args j with
    | (inr (i, Some _), j1) => (inr tt, choose i j1)
    | (inr (i, None), j1) => prepare_candidates rest args j1
    | (inl e, j1) => (inl e, j1)
    end.
Proof.
  simpl. unfold Staging.attempt, bind.
  destruct (addPlaybook j) as [[e|i] j1]; [done|].
  destruct (Staging.preparePlaybook _ _ _ _ _ _ _ _ _ _ j1) as [[e|[]] j2]; [done|].
  destruct (get_pb (Run i) j2) as [[e|pb] j3]; [done|]. simpl.
  by destruct (JobDirPlaybook.path pb) as [fn|].
Qed.

(** Candidates that do not resolve are passed over. *)
Lemma misses_skip args before rest j j1 :
  misses args before j j1 →
  prepare_candidates (before ++ rest) args j = prepare_candidates rest args j1.
Proof.
  induction 1 as [|c cs i j j1 j2 Hatt Hm IH]; [done|].
  rewrite <- app_comm_cons, prepare_candidates_cons, Hatt. apply IH.
Qed.

Lemma misses_state args cs j j' :
  misses args cs j j' →
  JobDir.playbook (jobdir j') = JobDir.playbook (jobdir j)
  ∧ length (JobDir.playbooks (jobdir j'))
    = length (JobDir.playbooks (jobdir j)) + length cs.
Proof.
  induction 1 as [|c cs i j j1 j2 Hatt Hm [IH1 IH2]]; [split; [done | simpl; lia]|].
  destruct (attempt_inr _ _ _ _ _ _ Hatt) as (Hi & Hlen & Hptr & _).
  split; [congruence|]. simpl. lia.
Qed.

(** The candidate loop as a whole. *)
Lemma candidate_loop args cands j :
  (∀ before c after j1,
     cands = before ++ c :: after → misses args before j j1 →
     (∀ i fn j2,
        attempt c args j1 = (inr (i, Some fn), j2) →
        prepare_candidates cands args j = (inr tt, choose i j2)
        ∧ i = length (JobDir.playbooks (jobdir j)) + length before
        ∧ length (JobDir.playbooks (jobdir (choose i j2))) = S i
        ∧ ∃ pb, JobDir.selected (jobdir (choose i j2)) = Some pb
                ∧ JobDirPlaybook.path pb = Some fn)
     ∧ (∀ e j2,
          attempt c args j1 = (inl e, j2) →
          prepare_candidates cands args j = (inl e, j2)))
  ∧ (∀ j', misses args cands j j' →
           prepare_candidates cands args j = (inr tt, j')
           ∧ JobDir.playbook (jobdir j') = JobDir.playbook (jobdir j)).
Proof.
  split.
  - intros before c after j1 -> Hm. rewrite (misses_skip _ _ _ _ _ Hm).
    rewrite prepare_candidates_cons.
    destruct (misses_state _ _ _ _ Hm) as [_ Hlen]. split.
    + intros i fn j2 Hatt. rewrite Hatt. split; [done|].
      destruct (attempt_inr _ _ _ _ _ _ Hatt) as (Hi & Hl & _ & (pb & Hpb & Hp) & _).
      split; [lia|]. split; [done|]. exists pb. split; [|done].
      unfold JobDir.selected. simpl. done.
    + intros e j2 Hatt. by rewrite Hatt.
  - intros j' Hm. split.
    + rewrite <- (app_nil_r cands), (misses_skip _ _ _ _ _ Hm). done.
    + by apply (misses_state _ _ _ _ Hm).
Qed.

(** [preparePlaybooks] after its pre loop has returned. *)
Lemma preparePlaybooks_after_pre args j0 j :
  prepare_pre args j0 = (inr tt, j) →
  preparePlaybooks args j0 =
    match prepare_candidates (Staging.playbooks args) args j with
    | (inr _, j') =>
        if bool_decide (JobDir.playbook (jobdir j') = None)
        then (inl (ExecutorError "No valid playbook found"), j')
        else prepare_post args j'
    | (inl e, j') => (inl e, j')
    end.
Proof.
  intros Hpre. unfold Staging.preparePlaybooks.
  fold (prepare_pre args). rewrite (bind_eq _ _ _ _ _ Hpre).
  unfold bind at 1.
  destruct (prepare_candidates _ args j) as [[e|[]] j']; [done|].
  unfold bind at 1, gets at 1. 
  destruct (bool_decide (JobDir.playbook (jobdir j') = None)); [done|].
  done.
Qed.

Lemma prepare_pre_playbook args x :
  hoare (λ j, JobDir.playbook (jobdir j) = x) (prepare_pre args)
        (λ _ j, JobDir.playbook (jobdir j) = x).
Proof.
  unfold Staging.prepare_pre. apply hoare_for_each. intros playbook.
  eapply hoare_bind with (R := λ _ j, JobDir.playbook (jobdir j) = x).
  - unfold addPrePlaybook.
    eapply hoare_bind with (R := λ _ j, JobDir.playbook (jobdir j) = x);
      [by apply hoare_gets|].
    intros jd.
    eapply hoare_bind with (R := λ _ j, JobDir.playbook (jobdir j) = x);
      [by apply hoare_on_fs|].
    intros ?.
    eapply hoare_bind with (R := λ _ j, JobDir.playbook (jobdir j) = x);
      [by apply hoare_on_jobdir | intros; by apply hoare_ret].
  - intros i. apply free_preparePlaybook, free_playbook.
Qed.

(** ** The job directory after the preparation *)

(** A prepared playbook has the path [findPlaybook] returned; a required
    playbook has one. *)
Lemma preparePlaybook_slot r playbook args required j j' :
  preparePlaybook r playbook args required j = (inr tt, j') →
  ∃ found, slot_path r found j' ∧ (required = true → is_Some found).
Proof.
  unfold Staging.preparePlaybook.
  intros (loc & jc & Hloc & Hrest)%bind_inr.
  apply bind_inr in Hrest as (found & jc' & Hfind & Hstage).
  exists found. split; [by apply (stage_path r playbook args found _ _ _ I Hstage)|].
  intros ->. destruct found; [by eexists|].
  by destruct (findPlaybook_missing _ _ _ _ _ Hfind).
Qed.

Lemma free_length_pre r n :
  free r (λ j, length (JobDir.pre_playbooks (jobdir j)) = n).
Proof.
  split; [done | done |]. intros j pb' H. destruct r; simpl; [| done | done].
  by rewrite length_insert.
Qed.

Lemma free_length_post r n :
  free r (λ j, length (JobDir.post_playbooks (jobdir j)) = n).
Proof.
  split; [done | done |]. intros j pb' H. destruct r; simpl; [done | done |].
  by rewrite length_insert.
Qed.

Lemma free_pre_prepared r :
  (∀ i, r ≠ Pre i) →
  free r (λ j, Forall Phases.prepared (JobDir.pre_playbooks (jobdir j))).
Proof.
  intros Hr. split; [done | done |]. intros j pb' H.
  destruct r as [i|i|i]; [by destruct (Hr i) | done | done].
Qed.

Lemma free_post_prepared r :
  (∀ i, r ≠ Post i) →
  free r (λ j, Forall Phases.prepared (JobDir.post_playbooks (jobdir j))).
Proof.
  intros Hr. split; [done | done |]. intros j pb' H.
  destruct r as [i|i|i]; [done | done | by destruct (Hr i)].
Qed.

Lemma free_selected r x :
  (∀ i, r ≠ Run i) → free r (λ j, JobDir.selected (jobdir j) = x).
Proof.
  intros Hr. split; [done | done |]. intros j pb' H.
  destruct r as [i|i|i]; [done | by destruct (Hr i) | done].
Qed.

(** One round of the pre loop keeps the pre playbooks prepared. *)
Lemma pre_round_prepared playbook args j j' :
  Forall Phases.prepared (JobDir.pre_playbooks (jobdir j)) →
  bind addPrePlaybook (λ i, preparePlaybook (Pre i) playbook args true) j
    = (inr tt, j') →
  Forall Phases.prepared (JobDir.pre_playbooks (jobdir j')).
Proof.
  intros Hall (i & j1 & Hadd & Hprep)%bind_inr.
  assert (i = length (JobDir.pre_playbooks (jobdir j))
          ∧ JobDir.pre_playbooks (jobdir j1)
            = JobDir.pre_playbooks (jobdir j) ++ [JobDirPlaybook.init
                (Posix.join (JobDir.ansible_root (jobdir j))
                   ["pre_playbook_" +:+ pretty i])]) as [Hi Hpre].
  { revert Hadd. unfold addPrePlaybook, bind, gets, on_fs, on_jobdir, modify, ret.
    simpl. destruct (Posix.makedirs _ (fs j)) as [[e|[]] fs1]; [done|].
    by intros [= <- <-]. }
  destruct (preparePlaybook_slot _ _ _ _ _ _ Hprep) as (found & (pb & Hl & Hp) & Hsome).
  assert (length (JobDir.pre_playbooks (jobdir j')) = S i) as Hlen.
  { apply (free_preparePlaybook (Pre i) _ playbook args true
             (free_length_pre (Pre i) (S i)) j1 tt j'); [|done].
    rewrite Hpre, length_app. simpl. lia. }
  apply Forall_lookup. intros k pb' Hk.
  destruct (decide (k = i)) as [-> | Hne].
  - simpl in Hl. rewrite Hl in Hk. injection Hk as <-.
    unfold Phases.prepared. rewrite Hp. by apply Hsome.
  - assert (k < i) as Hlt.
    { apply lookup_lt_Some in Hk. lia. }
    destruct (lookup_lt_is_Some_2 (JobDir.pre_playbooks (jobdir j)) k
                ltac:(lia)) as [pb0 Hpb0].
    assert (slot_path (Pre k) (JobDirPlaybook.path pb0) j1) as Hslot.
    { exists pb0. split; [|done]. simpl. rewrite Hpre.
      by rewrite lookup_app_l by lia. }
    apply (free_preparePlaybook (Pre i) _ playbook args true
             (free_slot_path (Pre i) (Pre k) _ ltac:(congruence)) _ _ _ Hslot)
      in Hprep as (pb1 & Hl1 & Hp1).
    simpl in Hl1. rewrite Hl1 in Hk. injection Hk as <-.
    unfold Phases.prepared. rewrite Hp1.
    by apply (proj1 (Forall_lookup _ _) Hall k pb0).
Qed.

(** One round of the post loop keeps the post playbooks prepared. *)
Lemma post_round_prepared playbook args j j' :
  Forall Phases.prepared (JobDir.post_playbooks (jobdir j)) →
  bind addPostPlaybook (λ i, preparePlaybook (Post i) playbook args true) j
    = (inr tt, j') →
  Forall Phases.prepared (JobDir.post_playbooks (jobdir j')).
Proof.
  intros Hall (i & j1 & Hadd & Hprep)%bind_inr.
  assert (i = length (JobDir.post_playbooks (jobdir j))
          ∧ JobDir.post_playbooks (jobdir j1)
            = JobDir.post_playbooks (jobdir j) ++ [JobDirPlaybook.init
                (Posix.join (JobDir.ansible_root (jobdir j))
                   ["post_playbook_" +:+ pretty i])]) as [Hi Hpost].
  { revert Hadd. unfold addPostPlaybook, bind, gets, on_fs, on_jobdir, modify, ret.
    simpl. destruct (Posix.makedirs _ (fs j)) as [[e|[]] fs1]; [done|].
    by intros [= <- <-]. }
  destruct (preparePlaybook_slot _ _ _ _ _ _ Hprep) as (found & (pb & Hl & Hp) & Hsome).
  assert (length (JobDir.post_playbooks (jobdir j')) = S i) as Hlen.
  { apply (free_preparePlaybook (Post i) _ playbook args true
             (free_length_post (Post i) (S i)) j1 tt j'); [|done].
    rewrite Hpost, length_app. simpl. lia. }
  apply Forall_lookup. intros k pb' Hk.
  destruct (decide (k = i)) as [-> | Hne].
  - simpl in Hl. rewrite Hl in Hk. injection Hk as <-.
    unfold Phases.prepared. rewrite Hp. by apply Hsome.
  - assert (k < i) as Hlt.
    { apply lookup_lt_Some in Hk. lia. }
    destruct (lookup_lt_is_Some_2 (JobDir.post_playbooks (jobdir j)) k
                ltac:(lia)) as [pb0 Hpb0].
    assert (slot_path (Post k) (JobDirPlaybook.path pb0) j1) as Hslot.
    { exists pb0. split; [|done]. simpl. rewrite Hpost.
      by rewrite lookup_app_l by lia. }
    apply (free_preparePlaybook (Post i) _ playbook args true
             (free_slot_path (Post i) (Post k) _ ltac:(congruence)) _ _ _ Hslot)
      in Hprep as (pb1 & Hl1 & Hp1).
    simpl in Hl1. rewrite Hl1 in Hk. injection Hk as <-.
    unfold Phases.prepared. rewrite Hp1.
    by apply (proj1 (Forall_lookup _ _) Hall k pb0).
Qed.

(** A round of the post loop keeps what does not look at the post
    playbooks. *)
Lemma post_round_free (P : Job → Prop) playbook args :
  (∀ i, free (Post i) P) →
  (∀ j l, P j → P (mkJob (JobDir.set_post_playbooks l (jobdir j)) (fs j))) →
  hoare P (bind addPostPlaybook (λ i, preparePlaybook (Post i) playbook args true))
        (λ _, P).
Proof.
  intros HF Hset. eapply hoare_bind with (R := λ _, P).
  - unfold addPostPlaybook.
    eapply hoare_bind with (R := λ _, P); [by apply hoare_gets|]. intros jd.
    eapply hoare_bind with (R := λ _, P).
    { apply hoare_on_fs. apply (free_fs _ _ (HF 0)). }
    intros ?. eapply hoare_bind with (R := λ _, P); [|intros; by apply hoare_ret].
    apply hoare_on_jobdir. intros j HP. by apply Hset.
  - intros i. by apply free_preparePlaybook.
Qed.

(** A round of the candidate loop keeps the pre playbooks prepared. *)
Lemma attempt_pre_prepared playbook args :
  hoare (λ j, Forall Phases.prepared (JobDir.pre_playbooks (jobdir j)))
        (attempt playbook args)
        (λ _ j, Forall Phases.prepared (JobDir.pre_playbooks (jobdir j))).
Proof.
  unfold Staging.attempt.
  eapply hoare_bind
    with (R := λ _ j, Forall Phases.prepared (JobDir.pre_playbooks (jobdir j))).
  - unfold addPlaybook.
    eapply hoare_bind
      with (R := λ _ j, Forall Phases.prepared (JobDir.pre_playbooks (jobdir j)));
      [by apply hoare_gets|].
    intros jd.
    eapply hoare_bind
      with (R := λ _ j, Forall Phases.prepared (JobDir.pre_playbooks (jobdir j)));
      [by apply hoare_on_fs|].
    intros ?.
    eapply hoare_bind
      with (R := λ _ j, Forall Phases.prepared (JobDir.pre_playbooks (jobdir j)));
      [by apply hoare_on_jobdir | intros; by apply hoare_ret].
  - intros i.
    eapply hoare_bind
      with (R := λ _ j, Forall Phases.prepared (JobDir.pre_playbooks (jobdir j))).
    + apply free_preparePlaybook, free_pre_prepared. congruence.
    + intros ?. eapply hoare_bind; [apply hoare_get_pb|].
      intros pb. apply hoare_ret. by intros j [H _].
Qed.

(** The candidate loop, when it returns with a playbook chosen, has
    chosen a prepared one and kept the pre playbooks prepared. *)
Lemma prepare_candidates_ready args cands : ∀ j j',
  JobDir.playbook (jobdir j) = None →
  Forall Phases.prepared (JobDir.pre_playbooks (jobdir j)) →
  prepare_candidates cands args j = (inr tt, j') →
  JobDir.playbook (jobdir j') ≠ None →
  Forall Phases.prepared (JobDir.pre_playbooks (jobdir j'))
  ∧ ∃ pb, JobDir.selected (jobdir j') = Some pb ∧ Phases.prepared pb.
Proof.
  induction cands as [|c cands IH]; intros j j' Hnone Hpre.
  { intros [= <-] Hsome. done. }
  rewrite prepare_candidates_cons.
  destruct (attempt c args j) as [[e|[i [fn|]]] j1] eqn:Hatt; [done|..].
  - intros [= <-] _.
    pose proof (attempt_pre_prepared c args _ _ _ Hpre Hatt) as Hpre1.
    destruct (attempt_inr _ _ _ _ _ _ Hatt) as (_ & _ & _ & (pb & Hl & Hp) & _).
    split; [done|]. exists pb. split; [done|]. unfold Phases.prepared.
    rewrite Hp. by eexists.
  - intros Hrest Hsome.
    destruct (attempt_inr _ _ _ _ _ _ Hatt) as (_ & _ & Hptr & _).
    apply (IH j1 j'); [congruence | | done | done].
    by apply (attempt_pre_prepared c args _ _ _ Hpre Hatt).
Qed.

(** When [preparePlaybooks] returns, on a job directory that
    [JobDir.__init__] made, the job directory is ready for
    [runPlaybooks]. *)
Lemma preparePlaybooks_ready args j j' :
  fresh (jobdir j) →
  preparePlaybooks args j = (inr tt, j') →
  Phases.ready (jobdir j').
Proof.
  intros (Hpre0 & Hrun0 & Hpost0 & Hnone) Hprep.
  unfold Staging.preparePlaybooks in Hprep.
  apply bind_inr in Hprep as ([] & j1 & Hpre & Hrest).
  apply bind_inr in Hrest as ([] & j2 & Hcands & Hrest).
  apply bind_inr in Hrest as (chosen & j2' & Hget & Hrest).
  injection Hget as <- <-.
  apply bind_inr in Hrest as ([] & j3 & Hcheck & Hpost).
  case_bool_decide as Hchosen; [done|]. injection Hcheck as <-.
  assert (Forall Phases.prepared (JobDir.pre_playbooks (jobdir j1))) as Hpre1.
  { revert Hpre. fold (prepare_pre args). unfold Staging.prepare_pre.
    apply (hoare_for_each
             (λ j, Forall Phases.prepared (JobDir.pre_playbooks (jobdir j)))).
    - intros playbook j4 [] j5 H4 Hround. by eapply pre_round_prepared.
    - rewrite Hpre0. constructor. }
  assert (JobDir.playbook (jobdir j1) = None) as Hnone1.
  { by apply (prepare_pre_playbook args None j tt j1 Hnone Hpre). }
  destruct (prepare_candidates_ready args _ _ _ Hnone1 Hpre1 Hcands Hchosen)
    as (Hpre2 & pb & Hsel & Hpb).
  assert (length (JobDir.post_playbooks (jobdir j2)) = 0) as Hpost2.
  { assert (hoare (λ j, JobDir.post_playbooks (jobdir j) = [])
              (prepare_pre args) (λ _ j, JobDir.post_playbooks (jobdir j) = []))
      as Hh1.
    { unfold Staging.prepare_pre. apply hoare_for_each. intros playbook.
      eapply hoare_bind with (R := λ _ j, JobDir.post_playbooks (jobdir j) = []).
      - unfold addPrePlaybook.
        eapply hoare_bind with (R := λ _ j, JobDir.post_playbooks (jobdir j) = []);
          [by apply hoare_gets|].
        intros jd.
        eapply hoare_bind with (R := λ _ j, JobDir.post_playbooks (jobdir j) = []);
          [by apply hoare_on_fs|].
        intros ?.
        eapply hoare_bind with (R := λ _ j, JobDir.post_playbooks (jobdir j) = []);
          [by apply hoare_on_jobdir | intros; by apply hoare_ret].
      - intros i. apply free_preparePlaybook.
        split; [done | done |]. by intros j4 pb' H4. }
    pose proof (Hh1 _ _ _ Hpost0 Hpre) as Hp1.
    assert (∀ cands j4 j5, JobDir.post_playbooks (jobdir j4) = [] →
              prepare_candidates cands args j4 = (inr tt, j5) →
              JobDir.post_playbooks (jobdir j5) = []) as Hh2.
    { induction cands as [|c cands IH]; intros j4 j5 H4.
      { by intros [= <-]. }
      rewrite prepare_candidates_cons.
      destruct (attempt c args j4) as [[e|[i p]] j6] eqn:Hatt; [done|].
      assert (JobDir.post_playbooks (jobdir j6) = []) as H6.
      { revert Hatt. unfold Staging.attempt.
        intros (i' & j7 & Hadd & Hr)%bind_inr.
        apply bind_inr in Hr as ([] & j8 & Hprep8 & Hr).
        apply bind_inr in Hr as (pb8 & j9 & Hget & Hret).
        injection Hret as <- <- <-.
        assert (j9 = j8) as ->.
        { unfold get_pb in Hget. destruct (lookup_ref _ _); by injection Hget. }
        apply (free_preparePlaybook (Run i') (λ j, JobDir.post_playbooks (jobdir j) = [])
                 c args false) in Hprep8; [done | |].
        - split; [done | done |]. by intros j10 pb' H10.
        - revert Hadd. unfold addPlaybook, bind, gets, on_fs, on_jobdir, modify, ret.
          simpl. destruct (Posix.makedirs _ (fs j4)) as [[e|[]] fs1]; [done|].
          by intros [= <- <-]. }
      destruct p as [fn|]; [by intros [= <-] | by apply IH]. }
    by rewrite (Hh2 _ _ _ Hp1 Hcands). }
  apply length_zero_iff_nil in Hpost2.
  split; [|split].
  - revert Hpost. fold (prepare_post args). unfold Staging.prepare_post.
    apply (hoare_for_each
             (λ j, Forall Phases.prepared (JobDir.pre_playbooks (jobdir j)))
             _ _ (λ playbook, post_round_free _ playbook args
                    (λ i, free_pre_prepared (Post i) ltac:(congruence))
                    ltac:(done)) _ _ _ Hpre2).
  - revert Hpost. fold (prepare_post args). unfold Staging.prepare_post.
    apply (hoare_for_each
             (λ j, Forall Phases.prepared (JobDir.post_playbooks (jobdir j)))).
    + intros playbook j4 [] j5 H4 Hround. by eapply post_round_prepared.
    + rewrite Hpost2. constructor.
  - exists pb. split; [|done]. revert Hpost. fold (prepare_post args).
    unfold Staging.prepare_post.
    apply (hoare_for_each (λ j, JobDir.selected (jobdir j) = Some pb)
             _ _ (λ playbook, post_round_free _ playbook args
                    (λ i, free_selected (Post i) _ ltac:(congruence))
                    ltac:(done)) _ _ _ Hsel).
Qed.

(** A path joined with a name that is not empty is not empty. *)
Lemma join2_nonempty (a b : string) : b ≠ "" → Posix.join2 a b ≠ "".
Proof.
  intros Hb. unfold Posix.join2.
  assert (∀ x y : string, y ≠ "" → x +:+ y ≠ "") as Happ.
  { intros x y Hy. destruct x; [done | by simpl]. }
  destruct (Posix.startswith b "/"); [done|].
  destruct (_ || _); apply Happ; [done|]. by apply Happ.
Qed.

(** X10. A trusted project is checked out once per job: after
    [checkoutTrustedProject] returned for a project and a branch, the
    pair is in the index of the job directory, and a second call for
    them returns the same path and leaves the job directory and the file
    system as they are, so the merger is not asked again. *)
Theorem checkoutTrustedProject_cached project branch j p j1 :
  checkoutTrustedProject project branch j = (inr p, j1) →
  checkoutTrustedProject project branch j1 = (inr p, j1)
  ∧ ∃ root,
      JobDir.trusted_project_index (jobdir j1) !! (canonical_name project, branch)
        = Some root
      ∧ root ≠ ""
      ∧ p = Posix.join root [canonical_hostname project; name project].
Proof.
  unfold Staging.checkoutTrustedProject, getTrustedProject, bind, gets.
  destruct (truthy (JobDir.trusted_project_index (jobdir j)
                      !! (canonical_name project, branch))) eqn:Hfound.
  - unfold ret. intros [= <- <-]. rewrite Hfound. split; [done|].
    destruct (JobDir.trusted_project_index (jobdir j) !! _) as [root|];
      [|done].
    exists root. split; [done|]. split; [|done].
    simpl in Hfound. by case_bool_decide.
  - unfold addTrustedProject, bind, gets, on_fs, on_jobdir, modify, ret.
    destruct (Posix.makedirs _ (fs j)) as [[e|[]] fs1]; [done|]. simpl.
    destruct (merger_checkoutBranch _ _ _ _ fs1) as [[e|[]] fs2]; [done|].
    intros [= <- <-]. simpl. rewrite lookup_insert_eq.
    set (root := Posix.join2 (JobDir.trusted_root (jobdir j)) _).
    assert (root ≠ "") as Hroot.
    { subst root. by apply join2_nonempty. }
    assert (truthy (Some root) = true) as ->.
    { simpl. by rewrite bool_decide_eq_false_2. }
    split; [done|]. by exists root.
Qed.

(** ** The playbook objects of a prepared job *)

Lemma free_shape r n_pre n_run n_post chosen :
  free r (shape n_pre n_run n_post chosen).
Proof.
  split; [done | done |]. intros j pb' (Hpre & Hrun & Hpost & Hc).
  unfold shape. destruct r; simpl; rewrite ?length_insert; done.
Qed.

Lemma pre_round_shape playbook args a b c x :
  hoare (shape a b c x)
        (bind addPrePlaybook (λ i, preparePlaybook (Pre i) playbook args true))
        (λ _, shape (S a) b c x).
Proof.
  eapply hoare_bind with (R := λ _, shape (S a) b c x).
  - intros j i j' (Hpre & Hrun & Hpost & Hc).
    unfold addPrePlaybook, bind, gets, on_fs, on_jobdir, modify, ret. simpl.
    destruct (Posix.makedirs _ (fs j)) as [[e|[]] fs1]; [done|].
    intros [= <- <-]. unfold shape. simpl. rewrite length_app. simpl.
    split; [lia | done].
  - intros i. apply free_preparePlaybook, free_shape.
Qed.

Lemma post_round_shape playbook args a b c x :
  hoare (shape a b c x)
        (bind addPostPlaybook (λ i, preparePlaybook (Post i) playbook args true))
        (λ _, shape a b (S c) x).
Proof.
  eapply hoare_bind with (R := λ _, shape a b (S c) x).
  - intros j i j' (Hpre & Hrun & Hpost & Hc).
    unfold addPostPlaybook, bind, gets, on_fs, on_jobdir, modify, ret. simpl.
    destruct (Posix.makedirs _ (fs j)) as [[e|[]] fs1]; [done|].
    intros [= <- <-]. unfold shape. simpl. rewrite length_app. simpl.
    split; [done|]. split; [done|]. split; [lia | done].
  - intros i. apply free_preparePlaybook, free_shape.
Qed.

Lemma attempt_shape playbook args a b c x :
  hoare (shape a b c x) (attempt playbook args)
        (λ r j, r.1 = b ∧ shape a (S b) c x j).
Proof.
  unfold Staging.attempt.
  eapply hoare_bind with (R := λ i j, i = b ∧ shape a (S b) c x j).
  - intros j i j' (Hpre & Hrun & Hpost & Hc).
    unfold addPlaybook, bind, gets, on_fs, on_jobdir, modify, ret. simpl.
    destruct (Posix.makedirs _ (fs j)) as [[e|[]] fs1]; [done|].
    intros [= <- <-]. unfold shape. simpl. rewrite length_app. simpl.
    split; [done|]. split; [done|]. split; [lia | done].
  - intros i.
    eapply hoare_bind with (R := λ _ j, i = b ∧ shape a (S b) c x j).
    + intros j [] j' [Hi Hs] Hprep. split; [done|].
      by apply (free_preparePlaybook (Run i) _ playbook args false
                  (free_shape _ _ _ _ _) _ _ _ Hs Hprep).
    + intros ?. eapply hoare_bind; [apply hoare_get_pb|].
      intros pb. apply hoare_ret. by intros j [H _].
Qed.

(** The loops, by the number of rounds they made. *)
Lemma prepare_pre_shape args b c x : ∀ l a,
  hoare (shape a b c x)
        (for_each l (λ playbook,
           bind addPrePlaybook (λ i, preparePlaybook (Pre i) playbook args true)))
        (λ _, shape (a + length l) b c x).
Proof.
  induction l as [|pb l IH]; intros a.
  { apply hoare_ret. intros j Hs. simpl. by rewrite Nat.add_0_r. }
  simpl. eapply hoare_bind; [apply pre_round_shape|]. intros ?.
  eapply hoare_conseq; [apply (IH (S a)) | done |].
  intros [] j Hs. by replace (a + S (length l)) with (S a + length l) by lia.
Qed.

Lemma prepare_post_shape args a b x : ∀ l c,
  hoare (shape a b c x)
        (for_each l (λ playbook,
           bind addPostPlaybook (λ i, preparePlaybook (Post i) playbook args true)))
        (λ _, shape a b (c + length l) x).
Proof.
  induction l as [|pb l IH]; intros c.
  { apply hoare_ret. intros j Hs. simpl. by rewrite Nat.add_0_r. }
  simpl. eapply hoare_bind; [apply post_round_shape|]. intros ?.
  eapply hoare_conseq; [apply (IH (S c)) | done |].
  intros [] j Hs. by replace (c + S (length l)) with (S c + length l) by lia.
Qed.

Lemma prepare_candidates_shape args a c : ∀ cands b j j',
  shape a b c None j →
  prepare_candidates cands args j = (inr tt, j') →
  JobDir.playbook (jobdir j') ≠ None →
  ∃ k, 1 ≤ k ≤ length cands ∧ shape a (b + k) c (Some (b + k - 1)) j'.
Proof.
  induction cands as [|cand cands IH]; intros b j j' Hs.
  { intros [= <-] Hsome. by destruct Hs as (_ & _ & _ & Hc). }
  rewrite prepare_candidates_cons.
  destruct (attempt cand args j) as [[e|[i [fn|]]] j1] eqn:Hatt; [done|..].
  - intros [= <-] _.
    destruct (attempt_shape cand args a b c None _ _ _ Hs Hatt)
      as (Hi & Hpre & Hrun & Hpost & Hc). simpl in Hi. subst i.
    exists 1. simpl. split; [lia|].
    unfold shape, choose. simpl.
    replace (b + 1) with (S b) by lia. replace (S b - 1) with b by lia. done.
  - intros Hrest Hsome.
    destruct (attempt_shape cand args a b c None _ _ _ Hs Hatt) as (_ & Hs1).
    destruct (IH (S b) j1 j' Hs1 Hrest Hsome) as (k & Hk & Hshape).
    exists (S k). simpl. split; [lia|].
    by replace (b + S k) with (S b + k) by lia.
Qed.

(** X26. The playbook objects of a prepared job. When [preparePlaybooks]
    returns on a job directory that [JobDir.__init__] made, the job
    directory has one object per pre playbook and one per post playbook
    of the job; it has an object for each main candidate that was tried,
    at least one and no more than there are candidates; and the chosen
    playbook is the last of them: no candidate after it was given a
    directory. *)
Theorem preparePlaybooks_slots args j j' :
  fresh (jobdir j) →
  preparePlaybooks args j = (inr tt, j') →
  ∃ k, 1 ≤ k ≤ length (playbooks args)
       ∧ shape (length (pre_playbooks args)) k (length (post_playbooks args))
           (Some (k - 1)) j'.
Proof.
  intros (Hpre0 & Hrun0 & Hpost0 & Hnone) Hprep.
  assert (shape 0 0 0 None j) as Hs0.
  { unfold shape. by rewrite Hpre0, Hrun0, Hpost0. }
  unfold Staging.preparePlaybooks in Hprep.
  apply bind_inr in Hprep as ([] & j1 & Hpre & Hrest).
  apply bind_inr in Hrest as ([] & j2 & Hcands & Hrest).
  apply bind_inr in Hrest as (chosen & j2' & Hget & Hrest).
  injection Hget as <- <-.
  apply bind_inr in Hrest as ([] & j3 & Hcheck & Hpost).
  case_bool_decide as Hchosen; [done|]. injection Hcheck as <-.
  pose proof (prepare_pre_shape args 0 0 None _ 0 _ _ _ Hs0 Hpre) as Hs1.
  destruct (prepare_candidates_shape args _ 0 _ 0 _ _ Hs1 Hcands Hchosen)
    as (k & Hk & Hs2).
  pose proof (prepare_post_shape args _ _ _ _ 0 _ _ _ Hs2 Hpost) as Hs3.
  exists k. split; [exact Hk|]. exact Hs3.
Qed.

End PrepareFacts.

(** The configuration project is checked out for the first playbook and
    found in the index for the second. *)
Lemma checkoutTrustedProject_cached_witness :
  let project := example_getProject "gerrit" "org/config" in
  let first :=
    Staging.checkoutTrustedProject example_checkout project (Some "master")
      the_job in
  (Staging.checkoutTrustedProject example_checkout project (Some "master")
     first.2).1
  = inr "/tmp/uuid/trusted/project_0/git.example.com/org/config".
Proof.
  intros project first.
  assert (first.1 = inr "/tmp/uuid/trusted/project_0/git.example.com/org/config")
    as H by (vm_compute; reflexivity).
  apply pair_fst_eq in H.
  destruct (checkoutTrustedProject_cached example_checkout project
              (Some "master") the_job _ _ H) as [Hc _].
  by rewrite Hc.
Defined.

(** X11. What [findPlaybook] answers, and what it leaves alone. It never
    changes the job directory or the file system. A file it returns
    exists and is the path with the extension [.yaml], or with [.yml]
    when the [.yaml] file does not exist. It returns [None] only for a
    playbook that is not required and has neither file. It raises either
    because a required playbook has neither file ([ExecutorError] naming
    the path) or in the scan made for an untrusted playbook whose file
    exists. *)
Theorem findPlaybook_contract path required trusted j r j' :
  findPlaybook path required trusted j = (r, j') →
  j' = j
  ∧ match r with
    | inr (Some fn) =>
        Posix.exists_ (fs j) fn = true
        ∧ (fn = path +:+ ".yaml"
           ∨ (fn = path +:+ ".yml"
              ∧ Posix.exists_ (fs j) (path +:+ ".yaml") = false))
    | inr None =>
        required = false
        ∧ Posix.exists_ (fs j) (path +:+ ".yaml") = false
        ∧ Posix.exists_ (fs j) (path +:+ ".yml") = false
    | inl e =>
        (e = ExecutorError ("Unable to find playbook " +:+ path)
         ∧ required = true
         ∧ Posix.exists_ (fs j) (path +:+ ".yaml") = false
         ∧ Posix.exists_ (fs j) (path +:+ ".yml") = false)
        ∨ (trusted = false
           ∧ (Posix.exists_ (fs j) (path +:+ ".yaml") = true
              ∨ Posix.exists_ (fs j) (path +:+ ".yml") = true))
    end.
Proof.
  intros H.
  assert (j' = j) as -> by exact (readonly_findPlaybook _ _ _ _ _ _ H).
  split; [done|].
  destruct r as [e|[fn|]].
  - destruct trusted.
    { rewrite findPlaybook_trusted in H. left.
      destruct (Posix.exists_ (fs j) (path +:+ ".yaml")); [done|].
      destruct (Posix.exists_ (fs j) (path +:+ ".yml")); [done|].
      destruct required; [|done]. by injection H as <-. }
    destruct (Posix.exists_ (fs j) (path +:+ ".yaml")) eqn:Hyaml;
      [right; by eauto|].
    destruct (Posix.exists_ (fs j) (path +:+ ".yml")) eqn:Hyml;
      [right; by eauto|].
    left. destruct required.
    + unfold findPlaybook in H. simpl in H. unfold bind, gets in H.
      rewrite Hyaml, Hyml in H. by injection H as <-.
    + by rewrite (findPlaybook_neither path false j Hyaml Hyml) in H.
  - by apply (findPlaybook_found path required trusted j fn j).
  - by apply (findPlaybook_missing path required trusted j j).
Qed.

(** The checkout of the configuration project holds [playbooks/run.yaml]. *)
Lemma findPlaybook_contract_witness :
  let j := (Staging.checkoutTrustedProject example_checkout
              (example_getProject "gerrit" "org/config") (Some "master")
              the_job).2 in
  let path :=
    "/tmp/uuid/trusted/project_0/git.example.com/org/config/playbooks/run" in
  Posix.exists_ (fs j) (path +:+ ".yaml") = true.
Proof.
  intros j path.
  assert ((findPlaybook path true true j).1 = inr (Some (path +:+ ".yaml")))
    as H by (vm_compute; reflexivity).
  apply pair_fst_eq in H.
  destruct (findPlaybook_contract path true true j _ _ H) as (_ & Hex & _).
  exact Hex.
Defined.

(** Of the three candidates the second is chosen: two objects. *)
Lemma preparePlaybooks_slots_witness :
  ∃ k, 1 ≤ k ≤ length (playbooks args_three)
       ∧ shape (length (pre_playbooks args_three)) k
           (length (post_playbooks args_three)) (Some (k - 1))
           (example_prepare args_three the_job).2.
Proof.
  assert (fresh (jobdir the_job)) as Hfresh.
  { clear. vm_compute. repeat split; reflexivity. }
  assert ((example_prepare args_three the_job).1 = inr tt) as Hprep
    by (vm_compute; reflexivity).
  apply pair_fst_eq in Hprep.
  exact (preparePlaybooks_slots example_getProject example_checkout
           "/var/lib/zuul/ansible/zuul/ansible/library"
           "/var/lib/zuul/ansible/zuul/ansible/action"
           "/var/lib/zuul/ansible/zuul/ansible/callback"
           "/var/lib/zuul/ansible/zuul/ansible/lookup"
           args_three the_job _ Hfresh Hprep).
Defined.

(** ** The checks as they are made *)

(** The scan never raises when none of the names listed in [path] is a
    directory of the working directory, whatever [path] itself holds. *)
Lemma blockPluginDirs_working_directory path j entries :
  Posix.listdir (fs j) path = inr entries →
  (∀ entry, entry ∈ entries → Posix.isdir (fs j) entry = false) →
  _blockPluginDirs path j = (inr tt, j).
Proof.
  intros Hlist Hnot. unfold _blockPluginDirs, bind at 1. rewrite Hlist. simpl.
  clear Hlist. induction entries as [|entry entries IH]; [done|].
  simpl. unfold bind at 1, bind at 1, gets at 1.
  rewrite (Hnot entry) by left. simpl. apply IH.
  intros e He. apply Hnot. by right.
Qed.

(** Every string that extends the role root passes the test made on the
    link, a sibling directory as well as a path below the root. *)
Lemma startswith_extension (root suffix : string) :
  Posix.startswith (root +:+ suffix) root = true.
Proof.
  unfold Posix.startswith. induction root as [|c root IH]; simpl.
  - by destruct suffix.
  - destruct (ascii_dec c c); [apply IH | done].
Qed.

(** C6, on the code. The merged checkout of the change under test holds
    [playbooks/run.yaml] and the directory [playbooks/action_plugins]. The
    untrusted playbook [playbooks/run] resolves all the same: [findPlaybook]
    returns its path and [preparePlaybooks] chooses it, with no error. The
    scan asks [os.path.isdir] of the bare name [action_plugins], which is
    looked up in the working directory of the executor; it raises only
    when that directory holds the name too. *)
Theorem untrusted_plugin_dir_not_blocked :
  Posix.listdir (fs job_with_plugins) playbooks_dir
    = inr ["action_plugins"; "run.yaml"]
  ∧ Posix.isdir (fs job_with_plugins) (Posix.join playbooks_dir ["action_plugins"])
    = true
  ∧ Posix.endswith "action_plugins" "_plugins" = true
  ∧ (findPlaybook (Posix.join playbooks_dir ["run"]) false false
       job_with_plugins).1
    = inr (Some (Posix.join playbooks_dir ["run.yaml"]))
  ∧ (example_prepare args_untrusted job_with_plugins).1 = inr tt
  ∧ JobDirPlaybook.path
      <$> JobDir.selected (jobdir (example_prepare args_untrusted job_with_plugins).2)
    = Some (Some (Posix.join playbooks_dir ["run.yaml"]))
  ∧ (findPlaybook (Posix.join playbooks_dir ["run"]) false false
       job_with_plugins_in_cwd).1
    = inl (ExecutorError
             ("Ansible plugin dir action_plugins found adjacent to playbook "
              +:+ playbooks_dir +:+ " in non-trusted repo.")).
Proof. vm_compute. repeat split. Qed.

(** C7, on the code. The role root is [playbook_0/role_0]; the role name
    [../role_0x] resolves to [playbook_0/role_0x], a sibling of the role
    root, which passes the test because the string [.../role_0x] starts
    with the string [.../role_0]. No error is raised and the link is made
    outside the role root. The name [../../etc] is rejected. *)
Theorem role_link_outside_role_root :
  let j' := (example_prepare (args_with_role "../role_0x") the_job).2 in
  (example_prepare (args_with_role "../role_0x") the_job).1 = inr tt
  ∧ JobDirPlaybook.roles <$> JobDir.selected (jobdir j')
    = Some ["/tmp/uuid/ansible/playbook_0/role_0"]
  ∧ Posix.startswith "/tmp/uuid/ansible/playbook_0/role_0x"
      "/tmp/uuid/ansible/playbook_0/role_0" = true
  ∧ Posix.dirname "/tmp/uuid/ansible/playbook_0/role_0x"
    = "/tmp/uuid/ansible/playbook_0"
  ∧ Posix.lstat (fs j') "/tmp/uuid/ansible/playbook_0/role_0x"
    = Some (Posix.Symlink "/tmp/uuid/trusted/project_1/git.example.com/org/roles")
  ∧ Posix.listdir (fs j') "/tmp/uuid/ansible/playbook_0/role_0" = inr []
  ∧ (example_prepare (args_with_role "../../etc") the_job).1
    = inl (ExecutorError "Invalid role name %s").
Proof. vm_compute. repeat split. Qed.

(** ** The job directory as [JobDir.__init__] makes it *)

(** A prefix of a string is a prefix of what the string is extended to. *)
Lemma startswith_app (s p t : string) :
  Posix.startswith s p = true → Posix.startswith (s +:+ t) p = true.
Proof.
  unfold Posix.startswith. revert s.
  induction p as [|c p IH]; intros s; [intros _; by destruct (s +:+ t)|].
  destruct s as [|c' s]; [intros H; discriminate H|]. simpl.
  destruct (Ascii.ascii_dec c c'); [apply IH | intros H; discriminate H].
Qed.

(** What is joined to a path with a relative name starts with the
    path. *)
Lemma startswith_join2 (a b root : string) :
  Posix.startswith b "/" = false →
  Posix.startswith a root = true →
  Posix.startswith (Posix.join2 a b) root = true.
Proof.
  intros Hb Ha. unfold Posix.join2. rewrite Hb.
  destruct (_ || _); by repeat apply startswith_app.
Qed.

(** X27. The job directory as [JobDir.__init__] makes it. When the
    job root, the build UUID joined to the given root or to the system
    temporary directory, exists already, the constructor raises
    [FileExistsError] and leaves the file system as it is. When it
    returns, the root did not exist before, the keep flag is the one
    given, there is no playbook object, no chosen playbook, no trusted
    project and no secret yet, and every path the object records (work,
    source, log, ansible and trusted roots, result data file, known
    hosts, inventory, secrets and job output file) starts with the job
    root. *)
Theorem JobDir_init_layout gettempdir (root : option string) (keep : bool)
    (build_uuid : string) (fs : Posix.FS) r fs' :
  JobDir.init gettempdir root keep build_uuid fs = (r, fs') →
  let tmpdir := if truthy root then default "" root else gettempdir in
  (Posix.lexists fs (Posix.join tmpdir [build_uuid]) = true →
   r = inl (Exception "FileExistsError") ∧ fs' = fs)
  ∧ ∀ jd, r = inr jd →
      JobDir.root jd = Posix.join tmpdir [build_uuid]
      ∧ Posix.lexists fs (JobDir.root jd) = false
      ∧ JobDir.keep jd = keep
      ∧ fresh jd
      ∧ JobDir.has_secrets jd = false
      ∧ JobDir.trusted_projects jd = []
      ∧ Forall (λ p, Posix.startswith p (JobDir.root jd) = true)
          [JobDir.work_root jd; JobDir.src_root jd; JobDir.log_root jd;
           JobDir.ansible_root jd; JobDir.trusted_root jd;
           JobDir.result_data_file jd; JobDir.known_hosts jd;
           JobDir.inventory jd; JobDir.secrets jd; JobDir.job_output_file jd].
Proof.
  intros Hinit tmpdir. subst tmpdir.
  unfold JobDir.init in Hinit.
  set (tmpdir := if truthy root then default "" root else gettempdir) in *.
  set (root_ := Posix.join tmpdir [build_uuid]) in *.
  unfold bind at 1 in Hinit. unfold Posix.mkdir at 1 in Hinit.
  destruct (Posix.lexists fs root_) eqn:Hex.
  { injection Hinit as <- <-. split; [done|]. by intros jd. }
  split; [done|]. intros jd ->.
  destruct (Posix.new_place fs root_) as [e|comps]; [done|].
  repeat match type of Hinit with
         | bind ?m ?k ?s = _ =>
             unfold bind at 1 in Hinit;
             destruct (m s) as [[?|[]] ?]; [done|]
         end.
  injection Hinit as <- <-. simpl.
  assert (Posix.startswith root_ root_ = true) as Hroot.
  { generalize root_. unfold Posix.startswith. intros s.
    induction s as [|c s IH]; [done|]. simpl.
    by destruct (Ascii.ascii_dec c c). }
  split; [done|]. split; [done|]. split; [done|]. split; [done|].
  split; [done|]. split; [done|].
  repeat constructor; simpl; repeat (apply startswith_join2; [done|]); done.
Qed.

Lemma JobDir_init_layout_witness :
  JobDir.root (jobdir the_job) = Posix.join "/tmp" ["uuid"]
  ∧ Forall (λ p, Posix.startswith p (JobDir.root (jobdir the_job)) = true)
      [JobDir.work_root (jobdir the_job); JobDir.src_root (jobdir the_job);
       JobDir.log_root (jobdir the_job); JobDir.ansible_root (jobdir the_job);
       JobDir.trusted_root (jobdir the_job);
       JobDir.result_data_file (jobdir the_job);
       JobDir.known_hosts (jobdir the_job); JobDir.inventory (jobdir the_job);
       JobDir.secrets (jobdir the_job); JobDir.job_output_file (jobdir the_job)].
Proof.
  assert ((JobDir.init "/tmp" None false "uuid" fs_tmp).1
          = inr (jobdir the_job)) as Hinit by (vm_compute; reflexivity).
  destruct (JobDir_init_layout "/tmp" None false "uuid" fs_tmp _ _
              (surjective_pairing _)) as [_ H].
  destruct (H _ Hinit) as (Hroot & _ & _ & _ & _ & _ & Hall).
  split; [exact Hroot | exact Hall].
Defined.

End StagingFacts.

(** * Properties of the job *)

Module ExecuteFacts.
Import Staging Execute Examples StagingFacts.

Section JobFacts.

Context {W : Type}.
Variable is_aborted : W → bool.
Variable popen : Phases.Invocation → W → Phases.Proc * W.
Variable now : W → string * W.
Variable getProject : string → string → Project.
Variable merger_checkoutBranch :
  string → string → string → option string → M Posix.FS unit.
Variable library_dir action_dir callback_dir lookup_dir : string.
Variable verbose : bool.
Variable hostname : string.
Variable log_streaming_port : nat.
Variable unique : string.
Variable dump_inventory : Args → JobDir.t → list string.
Variable host_keys : Args → list string.
Variable dump_secrets : Args → list string.

Abbreviation preparePlaybooks :=
  (preparePlaybooks getProject merger_checkoutBranch library_dir action_dir
     callback_dir lookup_dir).
Abbreviation prepare_pre :=
  (prepare_pre getProject merger_checkoutBranch library_dir action_dir
     callback_dir lookup_dir).
Abbreviation prepare_post :=
  (prepare_post getProject merger_checkoutBranch library_dir action_dir
     callback_dir lookup_dir).
Abbreviation attempt :=
  (attempt getProject merger_checkoutBranch library_dir action_dir
     callback_dir lookup_dir).
Abbreviation seek := (seek getProject merger_checkoutBranch).
Abbreviation misses :=
  (misses getProject merger_checkoutBranch library_dir action_dir
     callback_dir lookup_dir).
Abbreviation execute :=
  (execute is_aborted popen now getProject merger_checkoutBranch library_dir
     action_dir callback_dir lookup_dir verbose hostname log_streaming_port
     unique dump_inventory host_keys dump_secrets).

(** An exception of [preparePlaybooks] ends the job before anything is
    launched: the only message sent is the report of the exception. *)
Lemma execute_prepare_error args j (w : W) e j' :
  preparePlaybooks args j = (inl e, j') →
  execute args (initial j w) =
    (inr tt, {| job := j'; run := Phases.start w;
                sent := [match e with
                         | ExecutorError detail => WorkError detail
                         | Exception _ => WorkException
                         end] |}).
Proof.
  intros Hprep. unfold Execute.execute, try_except, _execute.
  rewrite (bind_raise _ _ _ e {| job := j'; run := Phases.start w; sent := [] |}).
  - by destruct e.
  - unfold on_job. simpl. by rewrite Hprep.
Qed.

Abbreviation prepareAnsibleFiles :=
  (prepareAnsibleFiles dump_inventory host_keys dump_secrets).

(** [prepareAnsibleFiles] leaves the playbooks of the job directory as
    they are. *)
Lemma prepareAnsibleFiles_ready args :
  hoare (λ j, Phases.ready (jobdir j)) (prepareAnsibleFiles args)
        (λ _ j, Phases.ready (jobdir j)).
Proof.
  unfold Execute.prepareAnsibleFiles.
  case_bool_decide; [apply hoare_raise|].
  eapply hoare_bind with (R := λ _ j, Phases.ready (jobdir j));
    [by apply hoare_gets|]. intros jd.
  eapply hoare_bind with (R := λ _ j, Phases.ready (jobdir j));
    [by apply hoare_on_fs|]. intros ?.
  eapply hoare_bind with (R := λ _ j, Phases.ready (jobdir j));
    [by apply hoare_on_fs|]. intros ?.
  case_bool_decide; [by apply hoare_ret|].
  case_bool_decide; [apply hoare_raise|].
  eapply hoare_bind with (R := λ _ j, Phases.ready (jobdir j));
    [by apply hoare_on_fs|]. intros ?.
  by apply hoare_on_jobdir.
Qed.

(** A job whose preparation returns comes to [runPlaybooks] with a job
    directory that is ready, and reports what [runPlaybooks] returns. *)
Lemma execute_runs_ready args j (w : W) j1 j2 :
  fresh (jobdir j) →
  preparePlaybooks args j = (inr tt, j1) →
  prepareAnsibleFiles args j1 = (inr tt, j2) →
  Phases.ready (jobdir j2)
  ∧ ∀ result st',
      Phases.runPlaybooks is_aborted popen now verbose (jobdir j2)
        (timeout args) (Phases.start w) = (inr result, st') →
      ∃ data url,
        execute args (initial j w) =
          (inr tt, {| job := j2; run := st';
                      sent := [WorkData hostname hostname log_streaming_port url;
                               WorkStatus 0 100;
                               WorkComplete result data] |}).
Proof.
  intros Hfresh Hprep Hfiles.
  pose proof (StagingFacts.preparePlaybooks_ready getProject merger_checkoutBranch
                library_dir action_dir callback_dir lookup_dir args j j1
                Hfresh Hprep) as Hready1.
  split; [by apply (prepareAnsibleFiles_ready args j1 tt j2 Hready1 Hfiles)|].
  intros result st' Hrun.
  unfold Execute.execute, try_except, _execute, bind, on_job, on_run, send,
    modify, gets, getResultData, initial. simpl.
  rewrite Hprep. simpl. rewrite Hfiles. simpl. rewrite Hrun. simpl.
  by eexists _, _.
Qed.


Abbreviation seek_pre := (seek_pre getProject merger_checkoutBranch).
Abbreviation pre_round :=
  (pre_round getProject merger_checkoutBranch library_dir action_dir
     callback_dir lookup_dir).

Lemma for_each_app {S A} (l1 l2 : list A) (body : A → M S unit) s :
  for_each (l1 ++ l2) body s
  = bind (for_each l1 body) (λ _, for_each l2 body) s.
Proof.
  revert s. induction l1 as [|x l1 IH]; intros s; [done|].
  simpl. unfold bind. destruct (body x s) as [[e|[]] s1]; [done|].
  by rewrite IH.
Qed.

(** A required playbook with neither file. *)
Lemma findPlaybook_required_missing path trusted j :
  Posix.exists_ (fs j) (path +:+ ".yaml") = false →
  Posix.exists_ (fs j) (path +:+ ".yml") = false →
  findPlaybook path true trusted j
  = (inl (ExecutorError ("Unable to find playbook " +:+ path)), j).
Proof.
  intros Hyaml Hyml. unfold findPlaybook. simpl. unfold bind, gets.
  by rewrite Hyaml, Hyml.
Qed.

(** X12. The pre playbooks are required. When the pre playbooks before
    one were prepared and that one has neither a [.yaml] nor a [.yml]
    file where it is looked for, [preparePlaybooks] raises the
    [ExecutorError] that names the place, in the state the search left;
    the job then sends the ERROR result with this detail as its only
    message and launches nothing. *)
Theorem missing_pre_playbook_is_an_error args before playbook rest
    j0 j i loc jc (w : W) :
  pre_playbooks args = before ++ playbook :: rest →
  for_each before (pre_round args) j0 = (inr tt, j) →
  seek_pre playbook args j = (inr (i, loc), jc) →
  Posix.exists_ (fs jc) (loc +:+ ".yaml") = false →
  Posix.exists_ (fs jc) (loc +:+ ".yml") = false →
  preparePlaybooks args j0
    = (inl (ExecutorError ("Unable to find playbook " +:+ loc)), jc)
  ∧ execute args (initial j0 w)
    = (inr tt, {| job := jc; run := Phases.start w;
                  sent := [WorkError ("Unable to find playbook " +:+ loc)] |}).
Proof.
  intros Hpre Hbefore Hseek Hyaml Hyml.
  assert (preparePlaybooks args j0
          = (inl (ExecutorError ("Unable to find playbook " +:+ loc)), jc))
    as Hprep.
  { unfold Staging.preparePlaybooks. apply bind_raise.
    unfold Staging.prepare_pre. rewrite Hpre, for_each_app.
    rewrite (bind_eq _ _ _ _ _ Hbefore). simpl. apply bind_raise.
    unfold Staging.seek_pre in Hseek.
    apply bind_inr in Hseek as (i' & j1 & Hadd & Hseek).
    apply bind_inr in Hseek as (loc' & jc' & Hloc & [= -> -> ->]).
    rewrite (bind_eq _ _ _ _ _ Hadd). unfold Staging.preparePlaybook.
    rewrite (bind_eq _ _ _ _ _ Hloc). apply bind_raise.
    by apply findPlaybook_required_missing. }
  split; [exact Hprep|].
  by rewrite (execute_prepare_error args j0 w _ jc Hprep).
Qed.

(** X13. [execute] never lets an exception out, and every job sends
    exactly one final message, as its last one: either it is the only
    message, and then the run state is untouched (nothing was launched),
    or it follows the worker data and the status 0/100, which are sent
    once the playbooks and the Ansible files are prepared. *)
Theorem execute_sends_one_final_message args (a : AnsibleJob) :
  ∃ a' t,
    execute args a = (inr tt, a')
    ∧ terminal t = true
    ∧ ((sent a' = sent a ++ [t] ∧ run a' = run a)
       ∨ ∃ url,
           sent a' = sent a ++ [WorkData hostname hostname log_streaming_port url;
                                WorkStatus 0 100; t]).
Proof.
  unfold Execute.execute, try_except, _execute.
  unfold bind at 1. unfold on_job at 1.
  destruct (preparePlaybooks args (job a)) as [[e|[]] j1].
  { destruct e as [msg|msg];
      [eexists _, (WorkError msg) | eexists _, WorkException];
      (split; [reflexivity|]); (split; [reflexivity|]); left; done. }
  unfold bind at 1. unfold on_job at 1. simpl.
  destruct (prepareAnsibleFiles args j1) as [[e|[]] j2].
  { destruct e as [msg|msg];
      [eexists _, (WorkError msg) | eexists _, WorkException];
      (split; [reflexivity|]); (split; [reflexivity|]); left; done. }
  unfold bind, send, modify, gets, on_run, on_job, getResultData. simpl.
  destruct (Phases.runPlaybooks _ _ _ _ _ _ (run a)) as [[e|result] st'].
  - destruct e as [msg|msg];
      [eexists _, (WorkError msg) | eexists _, WorkException];
      (split; [reflexivity|]); (split; [reflexivity|]); right; eexists; simpl;
      by rewrite <- !app_assoc.
  - eexists _, (WorkComplete result _). split; [reflexivity|].
    split; [reflexivity|]. right. eexists. simpl. by rewrite <- !app_assoc.
Qed.

(** X14. A job that starts on a new job directory and whose playbooks
    and Ansible files were prepared always ends with a result: the
    playbooks run, no exception is reported, and the messages are the
    worker data, the status 0/100 and the result, which is [None] or one
    of SUCCESS, FAILURE, POST_FAILURE, TIMED_OUT and ABORTED. *)
Theorem prepared_job_reports_a_result args j (w : W) j1 j2 :
  fresh (jobdir j) →
  preparePlaybooks args j = (inr tt, j1) →
  prepareAnsibleFiles args j1 = (inr tt, j2) →
  ∃ result st' data url,
    Phases.runPlaybooks is_aborted popen now verbose (jobdir j2)
      (timeout args) (Phases.start w) = (inr result, st')
    ∧ execute args (initial j w) =
        (inr tt, {| job := j2; run := st';
                    sent := [WorkData hostname hostname log_streaming_port url;
                             WorkStatus 0 100;
                             WorkComplete result data] |})
    ∧ result ∈ [None; Some "SUCCESS"; Some "FAILURE"; Some "POST_FAILURE";
                Some "TIMED_OUT"; Some "ABORTED"].
Proof.
  intros Hfresh Hprep Hfiles.
  destruct (execute_runs_ready args j w j1 j2 Hfresh Hprep Hfiles)
    as [Hready Hexec].
  destruct (PhasesFacts.runPlaybooks_returns is_aborted popen now verbose
              (jobdir j2) (timeout args) (Phases.start w) Hready)
    as (result & st' & Hrun & Hres).
  destruct (Hexec result st' Hrun) as (data & url & Hsent).
  by exists result, st', data, url.
Qed.

(** X25. [prepareAnsibleFiles] and the name [zuul]. With a job variable
    named [zuul] it raises before it writes anything: the job is as it
    was. When it returns, no job variable and no secret is named [zuul],
    the job directory is as it was but for [has_secrets], and
    [has_secrets] is set exactly when it was set or the job has secrets.
    With a secret named [zuul] it never returns, and [has_secrets] stays
    as it was. *)
Theorem prepareAnsibleFiles_contract args j r j' :
  prepareAnsibleFiles args j = (r, j') →
  (is_Some (vars args !! "zuul") →
   r = inl (Exception "Defining vars named 'zuul' is not allowed") ∧ j' = j)
  ∧ (r = inr tt →
     vars args !! "zuul" = None
     ∧ secrets args !! "zuul" = None
     ∧ JobDir.has_secrets (jobdir j')
       = JobDir.has_secrets (jobdir j) || negb (bool_decide (secrets args = ∅))
     ∧ JobDir.set_has_secrets (JobDir.has_secrets (jobdir j)) (jobdir j')
       = jobdir j)
  ∧ (is_Some (secrets args !! "zuul") →
     (∃ e, r = inl e)
     ∧ JobDir.has_secrets (jobdir j') = JobDir.has_secrets (jobdir j)).
Proof.
  unfold Execute.prepareAnsibleFiles.
  case_bool_decide as Hvars.
  { intros [= <- <-]. split; [done|]. split; [done|]. intros _. by eauto. }
  assert (vars args !! "zuul" = None) as Hnone.
  { destruct (vars args !! "zuul"); [exfalso; by eauto | done]. }
  unfold bind, gets, on_fs, on_jobdir, modify, ret.
  destruct (Posix.write_file (JobDir.inventory (jobdir j)) _ (fs j))
    as [[e|[]] fs1].
  { intros [= <- <-]. split; [done|]. split; [done|]. intros _. by eauto. }
  simpl.
  destruct (Posix.write_file (JobDir.known_hosts (jobdir j)) _ fs1)
    as [[e|[]] fs2].
  { intros [= <- <-]. split; [done|]. split; [done|]. intros _. by eauto. }
  simpl. case_bool_decide as Hempty.
  { intros [= <- <-]. simpl. split; [done|]. split.
    - intros _. rewrite Hempty, lookup_empty, orb_false_r.
      split; [done|]. split; [done|]. split; [done|]. by destruct (jobdir j).
    - rewrite Hempty, lookup_empty. by intros [? ?]. }
  case_bool_decide as Hsecret.
  { intros [= <- <-]. split; [done|]. split; [done|]. intros _. by eauto. }
  assert (secrets args !! "zuul" = None) as Hsnone.
  { destruct (secrets args !! "zuul"); [exfalso; by eauto | done]. }
  match goal with |- context [Posix.write_file ?p ?c ?f] =>
    destruct (Posix.write_file p c f) as [[e|[]] fs3] end.
  { intros [= <- <-]. split; [done|]. split; [done|]. intros _. by eauto. }
  simpl. intros [= <- <-]. simpl. split; [done|]. split.
  - intros _. rewrite orb_true_r.
    split; [done|]. split; [done|]. split; [done|]. by destruct (jobdir j).
  - rewrite Hsnone. by intros [? ?].
Qed.

End JobFacts.



(** The job of the three candidates, run to its end: the second
    candidate is run and the job succeeds. With candidates that have no
    file the job reports the error and launches nothing. *)
Example execute_three_candidates :
  let a := (example_execute args_three (initial the_job [exits 0])).2 in
  sent a = [WorkData "executor01" "executor01" 79 "finger://executor01/uuid";
            WorkStatus 0 100;
            WorkComplete (Some "SUCCESS") []]
  ∧ Phases.cmd <$> Phases.launched (run a)
    = [[Some "ansible-playbook"; Some "-v";
        Some "/tmp/uuid/trusted/project_0/git.example.com/org/config/playbooks/run.yaml";
        Some "-e"; Some "zuul_execution_phase=run"]].
Proof. vm_compute. split; reflexivity. Qed.

Example execute_no_candidate :
  let args := Staging.mkArgs [] [candidate "playbooks/missing"] [] [] None ∅ ∅ in
  let a := (example_execute args (initial the_job [exits 0])).2 in
  sent a = [WorkError "No valid playbook found"]
  ∧ Phases.launched (run a) = [].
Proof. vm_compute. split; reflexivity. Qed.

Lemma missing_pre_playbook_is_an_error_witness :
  sent (example_execute args_missing_pre (initial the_job [exits 0])).2
  = [WorkError "Unable to find playbook /tmp/uuid/trusted/project_0/git.example.com/org/config/playbooks/missing"].
Proof.
  assert ((Staging.seek_pre example_getProject example_checkout
             (candidate "playbooks/missing") args_missing_pre the_job).1
          = inr (0, "/tmp/uuid/trusted/project_0/git.example.com/org/config/playbooks/missing"))
    as Hseek by (vm_compute; reflexivity).
  apply pair_fst_eq in Hseek.
  destruct (missing_pre_playbook_is_an_error never_aborted scripted_popen
              still_clock example_getProject example_checkout
              "/var/lib/zuul/ansible/zuul/ansible/library"
              "/var/lib/zuul/ansible/zuul/ansible/action"
              "/var/lib/zuul/ansible/zuul/ansible/callback"
              "/var/lib/zuul/ansible/zuul/ansible/lookup"
              false "executor01" 79 "uuid" (λ _ _, ["all:"]) (λ _, []) (λ _, [])
              args_missing_pre [] (candidate "playbooks/missing") []
              the_job the_job 0 _ _ [exits 0] eq_refl eq_refl Hseek)
    as [_ Hexec].
  - clear. vm_compute. reflexivity.
  - clear. vm_compute. reflexivity.
  - exact (f_equal (λ x, sent x.2) Hexec).
Defined.

Lemma prepared_job_reports_a_result_witness :
  ∃ result data url,
    sent (example_execute args_three (initial the_job [exits 0])).2
    = [WorkData "executor01" "executor01" 79 url; WorkStatus 0 100;
       WorkComplete result data].
Proof.
  assert (fresh (jobdir the_job)) as Hfresh.
  { clear. vm_compute. repeat split; reflexivity. }
  assert ((example_prepare args_three the_job).1 = inr tt) as Hprep
    by (vm_compute; reflexivity).
  apply pair_fst_eq in Hprep.
  assert ((Execute.prepareAnsibleFiles (λ _ _, ["all:"]) (λ _, []) (λ _, [])
             args_three (example_prepare args_three the_job).2).1 = inr tt)
    as Hfiles by (vm_compute; reflexivity).
  apply pair_fst_eq in Hfiles.
  destruct (prepared_job_reports_a_result never_aborted scripted_popen
              still_clock example_getProject example_checkout
              "/var/lib/zuul/ansible/zuul/ansible/library"
              "/var/lib/zuul/ansible/zuul/ansible/action"
              "/var/lib/zuul/ansible/zuul/ansible/callback"
              "/var/lib/zuul/ansible/zuul/ansible/lookup"
              false "executor01" 79 "uuid" (λ _ _, ["all:"]) (λ _, []) (λ _, [])
              args_three the_job [exits 0] _ _ Hfresh Hprep Hfiles)
    as (result & st' & data & url & _ & Hexec & _).
  exists result, data, url.
  exact (f_equal (λ x, sent x.2) Hexec).
Defined.

Lemma prepareAnsibleFiles_contract_witness :
  let j' := (Execute.prepareAnsibleFiles (λ _ _, ["all:"]) (λ _, [])
               (λ _, ["password: hunter2"]) args_secret the_job).2 in
  JobDir.has_secrets (jobdir j')
  = JobDir.has_secrets (jobdir the_job)
    || negb (bool_decide (secrets args_secret = ∅)).
Proof.
  intros j'.
  assert ((Execute.prepareAnsibleFiles (λ _ _, ["all:"]) (λ _, [])
             (λ _, ["password: hunter2"]) args_secret the_job).1 = inr tt)
    as H by (vm_compute; reflexivity).
  apply pair_fst_eq in H.
  destruct (prepareAnsibleFiles_contract (λ _ _, ["all:"]) (λ _, [])
              (λ _, ["password: hunter2"]) args_secret the_job _ _ H)
    as (_ & Hok & _).
  by destruct (Hok eq_refl) as (_ & _ & Hs & _).
Defined.

End ExecuteFacts.

(** * Properties of the inventory *)

Module InventoryFacts.
Import Inventory Examples.

(** A loop that appends one item per element is a [map]. *)
Lemma fold_left_append {A B} (f : A → B) (l : list A) (acc : list B) :
  fold_left (λ acc x, acc ++ [f x]) l acc = acc ++ map f l.
Proof.
  revert acc. induction l as [|x l IH]; intros acc; simpl.
  - by rewrite app_nil_r.
  - by rewrite IH, <- app_assoc.
Qed.

(** A loop of dictionary assignments: the last assignment to a key
    wins, and a key that is not assigned keeps what it had. *)
Lemma fold_left_insert_lookup {A K V} `{Countable K} (f : A → K) (g : A → V)
    (l : list A) (m : gmap K V) (k : K) :
  fold_left (λ m x, <[f x := g x]> m) l m !! k =
    match last (filter (λ x, f x = k) l) with
    | Some x => Some (g x)
    | None => m !! k
    end.
Proof.
  revert m. induction l as [|x l IH]; intros m; [done|].
  simpl. rewrite IH, filter_cons. destruct (decide (f x = k)) as [Hk|Hk].
  - destruct (filter _ l) as [|y l'] eqn:E; simpl.
    + by rewrite Hk, lookup_insert_eq.
    + destruct (last (y :: l')) eqn:El; [done|].
      by apply last_None in El.
  - destruct (last (filter _ l)); [done|]. by rewrite lookup_insert_ne.
Qed.

Lemma host_of_inr u node host :
  host_of u node = inr host →
  name host = node_name node
  ∧ ansible_host (host_vars host) = interface_ip node
  ∧ ansible_user (host_vars host) = u
  ∧ ansible_port (host_vars host) = default 22%Z (ssh_port node)
  ∧ ∃ keys,
      node_host_keys node = Some keys
      ∧ host_keys host =
          map (host_key_line (interface_ip node) (default 22%Z (ssh_port node)))
            keys.
Proof.
  unfold host_of. destruct (node_host_keys node) as [keys|]; [|done].
  intros [= <-]. simpl. repeat (split; [done|]).
  exists keys. split; [done|]. by rewrite fold_left_append.
Qed.

Lemma getHostList_from_spec u nodes : ∀ hosts,
  match getHostList_from u nodes hosts with
  | inr hosts' =>
      ∃ new, hosts' = hosts ++ new
             ∧ Forall2 (λ node host, host_of u node = inr host) nodes new
  | inl e =>
      e = Exception "TypeError"
      ∧ ∃ node, node ∈ nodes ∧ node_host_keys node = None
  end.
Proof.
  induction nodes as [|node nodes IH]; intros hosts; simpl.
  { exists []. by rewrite app_nil_r. }
  destruct (host_of u node) as [e|host] eqn:E.
  - unfold host_of in E. destruct (node_host_keys node) eqn:Hk; [done|].
    injection E as <-. split; [done|]. exists node. split; [left | done].
  - specialize (IH (hosts ++ [host])).
    destruct (getHostList_from u nodes (hosts ++ [host])) as [e|hosts'].
    + destruct IH as (-> & n & Hn & Hk). split; [done|].
      exists n. split; [by right | done].
    + destruct IH as (new & -> & Hall). exists (host :: new).
      split; [by rewrite <- app_assoc|]. by constructor.
Qed.

(** X15. [getHostList] gives one host per node, in the order of the
    nodes, with the name of the node, its [interface_ip] as
    [ansible_host], the default user, and its [ssh_port], or 22 when it
    has none, as [ansible_port]; the host has one [known_hosts] line per
    host key of the node, in order, in the form [[ip]:port key] when the
    port is not 22 and [ip key] when it is. It raises, a [TypeError],
    exactly when some node has no [host_keys]. *)
Theorem getHostList_hosts (default_username : string) (nodes : list Node) :
  match getHostList default_username nodes with
  | inr hosts =>
      Forall2
        (λ node host,
           name host = node_name node
           ∧ ansible_host (host_vars host) = interface_ip node
           ∧ ansible_user (host_vars host) = default_username
           ∧ ansible_port (host_vars host) = default 22%Z (ssh_port node)
           ∧ ∃ keys,
               node_host_keys node = Some keys
               ∧ host_keys host =
                   map (host_key_line (interface_ip node)
                          (default 22%Z (ssh_port node))) keys)
        nodes hosts
  | inl e =>
      e = Exception "TypeError"
      ∧ ∃ node, node ∈ nodes ∧ node_host_keys node = None
  end.
Proof.
  unfold getHostList.
  pose proof (getHostList_from_spec default_username nodes []) as H.
  destruct (getHostList_from default_username nodes []) as [e|hosts]; [done|].
  destruct H as (new & -> & Hall). simpl.
  eapply Forall2_impl; [exact Hall|].
  intros node host Hh. by apply host_of_inr.
Qed.

(** The hosts of a group: each of its node names, with [None]. *)
Lemma group_hosts_lookup (l : list string) (n : string) :
  fold_left (λ group_hosts node_name,
               <[node_name := None]> group_hosts) l (∅ : gmap string (option HostVars))
    !! n
  = if bool_decide (n ∈ l) then Some None else None.
Proof.
  rewrite (fold_left_insert_lookup (λ x : string, x)
             (λ _, None : option HostVars) l ∅ n).
  destruct (last (filter (λ x, x = n) l)) as [x|] eqn:E.
  - rewrite bool_decide_eq_true_2; [done|].
    apply last_Some_elem_of in E. by apply list_elem_of_filter in E as [<- ?].
  - rewrite bool_decide_eq_false_2; [done|].
    apply last_None in E. intros Hn.
    assert (n ∈ filter (λ x, x = n) l) as Hin by by apply list_elem_of_filter.
    rewrite E in Hin. by apply elem_of_nil in Hin.
Qed.

(** The inventory, key by key: the last group of a name has the key,
    and [all] is what is there for it when no group has this name. *)
Lemma inventory_lookup {V : Type} (nodes : list Host) (groups : list Group)
    (all_vars : V) (g : string) :
  make_inventory_dict nodes groups all_vars !! g =
    match last_group g groups with
    | Some gr =>
        Some (mkEntry
                (fold_left (λ group_hosts node_name,
                              <[node_name := None]> group_hosts)
                   (group_nodes gr) ∅) None)
    | None =>
        if bool_decide (g = "all")
        then Some (mkEntry
                     (Some <$> fold_left
                                 (λ hosts node, <[name node := host_vars node]> hosts)
                                 nodes ∅)
                     (Some all_vars))
        else None
    end.
Proof.
  unfold make_inventory_dict, last_group.
  rewrite (fold_left_insert_lookup group_name
             (λ group, mkEntry
                         (fold_left (λ group_hosts node_name,
                                       <[node_name := None]> group_hosts)
                            (group_nodes group) ∅) (None : option V))).
  destruct (last _); [done|].
  case_bool_decide as Hg.
  - subst g. by rewrite lookup_singleton_eq.
  - by rewrite lookup_singleton_ne.
Qed.

(** X16. The groups of the inventory. A name that groups have is a key
    of the inventory, with the hosts of the last group of that name, each
    with [None], and no [vars]; this holds for the name [all] too, so a
    group named [all] replaces the entry of all hosts and the variables
    of the job. A name other than [all] that no group has is not a
    key. *)
Theorem inventory_groups {V : Type} (nodes : list Host) (groups : list Group)
    (all_vars : V) (g : string) :
  match last_group g groups with
  | Some gr =>
      ∃ e, make_inventory_dict nodes groups all_vars !! g = Some e
           ∧ vars e = None
           ∧ ∀ n, hosts e !! n
                  = if bool_decide (n ∈ group_nodes gr) then Some None else None
  | None =>
      g ≠ "all" → make_inventory_dict nodes groups all_vars !! g = None
  end.
Proof.
  rewrite inventory_lookup.
  destruct (last_group g groups) as [gr|].
  - eexists. split; [done|]. split; [done|]. simpl. apply group_hosts_lookup.
  - intros Hg. by rewrite bool_decide_eq_false_2.
Qed.

(** X17. When no group is named [all], the inventory has the [all]
    entry with the job variables, and its hosts are the names of the
    nodes, each with the [host_vars] of the last node of that name. *)
Theorem inventory_all_hosts {V : Type} (nodes : list Host)
    (groups : list Group) (all_vars : V) :
  Forall (λ gr, group_name gr ≠ "all") groups →
  ∃ e, make_inventory_dict nodes groups all_vars !! "all" = Some e
       ∧ vars e = Some all_vars
       ∧ ∀ n, hosts e !! n
              = (λ h, Some (host_vars h)) <$> last_named n nodes.
Proof.
  intros Hno. rewrite Forall_forall in Hno. rewrite inventory_lookup.
  assert (last_group "all" groups = None) as ->.
  { unfold last_group. apply last_None.
    destruct (filter _ groups) as [|gr l] eqn:E; [done|].
    assert (gr ∈ filter (λ gr, group_name gr = "all") groups) as Hin
      by (rewrite E; left).
    apply list_elem_of_filter in Hin as [Hname Hin]. by apply Hno in Hin. }
  rewrite bool_decide_eq_true_2 by done.
  eexists. split; [done|]. split; [done|]. intros n. simpl.
  rewrite lookup_fmap.
  rewrite (fold_left_insert_lookup name host_vars nodes ∅ n).
  unfold last_named. by destruct (last _).
Qed.

(** X18. The nodes of a job in its inventory. When [getHostList]
    returns, the nodes have distinct names and no group is named [all],
    every node is a host of [all] under its name, with its
    [interface_ip], its port (22 by default) and the default user, and
    [all] has no other host. *)
Theorem job_nodes_in_inventory {V : Type} (default_username : string)
    (nodes : list Node) (groups : list Group) (all_vars : V)
    (hosts_ : list Host) :
  getHostList default_username nodes = inr hosts_ →
  NoDup (map node_name nodes) →
  Forall (λ gr, group_name gr ≠ "all") groups →
  ∃ e, make_inventory_dict hosts_ groups all_vars !! "all" = Some e
       ∧ (∀ node, node ∈ nodes →
            ∃ hv, hosts e !! node_name node = Some (Some hv)
                  ∧ ansible_host hv = interface_ip node
                  ∧ ansible_port hv = default 22%Z (ssh_port node)
                  ∧ ansible_user hv = default_username)
       ∧ (∀ n, is_Some (hosts e !! n) → n ∈ map node_name nodes).
Proof.
  intros Hlist Hnodup Hno. rewrite Forall_forall in Hno.
  unfold getHostList in Hlist.
  pose proof (getHostList_from_spec default_username nodes []) as Hspec.
  rewrite Hlist in Hspec. destruct Hspec as (new & -> & Hall). simpl.
  assert (∀ h, h ∈ new → ∃ i node, nodes !! i = Some node ∧ new !! i = Some h
                             ∧ host_of default_username node = inr h) as Hback.
  { intros h [i Hi]%list_elem_of_lookup.
    destruct (Forall2_lookup_r _ _ _ _ _ Hall Hi) as (node & Hn & Hh).
    by exists i, node. }
  rewrite inventory_lookup.
  assert (last_group "all" groups = None) as ->.
  { unfold last_group. apply last_None.
    destruct (filter _ groups) as [|gr l] eqn:E; [done|].
    assert (gr ∈ filter (λ gr, group_name gr = "all") groups) as Hin
      by (rewrite E; left).
    apply list_elem_of_filter in Hin as [Hname Hin]. by apply Hno in Hin. }
  rewrite bool_decide_eq_true_2 by done.
  eexists. split; [done|]. simpl. split.
  - intros node [i Hi]%list_elem_of_lookup.
    destruct (Forall2_lookup_l _ _ _ _ _ Hall Hi) as (host & Hh & Hof).
    rewrite lookup_fmap,
      (fold_left_insert_lookup name host_vars new ∅ (node_name node)).
    destruct (last (filter (λ h, name h = node_name node) new)) as [h'|] eqn:E.
    + apply last_Some_elem_of in E.
      apply list_elem_of_filter in E as [Hname Hin'].
      destruct (Hback h' Hin') as (k & node' & Hk & Hk' & Hof').
      assert (i = k) as <-.
      { eapply NoDup_lookup; [exact Hnodup|..].
        - by rewrite list_lookup_fmap, Hi.
        - rewrite list_lookup_fmap, Hk. simpl. f_equal.
          apply host_of_inr in Hof' as (Hn' & _). congruence. }
      assert (h' = host) as -> by congruence.
      apply host_of_inr in Hof as (_ & Hip & Hu & Hp & _).
      exists (host_vars host). by simpl.
    + exfalso. apply last_None in E.
      assert (host ∈ filter (λ h, name h = node_name node) new) as Hin.
      { apply list_elem_of_filter. split.
        - by apply host_of_inr in Hof as (? & _).
        - by eapply list_elem_of_lookup_2. }
      rewrite E in Hin. by apply elem_of_nil in Hin.
  - intros n. rewrite lookup_fmap,
      (fold_left_insert_lookup name host_vars new ∅ n).
    destruct (last (filter (λ h, name h = n) new)) as [h|] eqn:E.
    + intros _. apply last_Some_elem_of in E.
      apply list_elem_of_filter in E as [<- Hin].
      destruct (Hback h Hin) as (k & node & Hk & _ & Hof).
      apply host_of_inr in Hof as (-> & _).
      apply list_elem_of_fmap. exists node. split; [done|].
      by eapply list_elem_of_lookup_2.
    + rewrite lookup_empty. simpl. by intros [? ?].
Qed.

Lemma inventory_all_hosts_witness :
  ∃ e, make_inventory_dict example_hosts example_groups "job vars" !! "all"
       = Some e
       ∧ vars e = Some "job vars"
       ∧ ∀ n, hosts e !! n
              = (λ h, Some (host_vars h)) <$> last_named n example_hosts.
Proof.
  apply (inventory_all_hosts example_hosts example_groups "job vars").
  by repeat constructor.
Defined.

Lemma job_nodes_in_inventory_witness :
  ∃ e, make_inventory_dict example_hosts example_groups "job vars" !! "all"
       = Some e
       ∧ (∀ node, node ∈ example_nodes →
            ∃ hv, hosts e !! node_name node = Some (Some hv)
                  ∧ ansible_host hv = interface_ip node
                  ∧ ansible_port hv = default 22%Z (ssh_port node)
                  ∧ ansible_user hv = "zuul")
       ∧ (∀ n, is_Some (hosts e !! n) → n ∈ map node_name example_nodes).
Proof.
  apply (job_nodes_in_inventory "zuul" example_nodes example_groups "job vars"
           example_hosts).
  - reflexivity.
  - apply (bool_decide_unpack _). vm_compute. exact I.
  - by repeat constructor.
Defined.

End InventoryFacts.

(** * Properties of the repository updates of a job *)

Module UpdatesFacts.
Import RepoSync Updates Examples RepoSyncFacts.

(** What [update] returns is a task with the key asked for that is
    pending afterwards; what was pending still is. *)
Lemma update_pending connection project (s : Server) r s' :
  update connection project s = (r, s') →
  ∃ t, r = Some t
       ∧ connection_name t = connection ∧ project_name t = project
       ∧ Some t ∈ queue (update_queue s')
       ∧ queue (update_queue s) `prefix_of` queue (update_queue s')
       ∧ _running s' = _running s ∧ events s' = events s.
Proof.
  unfold update, put. simpl.
  set (item := {| event := next_event s; connection_name := connection;
                  project_name := project |}).
  destruct (scan_result item (queue (update_queue s)) None)
    as [Hs | (x & Hs & Hx & Hc & Hp)]; rewrite Hs.
  - intros [= <- <-]. exists item. simpl.
    split; [done|]. split; [done|]. split; [done|].
    split; [apply elem_of_app; right; left|].
    split; [by apply prefix_app_r | done].
  - intros [= <- <-]. exists x. simpl. by rewrite Hc, Hp.
Qed.

Lemma covered_update s0 st key task s :
  covered s0 st →
  update key.1 key.2 (server st) = (task, s) →
  covered s0 {| tasks := tasks st ++ [task];
                projects := {[ key ]} ∪ projects st; server := s |}.
Proof.
  intros (Hkeys & Htasks & Hpre & Hrun & Hev) Hup.
  destruct (update_pending _ _ _ _ _ Hup)
    as (t & -> & Hc & Hp & Hin & Hpre' & Hrun' & Hev').
  split; [|split; [|split; [|split]]]; simpl.
  - intros k [->%elem_of_singleton | Hk]%elem_of_union.
    + exists t. split; [apply elem_of_app; right; left | done].
    + destruct (Hkeys k Hk) as (t' & Ht' & Hk').
      exists t'. split; [apply elem_of_app; by left | done].
  - intros x [Hx | ->%list_elem_of_singleton]%elem_of_app.
    + destruct (Htasks x Hx) as (t' & -> & Ht'). exists t'. split; [done|].
      destruct Hpre' as [k ->]. apply elem_of_app. by left.
    + by exists t.
  - by etrans.
  - congruence.
  - congruence.
Qed.

Lemma submit_projects_covered s0 ps : ∀ st,
  covered s0 st →
  covered s0 (submit_projects ps st)
  ∧ (∀ key, key ∈ ps ∨ key ∈ projects st →
            key ∈ projects (submit_projects ps st))
  ∧ length (tasks (submit_projects ps st)) = length (tasks st) + length ps.
Proof.
  induction ps as [|p ps IH]; intros st Hst.
  { simpl. split; [done|]. split; [|lia].
    intros key [Hk | Hk]; [by apply elem_of_nil in Hk | done]. }
  unfold submit_projects. simpl.
  destruct (update p.1 p.2 (server st)) as [task s] eqn:Hup.
  destruct (IH _ (covered_update s0 st p task s Hst Hup)) as (Hc & Hk & Hl).
  split; [exact Hc|]. split.
  - intros key [[-> | Hin]%elem_of_cons | Hin]; apply Hk.
    + right. simpl. apply elem_of_union. left. by apply elem_of_singleton.
    + by left.
    + right. simpl. apply elem_of_union. by right.
  - unfold submit_projects in Hl. rewrite Hl. simpl.
    rewrite length_app. simpl. lia.
Qed.

Lemma submit_repos_covered s0 rs : ∀ st,
  covered s0 st →
  covered s0 (submit_repos rs st)
  ∧ (∀ key, key ∈ rs ∨ key ∈ projects st →
            key ∈ projects (submit_repos rs st))
  ∧ length (tasks (submit_repos rs st)) ≤ length (tasks st) + length rs.
Proof.
  induction rs as [|r rs IH]; intros st Hst.
  { simpl. split; [done|]. split; [|lia].
    intros key [Hk | Hk]; [by apply elem_of_nil in Hk | done]. }
  unfold submit_repos. simpl. case_bool_decide as Hin.
  - destruct (IH st Hst) as (Hc & Hk & Hl).
    split; [exact Hc|]. split.
    + intros key [[-> | Hr]%elem_of_cons | Hr]; apply Hk; auto.
    + unfold submit_repos in Hl. lia.
  - destruct (update r.1 r.2 (server st)) as [task s] eqn:Hup.
    destruct (IH _ (covered_update s0 st r task s Hst Hup)) as (Hc & Hk & Hl).
    split; [exact Hc|]. split.
    + intros key [[-> | Hr]%elem_of_cons | Hr]; apply Hk.
      * right. simpl. apply elem_of_union. left. by apply elem_of_singleton.
      * by left.
      * right. simpl. apply elem_of_union. by right.
    + unfold submit_repos in Hl. simpl in Hl. rewrite length_app in Hl.
      simpl in Hl. lia.
Qed.

(** X19. Every repository a job uses is submitted for a refresh: each
    project of the job and each repository of a playbook or of a role
    has, among the tasks the job then waits for, a task with its
    (connection, project) key; every task the job waits for is pending in
    the update queue when the submissions are done; and the job holds one
    task per project of [args['projects']] and at most one more per
    playbook or role. *)
Theorem updates_cover_job_repositories (projects_arg : list (string * string))
    (args : Staging.Args) (s : Server) :
  let st := submit_updates projects_arg args s in
  (∀ key, key ∈ projects_arg ∨ key ∈ repos args →
     ∃ t, Some t ∈ tasks st
          ∧ connection_name t = key.1 ∧ project_name t = key.2)
  ∧ (∀ x, x ∈ tasks st →
       ∃ t, x = Some t ∧ Some t ∈ queue (update_queue (server st)))
  ∧ length projects_arg ≤ length (tasks st)
  ∧ length (tasks st) ≤ length projects_arg + length (repos args).
Proof.
  intros st. subst st. unfold submit_updates.
  set (st0 := {| tasks := []; projects := ∅; server := s |}).
  assert (covered s st0) as H0.
  { split; [|split; [|done]].
    - intros key Hk. by apply elem_of_empty in Hk.
    - intros x Hx. by apply elem_of_nil in Hx. }
  destruct (submit_projects_covered s projects_arg st0 H0) as (H1 & Hk1 & Hl1).
  destruct (submit_repos_covered s (repos args) _ H1) as (H2 & Hk2 & Hl2).
  pose proof H2 as (Hkeys & Htasks & _).
  split; [|split; [exact Htasks|]].
  - intros key Hkey. apply Hkeys. apply Hk2.
    destruct Hkey as [Hp | Hr]; [right; apply Hk1; by left | by left].
  - simpl in Hl1. split; [|lia].
    assert (length (tasks (submit_projects projects_arg st0))
            ≤ length (tasks (submit_repos (repos args)
                               (submit_projects projects_arg st0)))) as Hmono.
    { clear. generalize (submit_projects projects_arg st0).
      induction (repos args) as [|r rs IH]; intros st; [done|].
      unfold submit_repos. simpl. case_bool_decide; [apply IH|].
      destruct (update r.1 r.2 (server st)) as [task s1].
      etrans; [|apply IH]. simpl. rewrite length_app. lia. }
    lia.
Qed.

Section Wait.
Context {W : Type}.
Variable updateRepo : string → string → W → option exn * W.

(** X20. The waits of a job end when no refresh fails: after the
    submissions of the job, the running update loop, given more
    iterations than there are pending items, sets the event of every
    task the job waits for. *)
Theorem job_updates_complete (projects_arg : list (string * string))
    (args : Staging.Args) (s : Server) (w : W) (fuel : nat) :
  (∀ c p w0, (updateRepo c p w0).1 = None) →
  _running s = true →
  length (queue (update_queue (server (submit_updates projects_arg args s))))
    < fuel →
  ∃ s' w',
    _updateLoop updateRepo fuel
      (server (submit_updates projects_arg args s)) w = (Blocked, s', w')
    ∧ waits_return (tasks (submit_updates projects_arg args s)) s'.
Proof.
  intros Hno Hrun Hfuel. unfold submit_updates in *.
  set (st0 := {| tasks := []; projects := ∅; server := s |}) in *.
  assert (covered s st0) as H0.
  { split; [|split; [|done]].
    - intros key Hk. by apply elem_of_empty in Hk.
    - intros x Hx. by apply elem_of_nil in Hx. }
  destruct (submit_projects_covered s projects_arg st0 H0) as (H1 & _).
  destruct (submit_repos_covered s (repos args) _ H1)
    as ((_ & Htasks & _ & Hrun' & _) & _).
  destruct (updateLoop_drains updateRepo _ fuel _ w eq_refl
              ltac:(by rewrite Hrun') Hfuel)
    as (s' & w' & Hloop & _ & _ & _ & _ & Hall).
  exists s', w'. split; [exact Hloop|].
  intros task Htask. apply (Hall Hno).
  destruct (Htasks _ Htask) as (t & [= <-] & Ht). exact Ht.
Qed.

End Wait.

Lemma job_updates_complete_witness :
  ∃ s' w',
    _updateLoop working_updateRepo 5
      (server (submit_updates [("gerrit", "org/project")] args_three
                 server_idle)) tt = (Blocked, s', w')
    ∧ waits_return (tasks (submit_updates [("gerrit", "org/project")]
                             args_three server_idle)) s'.
Proof.
  apply (job_updates_complete working_updateRepo [("gerrit", "org/project")]
           args_three server_idle tt 5).
  - intros c p w0. reflexivity.
  - reflexivity.
  - vm_compute. lia.
Defined.

End UpdatesFacts.

(** * Properties of the commands and of the registry *)

Module ControlFacts.
Import Control Examples.

Lemma command_map_known :
  command_map !! "stop" = Some stop
  ∧ command_map !! "pause" = Some pause
  ∧ command_map !! "unpause" = Some unpause
  ∧ command_map !! "graceful" = Some graceful
  ∧ command_map !! "verbose" = Some verboseOn
  ∧ command_map !! "unverbose" = Some verboseOff
  ∧ command_map !! "keep" = Some keep
  ∧ command_map !! "nokeep" = Some nokeep.
Proof. repeat split; reflexivity. Qed.

Lemma command_map_unknown (command : string) :
  command ∉ ["stop"; "pause"; "unpause"; "graceful"; "verbose"; "unverbose";
             "keep"; "nokeep"] →
  command_map !! command = None.
Proof.
  intros Hc. unfold command_map. by apply not_elem_of_list_to_map_1.
Qed.

(** What a command other than [stop] does: it sets one of the two
    flags, or nothing but a line of the log. *)
Lemma handle_command_flags (command : string) (s : Server) :
  command ≠ "stop" →
  verbose (handle_command command s)
    = (if bool_decide (command = "verbose") then true
       else if bool_decide (command = "unverbose") then false
       else verbose s)
  ∧ keep_jobdir (handle_command command s)
    = (if bool_decide (command = "keep") then true
       else if bool_decide (command = "nokeep") then false
       else keep_jobdir s)
  ∧ base (handle_command command s) = base s
  ∧ _command_running (handle_command command s) = _command_running s
  ∧ job_workers (handle_command command s) = job_workers s
  ∧ killed (handle_command command s) = killed s
  ∧ replies (handle_command command s) = replies s.
Proof.
  intros Hstop. unfold handle_command.
  destruct command_map_known as (_ & Hp & Hu & Hg & Hv & Huv & Hk & Hnk).
  case_bool_decide as Hs; [|by subst command].
  destruct (decide (command = "verbose")) as [->|?]; [by rewrite Hv|].
  destruct (decide (command = "unverbose")) as [->|?]; [by rewrite Huv|].
  destruct (decide (command = "keep")) as [->|?]; [by rewrite Hk|].
  destruct (decide (command = "nokeep")) as [->|?]; [by rewrite Hnk|].
  rewrite !bool_decide_eq_false_2 by done.
  destruct (decide (command = "pause")) as [->|?]; [by rewrite Hp|].
  destruct (decide (command = "unpause")) as [->|?]; [by rewrite Hu|].
  destruct (decide (command = "graceful")) as [->|?]; [by rewrite Hg|].
  rewrite command_map_unknown; [done|].
  rewrite !not_elem_of_cons. repeat (split; [done|]). apply not_elem_of_nil.
Qed.

Lemma toggled_cons on off c rest flag :
  on ≠ off →
  toggled on off (c :: rest) flag =
    toggled on off rest
      (if bool_decide (c = on) then true
       else if bool_decide (c = off) then false else flag).
Proof.
  intros Hne. unfold toggled. rewrite filter_cons.
  destruct (decide (c = on ∨ c = off)) as [Hc|Hc].
  - destruct (filter _ rest) as [|y l] eqn:E; simpl.
    + destruct Hc as [-> | ->].
      * by rewrite !bool_decide_eq_true_2.
      * by rewrite bool_decide_eq_false_2, bool_decide_eq_true_2.
    + destruct (last (y :: l)) eqn:El; [done|]. by apply last_None in El.
  - rewrite !bool_decide_eq_false_2 by tauto. done.
Qed.

(** The loop on commands other than [stop]: it reads them all, whatever
    follows them. *)
Lemma runCommand_blocked (commands : list string) (s : Server) :
  _command_running s = true →
  "stop" ∉ commands →
  ∃ s', runCommand commands s = (RepoSync.Blocked, s')
        ∧ _command_running s' = true
        ∧ job_workers s' = job_workers s
        ∧ ∀ rest, runCommand (commands ++ rest) s = runCommand rest s'.
Proof.
  revert s. induction commands as [|c cs IH]; intros s Hrun Hstop.
  { exists s. simpl. by rewrite Hrun. }
  apply not_elem_of_cons in Hstop as [Hc Hrest].
  destruct (handle_command_flags c s (not_eq_sym Hc))
    as (_ & _ & _ & Hr & Hw & _).
  destruct (IH (handle_command c s)) as (s' & Hloop & Hr' & Hw' & Happ);
    [by rewrite Hr | done |].
  exists s'. simpl. rewrite Hrun. split; [exact Hloop|].
  split; [done|]. split; [by rewrite Hw', Hw|]. exact Happ.
Qed.

(** X21. The command loop on commands other than [stop]: it reads them
    all and then blocks. The verbose flag is what the last [verbose] or
    [unverbose] among them says, and the keep flag what the last [keep]
    or [nokeep] says; a flag no command names stays as it was. Nothing
    else of the server changes, apart from the log: [pause], [unpause],
    [graceful] and [_stop] do nothing, and a command the map does not
    have is logged and the loop goes on. *)
Theorem runCommand_toggles (commands : list string) (s : Server) :
  _command_running s = true →
  "stop" ∉ commands →
  ∃ s', runCommand commands s = (RepoSync.Blocked, s')
        ∧ verbose s' = toggled "verbose" "unverbose" commands (verbose s)
        ∧ keep_jobdir s' = toggled "keep" "nokeep" commands (keep_jobdir s)
        ∧ _command_running s' = true
        ∧ base s' = base s
        ∧ job_workers s' = job_workers s
        ∧ killed s' = killed s
        ∧ replies s' = replies s.
Proof.
  revert s. induction commands as [|c rest IH]; intros s Hrun Hstop.
  { exists s. simpl. by rewrite Hrun. }
  apply not_elem_of_cons in Hstop as [Hc Hrest].
  destruct (handle_command_flags c s (not_eq_sym Hc))
    as (Hv & Hk & Hb & Hr & Hw & Hkl & Hrp).
  destruct (IH (handle_command c s)) as (s' & Hloop & Hv' & Hk' & Hr' & Hrest');
    [by rewrite Hr | done |].
  exists s'. simpl. rewrite Hrun. split; [exact Hloop|].
  rewrite !toggled_cons by done. rewrite Hv', Hk', Hv, Hk.
  split; [done|]. split; [done|]. split; [done|].
  destruct Hrest' as (-> & -> & -> & ->). by rewrite Hb, Hw, Hkl, Hrp.
Qed.

(** The loop of [stop] over the workers. *)
Lemma stop_workers (l : list (string * Worker)) : ∀ s,
  let s' := fold_left (λ s kv, worker_stop kv.1 kv.2 s) l s in
  job_workers s'
    = fold_left (λ m kv, <[kv.1 := mkWorker true (proc kv.2)]> m) l
        (job_workers s)
  ∧ killed s' = killed s ∪ list_to_set (omap (λ kv, proc kv.2) l)
  ∧ base s' = base s
  ∧ _command_running s' = _command_running s
  ∧ verbose s' = verbose s
  ∧ keep_jobdir s' = keep_jobdir s
  ∧ replies s' = replies s.
Proof.
  induction l as [|[u w] l IH]; intros s; simpl.
  { split; [done|]. split; [|done]. by rewrite (right_id_L ∅ (∪)). }
  destruct (IH (worker_stop u w s)) as (Hw & Hk & Hb & Hr & Hv & Hkp & Hrp).
  rewrite Hw, Hk, Hb, Hr, Hv, Hkp, Hrp. unfold worker_stop, abortRunningProc.
  destruct (proc w) as [pgid|]; simpl.
  - split; [done|]. split; [|done].
    apply set_eq. intros x. rewrite !elem_of_union. tauto.
  - done.
Qed.

(** A loop that assigns to every key of a dictionary what [f] makes of
    its value. *)
Lemma fold_left_insert_fmap {A} (f : A → A) (m : gmap string A) :
  fold_left (λ m' kv, <[kv.1 := f kv.2]> m') (map_to_list m) m = f <$> m.
Proof.
  apply map_eq. intros u.
  rewrite (InventoryFacts.fold_left_insert_lookup fst (λ kv, f kv.2)
             (map_to_list m) m u), lookup_fmap.
  destruct (last (filter (λ kv, kv.1 = u) (map_to_list m))) as [[u' w]|] eqn:E.
  - apply last_Some_elem_of in E.
    apply list_elem_of_filter in E as [Hu Hin]. simpl in Hu. subst u'.
    apply elem_of_map_to_list in Hin. by rewrite Hin.
  - apply last_None in E. destruct (m !! u) as [w|] eqn:Hw; [|done].
    exfalso. apply elem_of_map_to_list in Hw.
    assert ((u, w) ∈ filter (λ kv, kv.1 = u) (map_to_list m)) as Hin
      by by apply list_elem_of_filter.
    rewrite E in Hin. by apply elem_of_nil in Hin.
Qed.

(** [ExecutorServer.stop], field by field. *)
Lemma stop_fields (s : Server) :
  _command_running (stop s) = false
  ∧ RepoSync._running (base (stop s)) = false
  ∧ RepoSync.queue (RepoSync.update_queue (base (stop s)))
    = RepoSync.queue (RepoSync.update_queue (base s)) ++ [None]
  ∧ job_workers (stop s) = (λ w, mkWorker true (proc w)) <$> job_workers s
  ∧ killed (stop s)
    = killed s ∪ list_to_set (omap (λ kv, proc kv.2) (map_to_list (job_workers s)))
  ∧ verbose (stop s) = verbose s
  ∧ keep_jobdir (stop s) = keep_jobdir s
  ∧ replies (stop s) = replies s.
Proof.
  unfold stop. simpl.
  match goal with |- context [fold_left _ ?l ?s1] =>
    destruct (stop_workers l s1) as (Hw & Hk & Hb & Hr & Hv & Hkp & Hrp) end.
  simpl in Hw, Hk, Hb, Hr, Hv, Hkp, Hrp.
  rewrite Hw, Hk, Hb, Hr, Hv, Hkp, Hrp.
  split; [done|]. split; [done|]. split.
  { unfold RepoSync.stop. simpl. by rewrite RepoSyncFacts.put_None. }
  split; [|done].
  apply (fold_left_insert_fmap (λ w, mkWorker true (proc w))).
Qed.

(** X22. The command [stop] ends the command loop: the commands before
    it are carried out, [ExecutorServer.stop] runs, and no command after
    it is read. After it the command loop and the update loop are asked
    to end, the [None] that wakes the update thread is the last item of
    the update queue, every registered job has its abort flag set, and
    every subprocess a job was running had its process group killed. *)
Theorem runCommand_stop (before after : list string) (s : Server) :
  _command_running s = true →
  "stop" ∉ before →
  ∃ s0,
    runCommand before s = (RepoSync.Blocked, s0)
    ∧ runCommand (before ++ "stop" :: after) s = (RepoSync.Stopped, stop s0)
    ∧ _command_running (stop s0) = false
    ∧ RepoSync._running (base (stop s0)) = false
    ∧ last (RepoSync.queue (RepoSync.update_queue (base (stop s0)))) = Some None
    ∧ job_workers (stop s0) = (λ w, mkWorker true (proc w)) <$> job_workers s
    ∧ (∀ u w pgid, job_workers s !! u = Some w → proc w = Some pgid →
                   pgid ∈ killed (stop s0)).
Proof.
  intros Hrun Hstop.
  destruct (runCommand_blocked before s Hrun Hstop)
    as (s0 & Hloop & Hr0 & Hw0 & Hsteps).
  exists s0. split; [exact Hloop|].
  destruct (stop_fields s0) as (Hc & Hr & Hq & Hw & Hk & _).
  split.
  { rewrite Hsteps. simpl. rewrite Hr0. unfold handle_command.
    rewrite bool_decide_eq_true_2 by done.
    rewrite (proj1 command_map_known).
    destruct after; simpl; by rewrite Hc. }
  split; [exact Hc|]. split; [exact Hr|].
  split; [by rewrite Hq, last_snoc|].
  split; [by rewrite Hw, Hw0|].
  intros u w pgid Hu Hp. rewrite Hk. apply elem_of_union. right.
  apply elem_of_list_to_set, list_elem_of_omap. exists (u, w).
  split; [|done]. apply elem_of_map_to_list. by rewrite Hw0.
Qed.

(** [AnsibleJob.stop] on the worker registered as [unique]. *)
Lemma worker_stop_fields unique w (s : Server) :
  job_workers (worker_stop unique w s)
    = <[unique := mkWorker true (proc w)]> (job_workers s)
  ∧ killed (worker_stop unique w s)
    = match proc w with
      | Some pgid => {[ pgid ]} ∪ killed s
      | None => killed s
      end
  ∧ replies (worker_stop unique w s) = replies s.
Proof. unfold worker_stop, abortRunningProc. by destruct (proc w). Qed.

(** X23. A stop request is always answered with one completion. When
    its arguments name a job ([uuid]), that is the only answer; the
    worker registered under this name, if there is one, has its abort
    flag set and the process group of its subprocess killed, the other
    workers are untouched, and with no such worker nothing is killed.
    When the arguments cannot be read or have no [uuid], the completion
    is followed by the report of the exception, and no worker is
    touched. *)
Theorem stop_request_answered (job : Request) (s : Server) :
  Posix.startswith (name job) "executor:stop" = true →
  match arguments job ≫= (λ args, args !! "uuid") with
  | Some uuid =>
      replies (handle_request job s) = replies s ++ [(unique job, WorkComplete)]
      ∧ job_workers (handle_request job s) !! uuid
        = (λ w, mkWorker true (proc w)) <$> job_workers s !! uuid
      ∧ (∀ u, u ≠ uuid →
              job_workers (handle_request job s) !! u = job_workers s !! u)
      ∧ (∀ w pgid, job_workers s !! uuid = Some w → proc w = Some pgid →
                   pgid ∈ killed (handle_request job s))
      ∧ (job_workers s !! uuid = None →
         killed (handle_request job s) = killed s)
  | None =>
      replies (handle_request job s)
        = replies s ++ [(unique job, WorkComplete); (unique job, WorkException)]
      ∧ job_workers (handle_request job s) = job_workers s
      ∧ killed (handle_request job s) = killed s
  end.
Proof.
  intros Hname. unfold handle_request.
  rewrite bool_decide_eq_false_2.
  2:{ intros Hexec. by rewrite Hexec in Hname. }
  rewrite Hname. unfold stopJob.
  destruct (arguments job) as [args|]; simpl.
  2:{ by rewrite <- app_assoc. }
  destruct (args !! "uuid") as [uuid|]; simpl.
  2:{ by rewrite <- app_assoc. }
  destruct (job_workers s !! uuid) as [w|] eqn:Hw; simpl.
  - destruct (worker_stop_fields uuid w s) as (Hjw & Hk & Hr).
    rewrite Hjw, Hk, Hr. split; [done|].
    split; [by rewrite lookup_insert_eq|].
    split; [intros u Hu; by rewrite lookup_insert_ne|].
    split; [|done].
    intros w' pgid [= <-] ->. apply elem_of_union. left.
    by apply elem_of_singleton.
  - done.
Qed.

(** X24. The registry of jobs. [executeJob] registers a new worker, not
    aborted and running nothing, under the [unique] of the request, in
    place of what was registered there, and touches no other entry.
    [finishJob] for a name that is not registered raises [KeyError] and
    changes nothing; after [executeJob] for a name that was not
    registered it gives the server back as it was; and once it returned,
    the name is not registered and a second [finishJob] raises. *)
Theorem registry_round_trip (job : Request) (s : Server) :
  (job_workers s !! unique job = None →
   finishJob (unique job) s = (inl (Exception "KeyError"), s)
   ∧ finishJob (unique job) (executeJob job s) = (inr tt, s))
  ∧ job_workers (executeJob job s) !! unique job = Some (mkWorker false None)
  ∧ (∀ u, u ≠ unique job →
          job_workers (executeJob job s) !! u = job_workers s !! u)
  ∧ (∀ s', finishJob (unique job) s = (inr tt, s') →
           job_workers s' !! unique job = None
           ∧ finishJob (unique job) s' = (inl (Exception "KeyError"), s')).
Proof.
  split; [|split; [|split]].
  - intros Hnone. unfold finishJob, executeJob. rewrite Hnone. split; [done|].
    simpl. rewrite lookup_insert_eq. f_equal.
    unfold set_job_workers. simpl. rewrite delete_insert_id by done.
    by destruct s.
  - unfold executeJob. simpl. by rewrite lookup_insert_eq.
  - intros u Hu. unfold executeJob. simpl. by rewrite lookup_insert_ne.
  - intros s'. unfold finishJob.
    destruct (job_workers s !! unique job) eqn:E; [|done].
    intros [= <-]. simpl. by rewrite lookup_delete_eq.
Qed.

Lemma runCommand_toggles_witness :
  ∃ s', runCommand ["verbose"; "bogus"; "keep"; "unverbose"] server_two_jobs
        = (RepoSync.Blocked, s')
        ∧ verbose s'
          = toggled "verbose" "unverbose"
              ["verbose"; "bogus"; "keep"; "unverbose"] (verbose server_two_jobs)
        ∧ keep_jobdir s'
          = toggled "keep" "nokeep"
              ["verbose"; "bogus"; "keep"; "unverbose"]
              (keep_jobdir server_two_jobs)
        ∧ _command_running s' = true
        ∧ base s' = base server_two_jobs
        ∧ job_workers s' = job_workers server_two_jobs
        ∧ killed s' = killed server_two_jobs
        ∧ replies s' = replies server_two_jobs.
Proof.
  apply (runCommand_toggles ["verbose"; "bogus"; "keep"; "unverbose"]
           server_two_jobs).
  - reflexivity.
  - apply (bool_decide_unpack _). vm_compute. exact I.
Defined.

Lemma runCommand_stop_witness :
  ∃ s0,
    runCommand ["verbose"] server_two_jobs = (RepoSync.Blocked, s0)
    ∧ runCommand (["verbose"] ++ "stop" :: ["unverbose"]) server_two_jobs
      = (RepoSync.Stopped, stop s0)
    ∧ _command_running (stop s0) = false
    ∧ RepoSync._running (base (stop s0)) = false
    ∧ last (RepoSync.queue (RepoSync.update_queue (base (stop s0)))) = Some None
    ∧ job_workers (stop s0)
      = (λ w, mkWorker true (proc w)) <$> job_workers server_two_jobs
    ∧ (∀ u w pgid, job_workers server_two_jobs !! u = Some w →
                   proc w = Some pgid → pgid ∈ killed (stop s0)).
Proof.
  apply (runCommand_stop ["verbose"] ["unverbose"] server_two_jobs).
  - reflexivity.
  - apply (bool_decide_unpack _). vm_compute. exact I.
Defined.

Lemma stop_request_answered_witness :
  replies (handle_request stop_request server_two_jobs)
    = replies server_two_jobs ++ [("stop-1", WorkComplete)]
  ∧ job_workers (handle_request stop_request server_two_jobs) !! "uuid-1"
    = (λ w, mkWorker true (proc w)) <$> job_workers server_two_jobs !! "uuid-1"
  ∧ (∀ u, u ≠ "uuid-1" →
          job_workers (handle_request stop_request server_two_jobs) !! u
          = job_workers server_two_jobs !! u)
  ∧ (∀ w pgid, job_workers server_two_jobs !! "uuid-1" = Some w →
               proc w = Some pgid →
               pgid ∈ killed (handle_request stop_request server_two_jobs))
  ∧ (job_workers server_two_jobs !! "uuid-1" = None →
     killed (handle_request stop_request server_two_jobs)
     = killed server_two_jobs).
Proof.
  exact (stop_request_answered stop_request server_two_jobs eq_refl).
Defined.

Lemma registry_round_trip_witness :
  finishJob "uuid-3" server_two_jobs
    = (inl (Exception "KeyError"), server_two_jobs)
  ∧ finishJob "uuid-3" (executeJob execute_request server_two_jobs)
    = (inr tt, server_two_jobs).
Proof.
  apply (proj1 (registry_round_trip execute_request server_two_jobs)).
  reflexivity.
Defined.

End ControlFacts.

(** * Properties of the SSH agent *)

Module SshAgentFacts.
Import SshAgent.

Lemma contains_app c (s t : string) :
  contains c (s +:+ t) = contains c s || contains c t.
Proof.
  induction s as [|a s IH]; [done|]. simpl. by rewrite IH, orb_assoc.
Qed.

Lemma append_assoc (s t u : string) : (s +:+ t) +:+ u = s +:+ t +:+ u.
Proof.
  induction s as [|a s IH]; [done|].
  change (String a ((s +:+ t) +:+ u) = String a (s +:+ t +:+ u)).
  by rewrite IH.
Qed.

(** Up to the first separator. *)
Lemma split_app c (s t : string) :
  contains c s = false → split c (s +:+ String c t) = s :: split c t.
Proof.
  induction s as [|a s IH]; simpl.
  - intros _. by rewrite bool_decide_eq_true_2.
  - intros [Ha Hs]%orb_false_elim. rewrite Ha, (IH Hs). done.
Qed.

Lemma split_clean c (s : string) : contains c s = false → split c s = [s].
Proof.
  induction s as [|a s IH]; simpl; [done|].
  intros [Ha Hs]%orb_false_elim. by rewrite Ha, (IH Hs).
Qed.

Section AgentFacts.
Context {W : Type}.
Variable run_ssh_agent : W → string * W.

Abbreviation State := (@State W).
Abbreviation start := (start run_ssh_agent).

(** A line of the agent sets its variable. *)
Lemma parse_agent_line key value (st : State) :
  clean key → clean value →
  parse_line (agent_line key value) st =
    (inr tt, {| agent := {| env := <[key := value]> (env (agent st));
                            ssh_agent := ssh_agent (agent st) |};
                world := world st; signalled := signalled st |}).
Proof.
  intros (Hk1 & Hk2 & Hk3) (Hv1 & Hv2 & Hv3). unfold parse_line, agent_line.
  assert (contains "=" (key +:+ String "=" (value +:+ String ";"
            (" export " +:+ key +:+ ";"))) = true) as ->.
  { rewrite contains_app. simpl. by rewrite orb_true_r. }
  replace (key +:+ String "=" (value +:+ String ";" (" export " +:+ key +:+ ";")))
    with ((key +:+ String "=" value) +:+ String ";" (" export " +:+ key +:+ ";")).
  2:{ by rewrite append_assoc. }
  rewrite split_app.
  2:{ rewrite contains_app. simpl. by rewrite Hk2, Hv2. }
  simpl. by rewrite (split_app "=" key value Hk1), (split_clean "=" value Hv1).
Qed.

(** Lines without [=] are passed over. *)
Lemma parse_trailer (trailer : string) (st : State) :
  contains "=" trailer = false →
  for_each (split newline trailer) parse_line st = (inr tt, st).
Proof.
  intros Hno.
  assert (∀ l, Forall (λ line, contains "=" line = false) l →
               for_each l parse_line st = (inr tt, st)) as Hskip.
  { induction l as [|line l IH]; intros Hall; [done|].
    apply Forall_cons in Hall as [Hline Hl]. simpl. unfold bind, parse_line.
    rewrite Hline. by apply IH. }
  apply Hskip. clear Hskip. revert Hno.
  induction trailer as [|a s IH]; simpl; [by repeat constructor|].
  intros [Ha Hs]%orb_false_elim. specialize (IH Hs).
  destruct (bool_decide (a = newline)).
  - constructor; [done | exact IH].
  - destruct (split newline s) as [|x rest].
    + constructor; [|done]. simpl. by rewrite Ha.
    + apply Forall_cons in IH as [Hx Hrest]. constructor; [|done].
      simpl. by rewrite Ha.
Qed.

(** The loop of [start] on the output of an agent. *)
Lemma parse_agent_output bindings trailer : ∀ st : State,
  Forall (λ kv, clean kv.1 ∧ clean kv.2) bindings →
  contains "=" trailer = false →
  for_each (split newline (agent_output bindings trailer)) parse_line st =
    (inr tt,
     {| agent := {| env := fold_left (λ m kv, <[kv.1 := kv.2]> m) bindings
                             (env (agent st));
                    ssh_agent := ssh_agent (agent st) |};
        world := world st; signalled := signalled st |}).
Proof.
  induction bindings as [|[key value] rest IH]; intros st Hall Hno.
  { simpl. rewrite parse_trailer by done. by destruct st as [[]]. }
  apply Forall_cons in Hall as [[Hk Hv] Hall]. simpl in Hk, Hv.
  simpl. rewrite split_app.
  2:{ destruct Hk as (_ & _ & Hk), Hv as (_ & _ & Hv). unfold agent_line.
      rewrite contains_app. simpl. rewrite contains_app. simpl.
      rewrite !contains_app. simpl. by rewrite Hk, Hv. }
  simpl. unfold bind. rewrite parse_agent_line by done.
  by rewrite IH.
Qed.

(** X28 ([SshAgent.start]). When [ssh-agent] prints a line
    [KEY=value; export KEY;] for each of its variables and then text
    without [=], [start] returns with every key bound to its value in
    [self.env], a later line going over an earlier one of the same key,
    and with the bindings [env] had before where no line replaces them.
    [self.ssh_agent] stays [None] and no process is signalled. The keys
    and the values have no [=], no [;] and no newline. *)
Theorem start_reads_the_agent bindings trailer (st : State) :
  ssh_agent (agent st) = None →
  Forall (λ kv, clean kv.1 ∧ clean kv.2) bindings →
  contains "=" trailer = false →
  (run_ssh_agent (world st)).1 = agent_output bindings trailer →
  ∃ st',
    start st = (inr tt, st')
    ∧ env (agent st')
      = fold_left (λ m kv, <[kv.1 := kv.2]> m) bindings (env (agent st))
    ∧ ssh_agent (agent st') = None
    ∧ signalled st' = signalled st.
Proof.
  intros Hnone Hall Hno Hout. unfold SshAgent.start. rewrite Hnone.
  rewrite bool_decide_eq_false_2 by by intros [? ?].
  destruct (run_ssh_agent (world st)) as [output w]. simpl in Hout. subst output.
  rewrite parse_agent_output by done. simpl. eexists. split; [done|]. done.
Qed.

End AgentFacts.

Import Examples.

Lemma start_reads_the_agent_witness :
  ∃ st',
    start example_run_ssh_agent agent_fresh = (inr tt, st')
    ∧ env (agent st')
      = fold_left (λ m kv, <[kv.1 := kv.2]> m)
          [("SSH_AUTH_SOCK", "/tmp/ssh-k3XbQ/agent.4241");
           ("SSH_AGENT_PID", "4242")] (env (agent agent_fresh))
    ∧ SshAgent.ssh_agent (agent st') = None
    ∧ signalled st' = signalled agent_fresh.
Proof.
  apply (start_reads_the_agent example_run_ssh_agent
           [("SSH_AUTH_SOCK", "/tmp/ssh-k3XbQ/agent.4241");
            ("SSH_AGENT_PID", "4242")]
           ("echo Agent pid 4242;" +:+ String SshAgent.newline "")
           agent_fresh).
  - reflexivity.
  - repeat constructor.
  - reflexivity.
  - reflexivity.
Defined.

End SshAgentFacts.

(** * Properties of the thread of a job *)

Module LifecycleFacts.
Import SshAgent Lifecycle.

Section ThreadFacts.
Context {W : Type}.
Variable run_ssh_agent : W → string * W.
Variable kill : Z → W → bool * W.
Variable int_ : string → option Z.
Variable ssh_add : gmap string string → string → W → bool * W.
Variable environ : gmap string string.
Variable expanduser : string → string.
Variable gettempdir : string.
Variable rmtree : string → M Posix.FS unit.
Variable jobdir_root : option string.
Variable private_key_file : string.
Variable unique : string.
Variable _execute : M (@Lifecycle.t W) unit.

Abbreviation execute :=
  (Lifecycle.execute run_ssh_agent kill int_ ssh_add environ expanduser
     gettempdir rmtree jobdir_root private_key_file unique _execute).

Lemma try_except_inl {S A} (m : M S A) (h : exn → M S A) s e s1 :
  m s = (inl e, s1) → Execute.try_except m h s = h e s1.
Proof. unfold Execute.try_except. by intros ->. Qed.

(** The handlers of [execute] catch everything. *)
Lemma handled (m : M (@Lifecycle.t W) unit) (a : Lifecycle.t) :
  ∃ a', Execute.try_except m
          (λ e, match e with
                | ExecutorError detail => send (Execute.WorkError detail)
                | Exception _ => send Execute.WorkException
                end) a = (inr tt, a').
Proof.
  unfold Execute.try_except. destruct (m a) as [[e|[]] a1]; [|by eexists].
  destruct e; by eexists.
Qed.

(** What the [finally] of [execute] leaves, whatever came before. *)
Lemma finally_leaves (a1 : Lifecycle.t) :
  ∃ a',
    (set_running false ;;
     jd <- gets jobdir ;;
     match jd with
     | Some jd =>
         Execute.try_except (on_fs (cleanup rmtree jd))
           (λ _, log_exception "Error cleaning up jobdir:")
     | None => ret tt
     end ;;
     Execute.try_except (on_agent (SshAgent.stop kill int_))
       (λ _, log_exception "Error stopping SSH agent:") ;;
     Execute.try_except (on_server (Control.finishJob unique))
       (λ _, log_exception "Error finalizing job thread:"))%py a1
    = (inr tt, a')
    ∧ running a' = false
    ∧ sent a' = sent a1
    ∧ jobdir a' = jobdir a1
    ∧ (jobdir a1 = None → fs a' = fs a1)
    ∧ Control.job_workers (executor_server a')
      = delete unique (Control.job_workers (executor_server a1))
    ∧ match env (agent (ssh_agent a1)) !! "SSH_AGENT_PID" with
      | Some pid =>
          match int_ pid with
          | Some n =>
              env (agent (ssh_agent a')) = ∅
              ∧ signalled (ssh_agent a') = signalled (ssh_agent a1) ++ [n]
          | None => ssh_agent a' = ssh_agent a1
          end
      | None => ssh_agent a' = ssh_agent a1
      end.
Proof.
  set (a2 := {| ssh_agent := ssh_agent a1; jobdir := jobdir a1; running := false;
                fs := fs a1; sent := sent a1;
                executor_server := executor_server a1; log := log a1 |}).
  rewrite (StagingFacts.bind_eq _ _ a1 tt a2) by reflexivity.
  rewrite (StagingFacts.bind_eq _ _ a2 (jobdir a1) a2) by reflexivity.
  assert (∃ a3, match jobdir a1 with
                | Some jd =>
                    Execute.try_except (on_fs (cleanup rmtree jd))
                      (λ _, log_exception "Error cleaning up jobdir:")
                | None => ret tt
                end a2 = (inr tt, a3)
                ∧ running a3 = false ∧ sent a3 = sent a1
                ∧ jobdir a3 = jobdir a1 ∧ (jobdir a1 = None → fs a3 = fs a1)
                ∧ executor_server a3 = executor_server a1
                ∧ ssh_agent a3 = ssh_agent a1) as (a3 & Hc & Hr3 & Hs3 & Hj3 & Hf3 & He3 & Ha3).
  { destruct (jobdir a1) as [jd|] eqn:Hjd.
    - unfold Execute.try_except, on_fs. cbn [fs a2].
      destruct (cleanup rmtree jd (fs a1)) as [[e|[]] f]; eexists; (split; [reflexivity|]);
        cbn; rewrite ?Hjd; by repeat split.
    - eexists. split; [reflexivity|]. cbn. rewrite ?Hjd. by repeat split. }
  rewrite (StagingFacts.bind_eq _ _ a2 tt a3 Hc). clear Hc.
  assert (∃ a4, Execute.try_except (on_agent (SshAgent.stop kill int_))
                  (λ _, log_exception "Error stopping SSH agent:") a3 = (inr tt, a4)
                ∧ running a4 = false ∧ sent a4 = sent a1
                ∧ jobdir a4 = jobdir a1 ∧ fs a4 = fs a3
                ∧ executor_server a4 = executor_server a1
                ∧ match env (agent (ssh_agent a1)) !! "SSH_AGENT_PID" with
                  | Some pid =>
                      match int_ pid with
                      | Some n =>
                          env (agent (ssh_agent a4)) = ∅
                          ∧ signalled (ssh_agent a4) = signalled (ssh_agent a1) ++ [n]
                      | None => ssh_agent a4 = ssh_agent a1
                      end
                  | None => ssh_agent a4 = ssh_agent a1
                  end) as (a4 & Hc & Hr4 & Hs4 & Hj4 & Hf4 & He4 & Ha4).
  { unfold Execute.try_except, on_agent, SshAgent.stop. rewrite Ha3.
    destruct (env (agent (ssh_agent a1)) !! "SSH_AGENT_PID") as [pid|].
    - destruct (int_ pid) as [n|].
      + destruct (kill n (world (ssh_agent a1))) as [oserror w].
        eexists. split; [reflexivity|]. cbn. by repeat split.
      + eexists. split; [reflexivity|]. cbn. by repeat split.
    - eexists. split; [reflexivity|]. cbn. by repeat split. }
  rewrite (StagingFacts.bind_eq _ _ a3 tt a4 Hc). clear Hc.
  unfold Execute.try_except, on_server, Control.finishJob. rewrite He4.
  destruct (Control.job_workers (executor_server a1) !! unique) as [w|] eqn:Hw.
  - eexists. split; [reflexivity|]. cbn.
    split; [done|]. split; [done|]. split; [done|].
    split; [intros H; rewrite Hf4; by apply Hf3|]. split; [done|]. done.
  - eexists. split; [reflexivity|]. cbn.
    split; [done|]. split; [done|]. split; [done|].
    split; [intros H; rewrite Hf4; by apply Hf3|].
    split; [by rewrite delete_id|]. done.
Qed.

(** X30 ([AnsibleJob.execute], its [finally]). Whatever [_execute],
    the agent, [ssh-add], [JobDir] and [shutil.rmtree] do, returning or
    raising, [execute] raises nothing. When it returns [self.running] is
    [False], the job is not registered in [job_workers], and [self.env]
    of the agent holds no [SSH_AGENT_PID] that [int] reads: a failure of
    the cleanup or of the stop of the agent is logged and does not keep
    [finishJob] from running. *)
Theorem execute_always_finishes (a : Lifecycle.t) :
  ∃ a',
    execute a = (inr tt, a')
    ∧ running a' = false
    ∧ Control.job_workers (executor_server a') !! unique = None
    ∧ ∀ pid, env (agent (ssh_agent a')) !! "SSH_AGENT_PID" = Some pid →
             int_ pid = None.
Proof.
  unfold Lifecycle.execute, try_finally.
  match goal with
  | |- context [Execute.try_except ?m ?h a] =>
      destruct (handled m a) as [a1 ->]
  end.
  destruct (finally_leaves a1) as (a' & -> & Hrun & _ & _ & _ & Hreg & Hagent).
  exists a'. split; [done|]. split; [done|].
  split; [by rewrite Hreg, lookup_delete_eq|].
  intros pid Hpid.
  destruct (env (agent (ssh_agent a1)) !! "SSH_AGENT_PID") as [pid1|] eqn:H1.
  - destruct (int_ pid1) as [n|] eqn:Hint.
    + destruct Hagent as [Hempty _]. by rewrite Hempty, lookup_empty in Hpid.
    + rewrite Hagent, H1 in Hpid. by injection Hpid as <-.
  - by rewrite Hagent, H1 in Hpid.
Qed.

(** X29 ([AnsibleJob.execute], a job that cannot start). A new job
    whose agent printed its socket and its process, and whose key
    [ssh-add] refuses, or whose root directory is there already, sends
    one message, [sendWorkException]. [self.jobdir] stays [None] and the
    file system is as it was: nothing is created and nothing is cleaned
    up. The agent is sent [SIGTERM] and its variables are dropped,
    [self.running] is [False], and the job is taken out of
    [job_workers]. *)
Theorem job_that_cannot_start sock pid n trailer (a : Lifecycle.t) :
  agent (ssh_agent a) = SshAgent.init →
  jobdir a = None →
  clean sock → clean pid →
  contains "=" trailer = false →
  (run_ssh_agent (world (ssh_agent a))).1
    = agent_output [("SSH_AUTH_SOCK", sock); ("SSH_AGENT_PID", pid)] trailer →
  int_ pid = Some n →
  (ssh_add (agent_env sock pid ∪ environ) (expanduser private_key_file)
     (run_ssh_agent (world (ssh_agent a))).2).1 = true
  ∨ Posix.lexists (fs a)
      (Posix.join (if truthy jobdir_root then default "" jobdir_root
                   else gettempdir) [unique]) = true →
  ∃ a',
    execute a = (inr tt, a')
    ∧ sent a' = sent a ++ [Execute.WorkException]
    ∧ jobdir a' = None
    ∧ fs a' = fs a
    ∧ running a' = false
    ∧ env (agent (ssh_agent a')) = ∅
    ∧ signalled (ssh_agent a') = signalled (ssh_agent a) ++ [n]
    ∧ Control.job_workers (executor_server a')
      = delete unique (Control.job_workers (executor_server a)).
Proof.
  intros Hinit Hjd Hsock Hpid Hno Hout Hint Hfail.
  unfold Lifecycle.execute, try_finally.
  set (h := λ e, match e with
                 | ExecutorError detail => send (Execute.WorkError detail)
                 | Exception _ => send Execute.WorkException
                 end).
  match goal with
  | |- context [Execute.try_except ?m h a] =>
      assert (∃ a1 msg, m a = (inl (Exception msg), a1)
                ∧ sent a1 = sent a ∧ jobdir a1 = None ∧ fs a1 = fs a
                ∧ executor_server a1 = executor_server a
                ∧ env (agent (ssh_agent a1)) = agent_env sock pid
                ∧ signalled (ssh_agent a1) = signalled (ssh_agent a))
        as (a1 & msg & Hm & Hs1 & Hj1 & Hf1 & He1 & Henv1 & Hsig1)
  end.
  { destruct (run_ssh_agent (world (ssh_agent a))) as [output w] eqn:Hrun.
    cbn [fst snd] in Hout, Hfail. subst output.
    assert (∃ s1, SshAgent.start run_ssh_agent (ssh_agent a) = (inr tt, s1)
                  ∧ env (agent s1) = agent_env sock pid
                  ∧ world s1 = w ∧ signalled s1 = signalled (ssh_agent a))
      as (s1 & Hstart & Hs1env & Hs1w & Hs1sig).
    { unfold SshAgent.start. rewrite Hinit, Hrun.
      rewrite bool_decide_eq_false_2 by by intros [? ?].
      rewrite SshAgentFacts.parse_agent_output; [| |done].
      2:{ apply Forall_cons. split; [split; [by repeat split | done]|].
          apply Forall_cons. split; [split; [by repeat split | done]|].
          constructor. }
      eexists. split; [reflexivity|]. by cbn. }
    erewrite StagingFacts.bind_eq; [|unfold on_agent; by rewrite Hstart].
    destruct (ssh_add (agent_env sock pid ∪ environ)
                (expanduser private_key_file) w) as [failed w'] eqn:Hadd.
    cbn [fst] in Hfail. destruct failed.
    - eexists _, _. split.
      { eapply StagingFacts.bind_raise. unfold on_agent, SshAgent.add.
        cbn [ssh_agent]. by rewrite Hs1env, Hs1w, Hadd. }
      cbn. by rewrite Hs1env, Hs1sig.
    - destruct Hfail as [?|Hexists]; [done|].
      erewrite StagingFacts.bind_eq;
        [|unfold on_agent, SshAgent.add; cbn [ssh_agent];
          by rewrite Hs1env, Hs1w, Hadd].
      erewrite StagingFacts.bind_eq; [|reflexivity].
      eexists _, _. split.
      { eapply StagingFacts.bind_raise. unfold on_fs. cbn [fs].
        unfold JobDir.init. erewrite StagingFacts.bind_raise; [reflexivity|].
        unfold Posix.mkdir. by rewrite Hexists. }
      cbn. by rewrite Hs1env, Hs1sig. }
  rewrite (try_except_inl _ h a _ a1 Hm). subst h. cbn beta iota.
  unfold send at 1, modify at 1.
  destruct (finally_leaves
              {| ssh_agent := ssh_agent a1; jobdir := jobdir a1;
                 running := running a1; fs := fs a1;
                 sent := sent a1 ++ [Execute.WorkException];
                 executor_server := executor_server a1; log := log a1 |})
    as (a' & -> & Hrun & Hsent & Hjob & Hfs & Hreg & Hagent).
  cbn in Hsent, Hjob, Hfs, Hreg, Hagent.
  rewrite Henv1 in Hagent. unfold agent_env in Hagent.
  rewrite lookup_insert_eq, Hint in Hagent. destruct Hagent as [Hempty Hkilled].
  exists a'. split; [done|]. split; [by rewrite Hsent, Hs1|].
  split; [by rewrite Hjob|]. split; [by rewrite Hfs, Hf1|].
  split; [done|]. split; [done|]. split; [by rewrite Hkilled, Hsig1|].
  by rewrite Hreg, He1.
Qed.

End ThreadFacts.
Import Examples.

Lemma job_that_cannot_start_witness :
  ∃ a',
    Lifecycle.execute example_run_ssh_agent example_kill example_int ssh_add_refused ∅ id
      "/tmp" rmtree_raises None "~/.ssh/id_rsa" "uuid-1" (ret tt) thread_fresh
    = (inr tt, a')
    ∧ sent a' = [Execute.WorkException]
    ∧ jobdir a' = None
    ∧ fs a' = fs_tmp
    ∧ running a' = false
    ∧ env (agent (ssh_agent a')) = ∅
    ∧ signalled (ssh_agent a') = [4242%Z]
    ∧ Control.job_workers (executor_server a')
      = delete "uuid-1" (Control.job_workers server_two_jobs).
Proof.
  apply (job_that_cannot_start example_run_ssh_agent example_kill example_int
           ssh_add_refused ∅ id "/tmp" rmtree_raises None "~/.ssh/id_rsa"
           "uuid-1" (ret tt) "/tmp/ssh-k3XbQ/agent.4241" "4242" 4242%Z
           ("echo Agent pid 4242;" +:+ String SshAgent.newline "")
           thread_fresh).
  - reflexivity.
  - reflexivity.
  - repeat split.
  - repeat split.
  - reflexivity.
  - reflexivity.
  - reflexivity.
  - left. reflexivity.
Defined.

End LifecycleFacts.
